(** * Shader objects and GLSL program objects (rts/Rendering/Shaders/Shader.cpp)

    A shallow embedding of the shader-object / program-object layer of the
    renderer: source resolution and assembly, content hashing, the reload
    controller, and the set-if-changed uniform interface.

    Conventions of the embedding.
    - [std::string] is [string]; [size_t] is a 64-bit unsigned integer carried
      in [Z] with its wrap-around written out ([wrap]).
    - [unsigned int] and [GLuint] values (handles, hashes) are carried in [Z].
    - Every call into the GL driver is appended to the [calls] of the
      [World]; what the driver answers is read from the [Platform] as a
      function of the calls made so far.  Log lines and violated assertions
      are appended to the [console].
    - [assert(c)] expands to nothing in release builds and aborts in debug
      builds.  The model continues as the release build does and records
      [AssertionViolated]; a debug build stops at the first such entry.
    - Members of the program object live in the record [ProgramObject];
      methods take the object and the world and return both. *)

From Stdlib Require Import ZArith String Ascii List Bool Lia.
From stdpp Require Import base option list gmap strings fin_maps.

Local Open Scope string_scope.
Local Open Scope Z_scope.

(** ** std::string *)

Module Str.

Definition npos : Z := 2 ^ 64 - 1.

(** Arithmetic on [size_t]. *)
Definition wrap (z : Z) : Z := z mod 2 ^ 64.

Definition size (s : string) : Z := Z.of_nat (String.length s).

Definition empty (s : string) : bool :=
  match s with EmptyString => true | String _ _ => false end.

Fixpoint take (n : nat) (s : string) : string :=
  match n, s with
  | S n', String c s' => String c (take n' s')
  | _, _ => EmptyString
  end.

Fixpoint drop (n : nat) (s : string) : string :=
  match n, s with
  | S n', String _ s' => drop n' s'
  | _, _ => s
  end.

(** First offset at which [pat] occurs in [s]. *)
Fixpoint index_of (pat s : string) : option nat :=
  if String.prefix pat s then Some 0%nat
  else match s with
       | EmptyString => None
       | String _ s' => S <$> index_of pat s'
       end.

(** First offset at which the character [c] occurs in [s]. *)
Fixpoint index_of_char (c : ascii) (s : string) : option nat :=
  match s with
  | EmptyString => None
  | String a s' =>
      if Ascii.eqb a c then Some 0%nat else S <$> index_of_char c s'
  end.

Definition of_offset (o : option nat) : Z :=
  match o with Some n => Z.of_nat n | None => npos end.

(** [s.find(pat)] *)
Definition find (s pat : string) : Z := of_offset (index_of pat s).

(** [s.find(c, pos)]: a search that starts past the end finds nothing. *)
Definition find_char (s : string) (c : ascii) (pos : Z) : Z :=
  if size s <? pos then npos
  else of_offset ((λ k, Z.to_nat pos + k)%nat
                    <$> index_of_char c (drop (Z.to_nat pos) s)).

(** [s.substr(pos, n)] for [pos <= s.size()]: at most [n] characters, cut
    at the end of the string. *)
Definition substr (s : string) (pos n : Z) : string :=
  take (Z.to_nat (Z.min n (size s - pos))) (drop (Z.to_nat pos) s).

(** [s.erase(pos, n)] for [pos <= s.size()]. *)
Definition erase (s : string) (pos n : Z) : string :=
  take (Z.to_nat pos) s
  ++ drop (Z.to_nat (Z.min n (size s - pos))) (drop (Z.to_nat pos) s).

Definition contains (s pat : string) : bool :=
  negb (find s pat =? npos).

Definition concat (l : list string) : string :=
  fold_right String.append EmptyString l.

Definition newline : string := String (ascii_of_nat 10) EmptyString.
Definition dquote : string := String (ascii_of_nat 34) EmptyString.

End Str.

(** ** The platform: helpers of other modules and the GL driver *)

Inductive LogLevel := L_DEBUG | L_WARNING | L_ERROR.

(** The [glUniform*] entry points used by the setters. *)
Inductive UniformFn :=
| Uniform1i | Uniform2i | Uniform3i | Uniform4i
| Uniform1f | Uniform2f | Uniform3f | Uniform4f
| Uniform2iv | Uniform3iv | Uniform4iv
| Uniform2fv | Uniform3fv | Uniform4fv
| UniformMatrix2fv | UniformMatrix3fv | UniformMatrix4fv.

(** A [GLfloat] is carried as its IEEE-754 bit pattern; no arithmetic is
    done on uniform values, they are only stored, compared and passed on. *)
Definition GLfloat := Z.

(** The value handed to a uniform setter. *)
Inductive UniformValue :=
| IntVec (v : list Z)
| FltVec (v : list GLfloat)
| Matrix (dim : nat) (transp : bool) (v : list GLfloat).

(** The entry point that writes a value of a given shape, used where a
    cached value is written back without a setter having been named. *)
Definition writerOf (v : UniformValue) : UniformFn :=
  match v with
  | IntVec v =>
      match length v with
      | 1%nat => Uniform1i | 2%nat => Uniform2i | 3%nat => Uniform3i
      | _ => Uniform4i
      end
  | FltVec v =>
      match length v with
      | 1%nat => Uniform1f | 2%nat => Uniform2f | 3%nat => Uniform3f
      | _ => Uniform4f
      end
  | Matrix dim _ _ =>
      match dim with
      | 2%nat => UniformMatrix2fv | 3%nat => UniformMatrix3fv
      | _ => UniformMatrix4fv
      end
  end.

Inductive GLCall :=
| glCreateProgram
| glCreateShader (type : Z)
| glShaderSource (shader : Z) (sources : list string)
| glCompileShader (shader : Z)
| glAttachShader (program shader : Z)
| glDeleteShader (shader : Z)
| glLinkProgram (program : Z)
| glValidateProgram (program : Z)
| glUseProgram (program : Z)
| glDeleteProgram (program : Z)
| glUniform (fn : UniformFn) (location : Z) (v : UniformValue).

Inductive Diagnostic :=
| Log (level : LogLevel) (msg : string)
| AssertionViolated (expr : string).

(** The calls made into the driver so far, newest first. *)
Definition Trace := list GLCall.

Class Platform := {
  (** System/Sync/HsiehHash.h: [HsiehHash(data, len, seed)]. *)
  HsiehHash : string → Z → Z;
  (** System/StringUtil.h: [hashString(str)]. *)
  hashString : string → Z;
  (** System/StringUtil.h: [EnsureEndsWith(&str, suffix)], the new [str]. *)
  EnsureEndsWith : string → string → string;
  (** Hash of the definition flags computed by [shaderFlags.UpdateHash()]. *)
  flagsHash : string → Z;
  (** Rendering/Shaders/Shader.h: the shader handle that a
      [CompiledShaderObject] holds after [std::move] made another object from
      it, given the handle it held before. *)
  movedFromId : Z → Z;
  (** The GL driver: what each query answers after a given history. *)
  drvCreateProgram : Trace → Z;
  drvCreateShader : Trace → Z → Z;
  drvIsShader : Trace → Z → bool;
  drvIsProgram : Trace → Z → bool;
  drvCompileStatus : Trace → Z → Z;
  drvLinkStatus : Trace → Z → Z;
  drvValidateStatus : Trace → Z → Z;
  drvShaderInfoLog : Trace → Z → string;
  drvProgramInfoLog : Trace → Z → string;
  drvActiveUniforms : Trace → Z → list string;
  drvUniformLocation : Trace → Z → string → Z;
  drvGetUniform : Trace → Z → Z → UniformValue
}.

(** Process-wide state the shader layer reads and writes. *)
Record World := mkWorld {
  (** files visible to [CFileHandler], by path *)
  vfs : gmap string string;
  (** the configuration switch [UseShaderCache] *)
  UseShaderCache : bool;
  (** [shaderHandler->GetShaderCache()]: content hash to program handle *)
  shaderCache : gmap Z Z;
  calls : Trace;
  console : list Diagnostic
}.

Definition gl (c : GLCall) (w : World) : World :=
  mkWorld (vfs w) (UseShaderCache w) (shaderCache w) (c :: calls w) (console w).

Definition emit (d : Diagnostic) (w : World) : World :=
  mkWorld (vfs w) (UseShaderCache w) (shaderCache w) (calls w) (d :: console w).

Definition LOG_L (level : LogLevel) (msg : string) (w : World) : World :=
  emit (Log level msg) w.

Definition assert (c : bool) (expr : string) (w : World) : World :=
  if c then w else emit (AssertionViolated expr) w.

Section Shader.
Context `{Platform}.

(** ** File-local helpers *)

Definition glslIsValid (obj : Z) (w : World) : bool * World :=
  let w := assert (drvIsShader (calls w) obj || drvIsProgram (calls w) obj)
             "glIsShader(obj) || glIsProgram(obj)" w in
  let status :=
    if drvIsShader (calls w) obj then drvCompileStatus (calls w) obj
    else drvLinkStatus (calls w) obj in
  (negb (status =? 0), w).

Definition glslGetLog (obj : Z) (w : World) : string * World :=
  let isShader := drvIsShader (calls w) obj in
  let w := assert (drvIsShader (calls w) obj || drvIsProgram (calls w) obj)
             "glIsShader(obj) || glIsProgram(obj)" w in
  let infoLog :=
    if isShader then drvShaderInfoLog (calls w) obj
    else drvProgramInfoLog (calls w) obj in
  (infoLog, w).

Definition GetShaderSource (srcData : string) (w : World) : string * World :=
  if negb (Str.find srcData "void main()" =? Str.npos) then (srcData, w)
  else
    let soPath := "shaders/" ++ srcData in
    match vfs w !! soPath with
    | Some contents => (contents, w)
    | None =>
        ("", LOG_L L_ERROR
               ("[GetShaderSource] file " ++ Str.dquote ++ soPath
                  ++ Str.dquote ++ " not found") w)
    end.

(** Returns [(found, src, version)]: the two in-out parameters after the
    call. *)
Definition ExtractVersionDirective (src version : string)
  : bool * string * string :=
  let pos := Str.find src "#version " in
  if negb (pos =? Str.npos) then
    let eol := Str.wrap (Str.find_char src (ascii_of_nat 10) pos + 1) in
    let n := Str.wrap (eol - pos) in
    (true, Str.erase src pos n, Str.substr src pos n)
  else (false, src, version).

(** ** IShaderObject *)

(** The members of a shader object that Shader.cpp reads and writes. *)
Record IShaderObject := mkShaderObject {
  type : Z;
  srcData : string;
  srcText : string;
  rawDefStrs : string;
  modDefStrs : string
}.

Definition GetHash (so : IShaderObject) : Z :=
  let hash := 127 in
  let hash := HsiehHash (srcText so) hash in
  let hash := HsiehHash (modDefStrs so) hash in
  let hash := HsiehHash (rawDefStrs so) hash in
  hash.

Definition set_srcText (t : string) (so : IShaderObject) : IShaderObject :=
  mkShaderObject (type so) (srcData so) t (rawDefStrs so) (modDefStrs so).

Definition ReloadFromTextOrFile (so : IShaderObject) (w : World)
  : bool * IShaderObject * World :=
  let '(newText, w) := GetShaderSource (srcData so) w in
  if negb (String.eqb newText (srcText so)) then (true, set_srcText newText so, w)
  else (false, so, w).

(** ** GLSLShaderObject *)

(** The compiled object of a shader: its handle and whether it compiled.
    The destructor, in Shader.cpp, calls [glDeleteShader] on the handle the
    object holds.  A move gives the handle and the flag to the new object;
    the handle it leaves in the old one is [movedFromId]. *)
Record CompiledShaderObject := mkCompiled { cso_id : Z; cso_valid : bool }.

(** The [sources] array handed to [glShaderSource]. *)
Definition assembledSources (so : IShaderObject) : list string :=
  let versionStr := "" in
  let sourceStr := srcText so in
  let defFlags := rawDefStrs so ++ Str.newline ++ modDefStrs so in
  let '(_, sourceStr, versionStr) :=
    ExtractVersionDirective sourceStr versionStr in
  let '(_, defFlags, versionStr) :=
    ExtractVersionDirective defFlags versionStr in
  let versionStr :=
    if negb (Str.empty versionStr) then EnsureEndsWith versionStr Str.newline
    else versionStr in
  let defFlags :=
    if negb (Str.empty defFlags) then EnsureEndsWith defFlags Str.newline
    else defFlags in
  [ "// SHADER VERSION" ++ Str.newline;
    versionStr;
    "// SHADER FLAGS" ++ Str.newline;
    defFlags;
    "// SHADER SOURCE" ++ Str.newline;
    "#line 1" ++ Str.newline;
    sourceStr ].

(** Returns the compiled object and the caller's [programLog].  The result
    is made from the local object by [std::move]; the local object is
    destroyed on return, and its destructor calls [glDeleteShader] on the
    handle the move left in it.  The shader handle itself is owned by the
    returned object. *)
Definition CreateAndCompileShaderObject
    (so : IShaderObject) (programLog : string) (w : World)
  : CompiledShaderObject * string * World :=
  let w := assert (negb (Str.empty (srcText so))) "!srcText.empty()" w in
  let sources := assembledSources so in
  let shader := drvCreateShader (calls w) (type so) in
  let w := gl (glCreateShader (type so)) w in
  let w := gl (glShaderSource shader sources) w in
  let w := gl (glCompileShader shader) w in
  let '(isValid, w) := glslIsValid shader w in
  if negb isValid then
    let '(shaderLog, w) := glslGetLog shader w in
    let shaderName :=
      if negb (Str.find (srcData so) "void main()" =? Str.npos) then "unknown"
      else srcData so in
    let w := LOG_L L_WARNING
               ("[GLSL-SO::CreateAndCompileShaderObject] shader-object name: "
                  ++ shaderName ++ ", compile-log:" ++ Str.newline
                  ++ shaderLog ++ Str.newline) w in
    let w := LOG_L L_WARNING (Str.newline ++ Str.concat sources) w in
    let w := gl (glDeleteShader (movedFromId shader)) w in
    (mkCompiled shader isValid, programLog ++ shaderLog, w)
  else
    let w := gl (glDeleteShader (movedFromId shader)) w in
    (mkCompiled shader isValid, programLog, w).

(** Modelled from the spec: [IShaderObject::SetDefinitions] is declared in
    Shader.h; it replaces the modifiable definition string and leaves the raw
    definition string alone. *)
Definition SetDefinitions (defs : string) (so : IShaderObject) : IShaderObject :=
  mkShaderObject (type so) (srcData so) (srcText so) (rawDefStrs so) defs.

(** ** Uniform state cache *)

(** Modelled from the spec: [UniformState] is declared in a header that is
    not part of this file: a name, a GPU location or the not-found sentinel,
    and the last-set value, absent until the first set. *)
Record UniformState := mkUniformState {
  us_name : string;
  us_location : Z;
  us_value : option UniformValue
}.

#[export] Instance UniformValue_eq_dec : EqDecision UniformValue.
Proof. solve_decision. Defined.

Definition GL_INVALID_INDEX : Z := 4294967295.

(** Conversion of an [unsigned int] to [int]. *)
Definition to_int (z : Z) : Z := (z + 2 ^ 31) mod 2 ^ 32 - 2 ^ 31.

(** Modelled from the spec: [UniformState::GetLocation] and
    [IsInitialized] read the location and whether a value was ever set. *)
Definition GetLocation (us : UniformState) : Z := us_location us.

Definition IsInitialized (us : UniformState) : bool :=
  match us_value us with Some _ => true | None => false end.

(** Modelled from the spec: the location is stored as an [int]; the
    not-found sentinel is [GL_INVALID_INDEX], which is -1 as an [int]. *)
Definition SetLocation (loc : Z) (us : UniformState) : UniformState :=
  mkUniformState (us_name us) (to_int loc) (us_value us).

(** Modelled from the spec: a location is valid unless it is the not-found
    sentinel. *)
Definition IsLocationValid (us : UniformState) : bool :=
  negb (us_location us =? to_int GL_INVALID_INDEX).

(** Modelled from the spec: [UniformState::Set] and its [Set2v] .. [Set4x4]
    siblings compare the arity-matched value with the cached one and return
    whether a GPU write is required; a changed value is recorded, and a
    location of not-found disables the write. *)
Definition UniformState_Set (v : UniformValue) (us : UniformState)
  : bool * UniformState :=
  if decide (us_value us = Some v) then (false, us)
  else (IsLocationValid us, mkUniformState (us_name us) (us_location us) (Some v)).

(** Modelled from the spec: a state created for a name has no location and
    no value yet. *)
Definition newUniformState (name : string) : UniformState :=
  mkUniformState name (to_int GL_INVALID_INDEX) None.

(** ** Definition flags *)

(** Modelled from the spec: the flag set of a program is declared in a
    header that is not part of this file.  It carries the definition text,
    whether a hash was computed yet (the first reload is pending until then)
    and whether a flag changed since the hash was last computed. *)
Record ShaderFlags := mkShaderFlags {
  flagText : string;
  hashIsSet : bool;
  flagsChanged : bool
}.

(** Modelled from the spec: the three observers of the flag set that
    Shader.cpp calls: the definition text, whether the hash is set, and
    whether a flag changed since the hash was last computed. *)
Definition GetString (sf : ShaderFlags) : string := flagText sf.
Definition HashSet (sf : ShaderFlags) : bool := hashIsSet sf.
Definition Updated (sf : ShaderFlags) : bool := flagsChanged sf.

(** Modelled from the spec: recomputing the hash ends the pending first
    reload and acknowledges every flag change. *)
Definition UpdateHash (sf : ShaderFlags) : Z * ShaderFlags :=
  (flagsHash (flagText sf), mkShaderFlags (flagText sf) true false).

(** ** Program cache *)

(** Modelled from the spec: [ShaderCache::Find] returns the handle stored
    under a hash, or 0. *)
Definition Find (hc : Z) (w : World) : Z := default 0 (shaderCache w !! hc).

(** Modelled from the spec: [ShaderCache::Push] registers a handle under a
    hash if the hash has none yet, and says whether it did. *)
Definition Push (hc progID : Z) (w : World) : bool * World :=
  match shaderCache w !! hc with
  | Some _ => (false, w)
  | None =>
      (true, mkWorld (vfs w) (UseShaderCache w) (<[hc := progID]> (shaderCache w))
               (calls w) (console w))
  end.

(** ** IProgramObject / GLSLProgramObject *)

(** The members of a program object that Shader.cpp reads and writes; the
    texture bindings are kept by texture unit. *)
Record ProgramObject := mkProgram {
  name : string;
  glid : Z;
  hash : Z;
  valid : bool;
  bound : bool;
  uniformStates : gmap Z UniformState;
  shaderObjs : list IShaderObject;
  luaTextures : gmap Z string;
  log : string;
  shaderFlags : ShaderFlags;
  uniformLocs : list Z
}.

Definition set_glid (x : Z) (po : ProgramObject) : ProgramObject :=
  mkProgram (name po) x (hash po) (valid po) (bound po) (uniformStates po)
    (shaderObjs po) (luaTextures po) (log po) (shaderFlags po) (uniformLocs po).
Definition set_hash (x : Z) (po : ProgramObject) : ProgramObject :=
  mkProgram (name po) (glid po) x (valid po) (bound po) (uniformStates po)
    (shaderObjs po) (luaTextures po) (log po) (shaderFlags po) (uniformLocs po).
Definition set_valid (x : bool) (po : ProgramObject) : ProgramObject :=
  mkProgram (name po) (glid po) (hash po) x (bound po) (uniformStates po)
    (shaderObjs po) (luaTextures po) (log po) (shaderFlags po) (uniformLocs po).
Definition set_bound (x : bool) (po : ProgramObject) : ProgramObject :=
  mkProgram (name po) (glid po) (hash po) (valid po) x (uniformStates po)
    (shaderObjs po) (luaTextures po) (log po) (shaderFlags po) (uniformLocs po).
Definition set_uniformStates (x : gmap Z UniformState) (po : ProgramObject)
  : ProgramObject :=
  mkProgram (name po) (glid po) (hash po) (valid po) (bound po) x
    (shaderObjs po) (luaTextures po) (log po) (shaderFlags po) (uniformLocs po).
Definition set_shaderObjs (x : list IShaderObject) (po : ProgramObject)
  : ProgramObject :=
  mkProgram (name po) (glid po) (hash po) (valid po) (bound po) (uniformStates po)
    x (luaTextures po) (log po) (shaderFlags po) (uniformLocs po).
Definition set_log (x : string) (po : ProgramObject) : ProgramObject :=
  mkProgram (name po) (glid po) (hash po) (valid po) (bound po) (uniformStates po)
    (shaderObjs po) (luaTextures po) x (shaderFlags po) (uniformLocs po).
Definition set_shaderFlags (x : ShaderFlags) (po : ProgramObject) : ProgramObject :=
  mkProgram (name po) (glid po) (hash po) (valid po) (bound po) (uniformStates po)
    (shaderObjs po) (luaTextures po) (log po) x (uniformLocs po).
Definition set_uniformLocs (x : list Z) (po : ProgramObject) : ProgramObject :=
  mkProgram (name po) (glid po) (hash po) (valid po) (bound po) (uniformStates po)
    (shaderObjs po) (luaTextures po) (log po) (shaderFlags po) x.

(** Modelled from the spec: [IProgramObject::IsBound] is defined in Shader.h
    and reads the bound flag. *)
Definition IsBound (po : ProgramObject) : bool := bound po.

Definition GetUniformLoc (name : string) (po : ProgramObject) (w : World) : Z :=
  drvUniformLocation (calls w) (glid po) name.

(** Returns the key of the state in [uniformStates], which stands for the
    pointer the code returns; [emplace] keeps an entry that exists. *)
Definition GetNewUniformState (name : string) (po : ProgramObject) (w : World)
  : Z * ProgramObject :=
  let hash := hashString name in
  let us := default (newUniformState name) (uniformStates po !! hash) in
  let us := SetLocation (GetUniformLoc name po w) us in
  (hash, set_uniformStates (<[hash := us]> (uniformStates po)) po).

(** Modelled from the spec: [GetUniformState] is declared in Shader.h; it
    looks the state up by the hash of the name and creates it when missing. *)
Definition GetUniformState (name : string) (po : ProgramObject) (w : World)
  : Z * ProgramObject :=
  let hash := hashString name in
  match uniformStates po !! hash with
  | Some _ => (hash, po)
  | None => GetNewUniformState name po w
  end.

(** Modelled from the spec: [GetUniformLocation] is declared in Shader.h; it
    is the location of the state of that name. *)
Definition GetUniformLocation (name : string) (po : ProgramObject) (w : World)
  : Z * ProgramObject :=
  let '(key, po) := GetUniformState name po w in
  (default (to_int GL_INVALID_INDEX) (GetLocation <$> uniformStates po !! key), po).

Definition SetUniformLocation (name : string) (po : ProgramObject) (w : World)
  : ProgramObject :=
  let po := set_uniformLocs (uniformLocs po ++ [hashString name]) po in
  snd (GetUniformLocation name po w).

(** *** Enable, Disable *)

(** Modelled from the spec: [IProgramObject::Enable] and [Disable] are
    defined in Shader.h; they mark the program bound and not bound. *)
Definition IProgramObject_Enable (po : ProgramObject) : ProgramObject :=
  set_bound true po.
Definition IProgramObject_Disable (po : ProgramObject) : ProgramObject :=
  set_bound false po.

(** *** Reload *)

Definition ClearUniformLocations (po : ProgramObject) : ProgramObject :=
  set_uniformStates (SetLocation GL_INVALID_INDEX <$> uniformStates po) po.

Definition SetShaderDefinitions (defs : string) (po : ProgramObject)
  : ProgramObject :=
  set_shaderObjs (SetDefinitions defs <$> shaderObjs po) po.

Fixpoint reloadEach (sos : list IShaderObject) (w : World)
  : list IShaderObject * World :=
  match sos with
  | [] => ([], w)
  | so :: sos' =>
      let '(_, so, w) := ReloadFromTextOrFile so w in
      let '(sos', w) := reloadEach sos' w in
      (so :: sos', w)
  end.

Definition ReloadShaderObjects (po : ProgramObject) (w : World)
  : ProgramObject * World :=
  let '(sos, w) := reloadEach (shaderObjs po) w in
  (set_shaderObjs sos po, w).

Definition RecalculateShaderHash (po : ProgramObject) : ProgramObject :=
  let '(h, sf) := UpdateHash (shaderFlags po) in
  let po := set_shaderFlags sf po in
  set_hash (fold_left (λ h so, Z.lxor h (GetHash so)) (shaderObjs po) h) po.

Definition ReloadState (reloadShaderObjs : bool) (po : ProgramObject) (w : World)
  : bool * ProgramObject * World :=
  let po := set_log "" po in
  let po := ClearUniformLocations po in
  let po := SetShaderDefinitions (GetString (shaderFlags po)) po in
  let '(po, w) :=
    if reloadShaderObjs then ReloadShaderObjects po w else (po, w) in
  let po := RecalculateShaderHash po in
  (negb (bool_decide (shaderObjs po = [])), po, w).

(** The loop of [CreateAndLink] over the shader objects.  The loop variable
    is made by [std::move] from the temporary that the call returns; the
    temporary is destroyed at the end of the declaration, and the loop
    variable at the end of the iteration, also on [continue].  Each
    destructor calls [glDeleteShader]. *)
Fixpoint compileAndAttach (sos : list IShaderObject) (progID : Z)
    (shadersValid : bool) (programLog : string) (w : World)
  : bool * string * World :=
  match sos with
  | [] => (shadersValid, programLog, w)
  | so :: sos' =>
      let '(cso, programLog, w) :=
        CreateAndCompileShaderObject so programLog w in
      let w := gl (glDeleteShader (movedFromId (cso_id cso))) w in
      if negb (cso_valid cso) then
        let w := gl (glDeleteShader (cso_id cso)) w in
        compileAndAttach sos' progID false programLog w
      else
        let w := gl (glAttachShader progID (cso_id cso)) w in
        let w := gl (glDeleteShader (cso_id cso)) w in
        compileAndAttach sos' progID shadersValid programLog w
  end.

Definition CreateAndLink (po : ProgramObject) (w : World)
  : bool * ProgramObject * World :=
  let shadersValid := true in
  let w := assert (glid po =? 0) "glid == 0" w in
  let po := set_glid (drvCreateProgram (calls w)) po in
  let w := gl glCreateProgram w in
  if glid po =? 0 then (false, po, w)
  else
    let '(shadersValid, programLog, w) :=
      compileAndAttach (shaderObjs po) (glid po) shadersValid (log po) w in
    let po := set_log programLog po in
    if negb shadersValid then (false, po, w)
    else
      let w := gl (glLinkProgram (glid po)) w in
      let '(linkLog, w) := glslGetLog (glid po) w in
      let po := set_log (log po ++ linkLog) po in
      let '(ok, w) := glslIsValid (glid po) w in
      (ok, po, w).

Definition Validate (po : ProgramObject) (w : World)
  : bool * ProgramObject * World :=
  let w := gl (glValidateProgram (glid po)) w in
  let validated := drvValidateStatus (calls w) (glid po) in
  let '(validationLog, w) := glslGetLog (glid po) w in
  let po := set_log (log po ++ validationLog) po in
  (negb (validated =? 0), po, w).

(** Modelled from the spec: [GLSLCopyState] lives in GLSLCopyState.cpp.  For
    every active uniform of the target program it finds the state of that
    name (creating it when missing), re-resolves its location in the target
    program, and rewrites the value to the GPU if it differs from what the
    target program holds.  The value is the cached one; a state that was
    never set takes the value the source program holds under that name. *)
Definition copyUniform (tgtProgID srcProgID : Z)
    (acc : gmap Z UniformState * World) (name : string)
  : gmap Z UniformState * World :=
  let '(states, w) := acc in
  let key := hashString name in
  let us := default (newUniformState name) (states !! key) in
  let us := SetLocation (drvUniformLocation (calls w) tgtProgID name) us in
  let srcLoc := drvUniformLocation (calls w) srcProgID name in
  let value :=
    match us_value us with
    | Some v => Some v
    | None =>
        if negb (srcProgID =? 0) && negb (srcLoc =? to_int GL_INVALID_INDEX)
        then Some (drvGetUniform (calls w) srcProgID srcLoc)
        else None
    end in
  let us := mkUniformState (us_name us) (us_location us) value in
  let w :=
    match value with
    | Some v =>
        if IsLocationValid us
           && negb (bool_decide
                      (drvGetUniform (calls w) tgtProgID (us_location us) = v))
        then gl (glUniform (writerOf v) (us_location us) v) w
        else w
    | None => w
    end in
  (<[key := us]> states, w).

(** Modelled from the spec: [GLSLCopyState(tgtProgID, srcProgID, &uniformStates)]
    treats the active uniforms of the target program one after the other. *)
Definition GLSLCopyState (tgtProgID srcProgID : Z)
    (states : gmap Z UniformState) (w : World) : gmap Z UniformState * World :=
  fold_left (copyUniform tgtProgID srcProgID)
    (drvActiveUniforms (calls w) tgtProgID) (states, w).

Definition ValidateAndCopyUniforms (tgtProgID srcProgID : Z) (validate : bool)
    (po : ProgramObject) (w : World) : bool * ProgramObject * World :=
  let isValid := valid po in
  let '(isValid, po, w) :=
    if validate then Validate po w else (isValid, po, w) in
  if isValid then
    let '(states, w) := GLSLCopyState tgtProgID srcProgID (uniformStates po) w in
    (true, set_uniformStates states po, w)
  else
    let w :=
      if negb (Str.empty (log po)) then
        LOG_L L_WARNING
          ("[GLSL-PO::ValidateAndCopyUniforms][validation-log (program-object="
             ++ name po ++ ")]" ++ Str.newline ++ log po ++ Str.newline) w
      else w in
    (false, po, w).

Definition Reload (force validate : bool) (po : ProgramObject) (w : World)
  : ProgramObject * World :=
  let _glid := glid po in
  let _hash := hash po in
  let isValid := valid po in
  let useCache := isValid && UseShaderCache w in
  let '(nonEmpty, po, w) :=
    ReloadState (force || negb isValid || (_glid =? 0)) po w in
  if negb nonEmpty then (set_valid false po, w)
  else
    let CachedProg hc := if useCache then Find hc w else 0 in
    (* UpdateProg(hash) *)
    let po := set_glid (CachedProg (hash po)) po in
    let '(updated, po, w) :=
      if negb (glid po =? 0) then (true, po, w) else CreateAndLink po w in
    let '(po, w) :=
      if updated then
        let '(_, po, w) :=
          ValidateAndCopyUniforms (glid po)
            (_glid * (if isValid then 1 else 0)) validate po w in
        (po, w)
      else (po, w) in
    let po := set_valid updated po in
    let '(pushed, w) := if useCache then Push _hash _glid w else (false, w) in
    if useCache && pushed then (po, w)
    else if hash po =? _hash then (po, w)
    else (po, gl (glDeleteProgram _glid) w).

Definition PrintDebugInfo (po : ProgramObject) (w : World) : World := w.

Definition MaybeReload (validate : bool) (po : ProgramObject) (w : World)
  : ProgramObject * World :=
  if HashSet (shaderFlags po) && negb (Updated (shaderFlags po)) then (po, w)
  else
    let '(po, w) := Reload (negb (HashSet (shaderFlags po))) validate po w in
    (po, PrintDebugInfo po w).

Definition Enable (po : ProgramObject) (w : World) : ProgramObject * World :=
  let '(po, w) := MaybeReload true po w in
  let w := gl (glUseProgram (glid po)) w in
  (IProgramObject_Enable po, w).

Definition Disable (po : ProgramObject) (w : World) : ProgramObject * World :=
  let w := gl (glUseProgram 0) w in
  (IProgramObject_Disable po, w).

Definition Link (po : ProgramObject) (w : World) : ProgramObject * World :=
  let '(po, w) := MaybeReload false po w in
  let w := assert (drvIsProgram (calls w) (glid po)) "glIsProgram(glid)" w in
  (po, w).

(** *** Uniform setters *)

(** The body shared by the setters that take a [UniformState*]:
    [assert(IsBound()); if (uState->Set(v)) glUniform(uState->GetLocation(), v);]
    The pointer is the key of a state in [uniformStates]; a pointer to no
    live state has no defined behaviour ([None]). *)
Definition SetUniformVia (fn : UniformFn) (uState : Z) (v : UniformValue)
    (po : ProgramObject) (w : World) : option (ProgramObject * World) :=
  let w := assert (IsBound po) "IsBound()" w in
  match uniformStates po !! uState with
  | None => None
  | Some us =>
      let '(write, us) := UniformState_Set v us in
      let po := set_uniformStates (<[uState := us]> (uniformStates po)) po in
      Some (po, if write then gl (glUniform fn (GetLocation us) v) w else w)
  end.

(** The body shared by the setters that take an index into [uniformLocs]:
    [assert(IsBound()); auto it = uniformStates.find(uniformLocs[idx]);
     if (it != uniformStates.end() && it->second.Set(v)) glUniform(...);]
    An index outside [uniformLocs] has no defined behaviour ([None]). *)
Definition SetUniformAt (fn : UniformFn) (idx : Z) (v : UniformValue)
    (po : ProgramObject) (w : World) : option (ProgramObject * World) :=
  let w := assert (IsBound po) "IsBound()" w in
  if idx <? 0 then None
  else
    match uniformLocs po !! Z.to_nat idx with
    | None => None
    | Some key =>
        match uniformStates po !! key with
        | None => Some (po, w)
        | Some us =>
            let '(write, us) := UniformState_Set v us in
            let po := set_uniformStates (<[key := us]> (uniformStates po)) po in
            Some (po, if write then gl (glUniform fn (GetLocation us) v) w else w)
        end
    end.

(** The overloads of [SetUniform(UniformState*, ...)], told apart by a suffix.
    An array argument is the list of the elements it points to. *)
Definition SetUniform_1i u (v0 : Z) := SetUniformVia Uniform1i u (IntVec [v0]).
Definition SetUniform_1f u (v0 : GLfloat) := SetUniformVia Uniform1f u (FltVec [v0]).
Definition SetUniform_2i u (v0 v1 : Z) := SetUniformVia Uniform2i u (IntVec [v0; v1]).
Definition SetUniform_2f u (v0 v1 : GLfloat) :=
  SetUniformVia Uniform2f u (FltVec [v0; v1]).
Definition SetUniform_3i u (v0 v1 v2 : Z) :=
  SetUniformVia Uniform3i u (IntVec [v0; v1; v2]).
Definition SetUniform_3f u (v0 v1 v2 : GLfloat) :=
  SetUniformVia Uniform3f u (FltVec [v0; v1; v2]).
Definition SetUniform_4i u (v0 v1 v2 v3 : Z) :=
  SetUniformVia Uniform4i u (IntVec [v0; v1; v2; v3]).
Definition SetUniform_4f u (v0 v1 v2 v3 : GLfloat) :=
  SetUniformVia Uniform4f u (FltVec [v0; v1; v2; v3]).

Definition SetUniform2v_i u (v : list Z) := SetUniformVia Uniform2iv u (IntVec (take 2 v)).
Definition SetUniform2v_f u (v : list GLfloat) :=
  SetUniformVia Uniform2fv u (FltVec (take 2 v)).
Definition SetUniform3v_i u (v : list Z) := SetUniformVia Uniform3iv u (IntVec (take 3 v)).
Definition SetUniform3v_f u (v : list GLfloat) :=
  SetUniformVia Uniform3fv u (FltVec (take 3 v)).
Definition SetUniform4v_i u (v : list Z) := SetUniformVia Uniform4iv u (IntVec (take 4 v)).
Definition SetUniform4v_f u (v : list GLfloat) :=
  SetUniformVia Uniform4fv u (FltVec (take 4 v)).

Definition SetUniformMatrix2x2 u (transp : bool) (v : list GLfloat) :=
  SetUniformVia UniformMatrix2fv u (Matrix 2 transp (take 4 v)).
Definition SetUniformMatrix3x3 u (transp : bool) (v : list GLfloat) :=
  SetUniformVia UniformMatrix3fv u (Matrix 3 transp (take 9 v)).
Definition SetUniformMatrix4x4 u (transp : bool) (v : list GLfloat) :=
  SetUniformVia UniformMatrix4fv u (Matrix 4 transp (take 16 v)).

Definition SetUniform1i idx (v0 : Z) := SetUniformAt Uniform1i idx (IntVec [v0]).
Definition SetUniform2i idx (v0 v1 : Z) := SetUniformAt Uniform2i idx (IntVec [v0; v1]).
Definition SetUniform3i idx (v0 v1 v2 : Z) :=
  SetUniformAt Uniform3i idx (IntVec [v0; v1; v2]).
Definition SetUniform4i idx (v0 v1 v2 v3 : Z) :=
  SetUniformAt Uniform4i idx (IntVec [v0; v1; v2; v3]).
Definition SetUniform1f idx (v0 : GLfloat) := SetUniformAt Uniform1f idx (FltVec [v0]).
Definition SetUniform2f idx (v0 v1 : GLfloat) :=
  SetUniformAt Uniform2f idx (FltVec [v0; v1]).
Definition SetUniform3f idx (v0 v1 v2 : GLfloat) :=
  SetUniformAt Uniform3f idx (FltVec [v0; v1; v2]).
Definition SetUniform4f idx (v0 v1 v2 v3 : GLfloat) :=
  SetUniformAt Uniform4f idx (FltVec [v0; v1; v2; v3]).

Definition SetUniform2iv idx (v : list Z) := SetUniformAt Uniform2iv idx (IntVec (take 2 v)).
Definition SetUniform3iv idx (v : list Z) := SetUniformAt Uniform3iv idx (IntVec (take 3 v)).
Definition SetUniform4iv idx (v : list Z) := SetUniformAt Uniform4iv idx (IntVec (take 4 v)).
Definition SetUniform2fv idx (v : list GLfloat) :=
  SetUniformAt Uniform2fv idx (FltVec (take 2 v)).
Definition SetUniform3fv idx (v : list GLfloat) :=
  SetUniformAt Uniform3fv idx (FltVec (take 3 v)).
Definition SetUniform4fv idx (v : list GLfloat) :=
  SetUniformAt Uniform4fv idx (FltVec (take 4 v)).

Definition SetUniformMatrix2fv idx (transp : bool) (v : list GLfloat) :=
  SetUniformAt UniformMatrix2fv idx (Matrix 2 transp (take 4 v)).
Definition SetUniformMatrix3fv idx (transp : bool) (v : list GLfloat) :=
  SetUniformAt UniformMatrix3fv idx (Matrix 3 transp (take 9 v)).
Definition SetUniformMatrix4fv idx (transp : bool) (v : list GLfloat) :=
  SetUniformAt UniformMatrix4fv idx (Matrix 4 transp (take 16 v)).

(** Number of uniform writes among the calls made so far. *)
Definition isUniformWrite (c : GLCall) : bool :=
  match c with glUniform _ _ _ => true | _ => false end.

Definition uniformWrites (w : World) : nat :=
  length (List.filter isUniformWrite (calls w)).

(** Number of shader compilations among the calls made so far. *)
Definition isCompile (c : GLCall) : bool :=
  match c with glCompileShader _ => true | _ => false end.

Definition compilations (w : World) : nat :=
  length (List.filter isCompile (calls w)).

End Shader.

(** ** Spec-side definitions used to state the theorems *)

(** The text of [s] from its first [#version ] through the end of that line
    (or the end of [s]), and [s] without that text. *)
Definition directiveLine (s : string) : string :=
  match Str.index_of "#version " s with
  | None => ""
  | Some p =>
      let rest := Str.drop p s in
      match Str.index_of_char (ascii_of_nat 10) rest with
      | Some k => Str.take (S k) rest
      | None => rest
      end
  end.

Definition withoutDirective (s : string) : string :=
  match Str.index_of "#version " s with
  | None => s
  | Some p =>
      let rest := Str.drop p s in
      match Str.index_of_char (ascii_of_nat 10) rest with
      | Some k => Str.take p s ++ Str.drop (S k) rest
      | None => Str.take p s
      end
  end.

(** The source a shader object resolves to, in the words of the spec: the
    descriptor itself when it holds the function-main marker, else the file
    [shaders/<descriptor>], else nothing. *)
Definition resolvedSource (descriptor : string) (w : World) : string :=
  if Str.contains descriptor "void main()" then descriptor
  else match vfs w !! ("shaders/" ++ descriptor) with
       | Some text => text
       | None => ""
       end.

Definition sourceMissing (descriptor : string) (w : World) : bool :=
  negb (Str.contains descriptor "void main()")
  && bool_decide (vfs w !! ("shaders/" ++ descriptor) = None).

(** The three members of a shader object that its hash is computed from. *)
Definition hashedContent (so : IShaderObject) : string * string * string :=
  (srcText so, modDefStrs so, rawDefStrs so).

(** The cached value of the uniform stored under [key], if it was ever set. *)
Definition cachedValue (key : Z) (po : ProgramObject) : option UniformValue :=
  uniformStates po !! key ≫= us_value.

(** The set-if-changed contract of a setter [setter] for the uniform state
    [us] stored under [key], written through the entry point [fn]:
    the call records [v]; it writes exactly when [v] differs from the value
    recorded before and the location is resolved; repeating the call changes
    nothing; a call with another value records that value and writes it when
    the location is resolved. *)
Definition setIfChanged
    (setter : UniformValue → ProgramObject → World → option (ProgramObject * World))
    (fn : UniformFn) (key : Z) (us : UniformState)
    (v : UniformValue) (po : ProgramObject) (w : World) : Prop :=
  ∃ po1 w1,
    setter v po w = Some (po1, w1)
    ∧ cachedValue key po1 = Some v
    ∧ calls w1
      = (if bool_decide (us_value us = Some v) then calls w
         else if IsLocationValid us
              then glUniform fn (us_location us) v :: calls w
              else calls w)
    ∧ setter v po1 w1 = Some (po1, w1)
    ∧ ∀ v', v' ≠ v →
        ∃ po2 w2,
          setter v' po1 w1 = Some (po2, w2)
          ∧ cachedValue key po2 = Some v'
          ∧ calls w2
            = (if IsLocationValid us
               then glUniform fn (us_location us) v' :: calls w1
               else calls w1).

(** A shader object fails to compile on a platform when, whatever was done
    before, compiling its assembled source leaves the status at zero. *)
Definition failsToCompile `{Platform} (so : IShaderObject) : Prop :=
  ∀ (programLog : string) (w : World),
    cso_valid (CreateAndCompileShaderObject so programLog w).1.1 = false.

(** The driver reports something for a shader object that fails. *)
Definition reportsOnFailure `{Platform} (so : IShaderObject) : Prop :=
  ∀ (programLog : string) (w : World),
    Str.size programLog
    < Str.size (CreateAndCompileShaderObject so programLog w).1.2.

(** Every value recorded in [m] is still recorded, under the same key and
    name, in [m']. *)
Definition keepsValues (m m' : gmap Z UniformState) : Prop :=
  ∀ key us v, m !! key = Some us → us_value us = Some v →
    ∃ us', m' !! key = Some us' ∧ us_value us' = Some v ∧ us_name us' = us_name us.

(** What linking, validating and copying leave alone: everything but the
    handle, the log, the validity flag, and the locations and never-set
    values of the uniform states. *)
Record framed (po po' : ProgramObject) : Prop := mkFramed {
  fr_name : name po' = name po;
  fr_hash : hash po' = hash po;
  fr_bound : bound po' = bound po;
  fr_objs : shaderObjs po' = shaderObjs po;
  fr_flags : shaderFlags po' = shaderFlags po;
  fr_locs : uniformLocs po' = uniformLocs po;
  fr_states : keepsValues (uniformStates po) (uniformStates po')
}.

(** ** A concrete platform and a concrete program *)

Module Demo.

Fixpoint mix (data : string) (h : Z) : Z :=
  match data with
  | EmptyString => h
  | String c rest => mix rest ((h * 33 + Z.of_nat (nat_of_ascii c)) mod 2 ^ 32)
  end.

Fixpoint endsWith (s suffix : string) : bool :=
  String.eqb s suffix
  || match s with
     | EmptyString => false
     | String _ s' => endsWith s' suffix
     end.

(** The source most recently given to a shader handle. *)
Fixpoint sourceOf (shader : Z) (tr : Trace) : option (list string) :=
  match tr with
  | [] => None
  | glShaderSource s srcs :: tr' =>
      if s =? shader then Some srcs else sourceOf shader tr'
  | _ :: tr' => sourceOf shader tr'
  end.

Definition compiles (shader : Z) (tr : Trace) : bool :=
  match sourceOf shader tr with
  | Some srcs => negb (Str.contains (Str.concat srcs) "#error")
  | None => false
  end.

(** Handles are handed out in sequence; a source holding [#error] does not
    compile; every program links and validates; the only active uniform is
    [color], at location 3. *)
#[export] Instance platform : Platform := {|
  HsiehHash := mix;
  hashString s := mix s 5381;
  EnsureEndsWith s suffix := if endsWith s suffix then s else s ++ suffix;
  flagsHash s := mix s 17;
  movedFromId _ := 0;
  drvCreateProgram tr := Z.of_nat (length tr) + 1;
  drvCreateShader tr _ := Z.of_nat (length tr) + 1;
  drvIsShader tr obj := bool_decide (sourceOf obj tr ≠ None);
  drvIsProgram tr obj := (0 <? obj) && bool_decide (sourceOf obj tr = None);
  drvCompileStatus tr obj := if compiles obj tr then 1 else 0;
  drvLinkStatus _ _ := 1;
  drvValidateStatus _ _ := 1;
  drvShaderInfoLog tr obj := if compiles obj tr then "" else "0:1: #error";
  drvProgramInfoLog _ _ := "";
  drvActiveUniforms _ _ := ["color"];
  drvUniformLocation _ _ name := if String.eqb name "color" then 3 else -1;
  drvGetUniform _ _ _ := FltVec []
|}.

(** The world right after the constructor of the program object ran. *)
Definition world : World := mkWorld ∅ true ∅ [glCreateProgram] [].

Definition one : GLfloat := 1065353216.

Definition color : UniformState :=
  mkUniformState "color" 3 (Some (FltVec [one; 0; 0])).

Definition unusedUniform : UniformState :=
  mkUniformState "$UNUSED$" (-1) None.

Definition goodSource : string := "void main() { gl_Position = vec4(0.0); }".

Definition badSource : string :=
  "void main() {" ++ Str.newline ++ "#error" ++ Str.newline ++ "}".

(** Shader objects given as inline text, as they are once loaded. *)
Definition goodShader : IShaderObject :=
  mkShaderObject 35633 goodSource goodSource "#define TREE_SHADOW" "".

Definition badShader : IShaderObject :=
  mkShaderObject 35633 badSource badSource "" "".

(** A shader object with a version directive in its source and another in
    its definitions. *)
Definition versionedShader : IShaderObject :=
  mkShaderObject 35633 "GLSL/TreeVertProg.glsl"
    ("#version 120" ++ Str.newline ++ goodSource)
    "#define TREE_SHADOW"
    ("#version 130" ++ Str.newline ++ "#define TREE_BASIC").

Definition otherShader : IShaderObject :=
  mkShaderObject 35632 "GLSL/TreeFragProg.glsl" goodSource "#define TREE_SHADOW" "".

Definition newProgram (sos : list IShaderObject) : ProgramObject :=
  mkProgram "treeDefShaderGLSL" 1 0 false false
    (<[hashString "color" := color]> ∅) sos ∅ ""
    (mkShaderFlags "" false false) [hashString "color"; hashString "$UNUSED$"].

Definition boundProgram : ProgramObject :=
  mkProgram "treeDefShaderGLSL" 1 0 true true
    (<[hashString "$UNUSED$" := unusedUniform]> (<[hashString "color" := color]> ∅))
    [goodShader] ∅ ""
    (mkShaderFlags "" true false) [hashString "color"; hashString "$UNUSED$"; 12345].

End Demo.

(** ** More of Shader.cpp and its caller *)

Section ShaderRest.
Context `{Platform}.

(** [IProgramObject::Release(deleteShaderObjs)].  The flag only decides
    whether the shader objects are freed before the list is cleared; the
    members end up the same either way.  [uniformLocs] and the flag set are
    not touched here. *)
Definition IProgramObject_Release (deleteShaderObjs : bool) (po : ProgramObject)
  : ProgramObject :=
  mkProgram (name po) 0 0 false false ∅ [] ∅ "" (shaderFlags po) (uniformLocs po).

(** [GLSLProgramObject::Release(deleteShaderObjs)].  [shaderFlags.Clear()] is
    declared outside this file and is taken as the parameter [Clear]. *)
Definition Release (Clear : ShaderFlags → ShaderFlags) (deleteShaderObjs : bool)
    (po : ProgramObject) (w : World) : ProgramObject * World :=
  let _glid := glid po in
  let po := IProgramObject_Release deleteShaderObjs po in
  let w := gl (glDeleteProgram _glid) w in
  (set_shaderFlags (Clear (shaderFlags po)) po, w).

(** A run of [SetUniformLocation] calls on one program, in the order given. *)
Definition registerUniforms (names : list string) (po : ProgramObject) (w : World)
  : ProgramObject :=
  fold_left (λ po name, SetUniformLocation name po w) names po.

End ShaderRest.

(** *** CAdvTreeDrawer::LoadTreeShaders (rts/Rendering/Env/AdvTreeDrawer.cpp) *)

Definition uniformNamesNDNA : list string :=
  [ "cameraDirX"; "cameraDirY"; "treeOffset"; "groundAmbientColor";
    "groundDiffuseColor"; "alphaModifiers" ].

Definition uniformNamesNADA : list string :=
  [ "shadowMatrix"; "shadowParams"; "groundShadowDensity"; "shadowTex";
    "diffuseTex" ].

(** The three registration steps of [LoadTreeShaders] on the basic program
    [tpb] and the shadow program [tps]: the shared names, then index 6, then
    the shadow-only names. *)
Definition registerTreeUniforms `{Platform} (tpb tps : ProgramObject) (w : World)
  : ProgramObject * ProgramObject :=
  let '(tpb, tps) :=
    fold_left (λ '(tpb, tps) name,
                 (SetUniformLocation name tpb w, SetUniformLocation name tps w))
      uniformNamesNDNA (tpb, tps) in
  let tpb := SetUniformLocation "invMapSizePO2" tpb w in
  let tps := SetUniformLocation "$UNUSED$" tps w in
  fold_left (λ '(tpb, tps) name,
               (SetUniformLocation "$UNUSED$" tpb w, SetUniformLocation name tps w))
    uniformNamesNADA (tpb, tps).

(** ** Counting and framing the calls into the driver *)

Definition countCalls (p : GLCall → bool) (w : World) : nat :=
  length (List.filter p (calls w)).

Definition isCreateProgram (c : GLCall) : bool :=
  match c with glCreateProgram => true | _ => false end.
Definition isCreateShader (c : GLCall) : bool :=
  match c with glCreateShader _ => true | _ => false end.
Definition isDeleteShader (c : GLCall) : bool :=
  match c with glDeleteShader _ => true | _ => false end.
Definition isAttach (c : GLCall) : bool :=
  match c with glAttachShader _ _ => true | _ => false end.
Definition isLink (c : GLCall) : bool :=
  match c with glLinkProgram _ => true | _ => false end.
Definition isValidateCall (c : GLCall) : bool :=
  match c with glValidateProgram _ => true | _ => false end.
Definition isDeleteProgram (c : GLCall) : bool :=
  match c with glDeleteProgram _ => true | _ => false end.

(** [w'] is [w] after more driver calls, all of which satisfy [p]; files,
    configuration and cache are those of [w]. *)
Definition extendsBy (p : GLCall → bool) (w w' : World) : Prop :=
  vfs w' = vfs w ∧ UseShaderCache w' = UseShaderCache w
  ∧ shaderCache w' = shaderCache w
  ∧ ∃ added : list GLCall,
      calls w' = (added ++ calls w)%list ∧ forallb p added = true.

Definition anyCall (c : GLCall) : bool := true.

(** Calls that belong to building a program: creating it, and creating,
    compiling, attaching and linking shaders. *)
Definition isBuildCall (c : GLCall) : bool :=
  isCreateProgram c || isCreateShader c || isCompile c || isAttach c || isLink c
  || match c with glShaderSource _ _ => true | _ => false end.

Definition notBuildCall (c : GLCall) : bool := negb (isBuildCall c).

(** The hash [RecalculateShaderHash] computes from a flag hash and a list of
    shader objects. *)
Definition combinedHash `{Platform} (flags : Z) (sos : list IShaderObject) : Z :=
  fold_left (λ h so, Z.lxor h (GetHash so)) sos flags.



(** Every uniform state has the not-found location. *)
Definition allUnresolved (m : gmap Z UniformState) : Prop :=
  ∀ key us, m !! key = Some us → IsLocationValid us = false.

(** A second concrete platform: the one of [Demo], on a driver whose
    validation never passes. *)
Module DemoNoValidate.

#[export] Instance platform : Platform := {|
  HsiehHash := Demo.mix;
  hashString s := Demo.mix s 5381;
  EnsureEndsWith s suffix := if Demo.endsWith s suffix then s else s ++ suffix;
  flagsHash s := Demo.mix s 17;
  movedFromId _ := 0;
  drvCreateProgram tr := Z.of_nat (length tr) + 1;
  drvCreateShader tr _ := Z.of_nat (length tr) + 1;
  drvIsShader tr obj := bool_decide (Demo.sourceOf obj tr ≠ None);
  drvIsProgram tr obj := (0 <? obj) && bool_decide (Demo.sourceOf obj tr = None);
  drvCompileStatus tr obj := if Demo.compiles obj tr then 1 else 0;
  drvLinkStatus _ _ := 1;
  drvValidateStatus _ _ := 0;
  drvShaderInfoLog tr obj := if Demo.compiles obj tr then "" else "0:1: #error";
  drvProgramInfoLog _ _ := "";
  drvActiveUniforms _ _ := ["color"];
  drvUniformLocation _ _ name := if String.eqb name "color" then 3 else -1;
  drvGetUniform _ _ _ := FltVec []
|}.

Definition program : ProgramObject :=
  mkProgram "treeDefShaderGLSL" 1 0 true false
    (<[hashString "color" := Demo.color]> ∅) [Demo.goodShader] ∅ ""
    (mkShaderFlags "" true true) [hashString "color"].

End DemoNoValidate.

(** A third concrete platform: the one of [Demo], on a driver that hands
    out no program handle. *)
Module DemoNoContext.

#[export] Instance platform : Platform := {|
  HsiehHash := Demo.mix;
  hashString s := Demo.mix s 5381;
  EnsureEndsWith s suffix := if Demo.endsWith s suffix then s else s ++ suffix;
  flagsHash s := Demo.mix s 17;
  movedFromId _ := 0;
  drvCreateProgram _ := 0;
  drvCreateShader tr _ := Z.of_nat (length tr) + 1;
  drvIsShader tr obj := bool_decide (Demo.sourceOf obj tr ≠ None);
  drvIsProgram tr obj := (0 <? obj) && bool_decide (Demo.sourceOf obj tr = None);
  drvCompileStatus tr obj := if Demo.compiles obj tr then 1 else 0;
  drvLinkStatus _ _ := 1;
  drvValidateStatus _ _ := 1;
  drvShaderInfoLog tr obj := if Demo.compiles obj tr then "" else "0:1: #error";
  drvProgramInfoLog _ _ := "";
  drvActiveUniforms _ _ := ["color"];
  drvUniformLocation _ _ name := if String.eqb name "color" then 3 else -1;
  drvGetUniform _ _ _ := FltVec []
|}.

End DemoNoContext.

(** More shader objects, programs and worlds on the platform of [Demo]. *)
Module DemoMore.
Import Demo.

Definition sourceVersionShader : IShaderObject :=
  mkShaderObject 35633 "GLSL/TreeVertProg.glsl"
    ("#version 120" ++ Str.newline ++ goodSource) "#define TREE_SHADOW" "".

Definition directiveOnlyShader : IShaderObject :=
  mkShaderObject 35633 "#version 120" "#version 120" "#define TREE_SHADOW" "".

Definition fileShader : IShaderObject :=
  mkShaderObject 35633 "GLSL/TreeVertProg.glsl" "" "#define TREE_SHADOW" "".

Definition linkedProgram : ProgramObject :=
  mkProgram "treeDefShaderGLSL" 1 0 true false
    (<[hashString "color" := color]> ∅) [fileShader] ∅ ""
    (mkShaderFlags "" true true) [hashString "color"].

Definition diskWorld : World :=
  mkWorld (<["shaders/GLSL/TreeVertProg.glsl" := goodSource]> ∅) true ∅
    [glCreateProgram] [].

Definition cachedWorld : World :=
  mkWorld ∅ true
    (<[hash (ReloadState false boundProgram world).1.2 := 7]> ∅)
    [glCreateProgram] [].

Definition freshProgram (sos : list IShaderObject) : ProgramObject :=
  mkProgram "treeDefShaderGLSL" 0 0 false false ∅ sos ∅ ""
    (mkShaderFlags "" false false) [].

End DemoMore.

(** * Properties *)

(** ** Facts about strings *)

Module StrFacts.
Import Str.

Lemma npos_value : npos = 18446744073709551615.
Proof. reflexivity. Qed.

Lemma length_drop n s : String.length (drop n s) = (String.length s - n)%nat.
Proof.
  revert s. induction n as [|n IH]; intros [|c s]; simpl; try reflexivity.
  apply IH.
Qed.

Lemma length_take n s :
  String.length (take n s) = Nat.min n (String.length s).
Proof.
  revert s. induction n as [|n IH]; intros [|c s]; simpl; try reflexivity.
  f_equal. apply IH.
Qed.

Lemma take_all n s : (String.length s ≤ n)%nat → take n s = s.
Proof.
  revert s. induction n as [|n IH]; intros [|c s] Hle; simpl in *;
    try reflexivity; try lia.
  f_equal. apply IH. lia.
Qed.

Lemma drop_all n s : (String.length s ≤ n)%nat → drop n s = "".
Proof.
  revert s. induction n as [|n IH]; intros [|c s] Hle; simpl in *;
    try reflexivity; try lia.
  apply IH. lia.
Qed.

Lemma append_cons c (s t : string) : String c s ++ t = String c (s ++ t).
Proof. reflexivity. Qed.

Lemma append_nil (t : string) : "" ++ t = t.
Proof. reflexivity. Qed.

Lemma take_drop n s : take n s ++ drop n s = s.
Proof.
  revert s. induction n as [|n IH]; intros [|c s]; simpl; try reflexivity.
  rewrite append_cons. f_equal. apply IH.
Qed.

Lemma append_empty_r (s : string) : s ++ "" = s.
Proof.
  induction s as [|c s IH]; [reflexivity|]. by rewrite append_cons, IH.
Qed.

Lemma index_of_unfold pat s :
  index_of pat s
  = if String.prefix pat s then Some 0%nat
    else match s with
         | EmptyString => None
         | String _ s' => S <$> index_of pat s'
         end.
Proof. destruct s; reflexivity. Qed.

Lemma index_of_le pat s p :
  index_of pat s = Some p → (p ≤ String.length s)%nat.
Proof.
  revert p. induction s as [|c s IH]; intros p; rewrite index_of_unfold;
    destruct (String.prefix pat _); intros ?; simplify_eq; try lia.
  destruct (index_of pat s) as [q|]; simplify_eq/=.
  specialize (IH q eq_refl). lia.
Qed.

Lemma index_of_prefix pat s p :
  index_of pat s = Some p → String.prefix pat (drop p s) = true.
Proof.
  revert p. induction s as [|c s IH]; intros p; rewrite index_of_unfold;
    destruct (String.prefix pat _) eqn:E; intros ?; simplify_eq; try done.
  destruct (index_of pat s) as [q|]; simplify_eq/=. by apply IH.
Qed.

Lemma index_of_char_lt c s k :
  index_of_char c s = Some k → (k < String.length s)%nat.
Proof.
  revert k. induction s as [|a s IH]; intros k; simpl; [done|].
  destruct (Ascii.eqb a c); [intros ?; simplify_eq; lia|].
  destruct (index_of_char c s) as [q|]; simpl; [|done].
  intros ?; simplify_eq. specialize (IH q eq_refl). lia.
Qed.

Lemma index_of_char_app c a b : is_Some (index_of_char c (a ++ String c b)).
Proof.
  induction a as [|x a IH].
  - rewrite append_nil. simpl. rewrite Ascii.eqb_refl. by eexists.
  - rewrite append_cons. simpl. destruct (Ascii.eqb x c); [by eexists|].
    destruct IH as [k ->]. by eexists.
Qed.

Lemma prefix_nonempty c pat s :
  String.prefix (String c pat) s = true → empty s = false.
Proof. destruct s; simpl; [done | reflexivity]. Qed.

Lemma empty_take_S k s : empty s = false → empty (take (S k) s) = false.
Proof. destruct s; simpl; [done | reflexivity]. Qed.

Lemma prefix_take pat s k :
  (String.length pat ≤ k)%nat →
  String.prefix pat s = true → String.prefix pat (take k s) = true.
Proof.
  revert s k. induction pat as [|c pat IH]; intros s k Hk Hp; simpl in *.
  - by destruct (take k s).
  - destruct s as [|a s]; [done|]. destruct k as [|k]; [lia|].
    simpl in Hp |- *.
    destruct (ascii_dec c a); [|done]. apply IH; [lia | done].
Qed.

End StrFacts.

Section Properties.
Context `{Platform}.

(** ** Shader objects *)

(** X21: the hash of a shader object depends on its source text, its
    modifiable definitions and its raw definitions and on nothing else: it is
    HsiehHash chained over these three strings, in this order, from the seed
    127, so two objects that agree on them have the same hash whatever their
    type and descriptor.  Two objects that differ in one of the three strings
    and still have the same hash exhibit a collision of HsiehHash at one of
    the three stages of their own chains. *)
Theorem GetHash_content_only (so1 so2 : IShaderObject) :
  let g1 := HsiehHash (srcText so1) 127 in
  let g2 := HsiehHash (srcText so2) 127 in
  let h1 := HsiehHash (modDefStrs so1) g1 in
  let h2 := HsiehHash (modDefStrs so2) g2 in
  (hashedContent so1 = hashedContent so2 → GetHash so1 = GetHash so2)
  ∧ GetHash so1 = HsiehHash (rawDefStrs so1) h1
  ∧ (hashedContent so1 ≠ hashedContent so2 → GetHash so1 = GetHash so2 →
     (srcText so1 ≠ srcText so2 ∧ g1 = g2)
     ∨ ((modDefStrs so1, g1) ≠ (modDefStrs so2, g2) ∧ h1 = h2)
     ∨ ((rawDefStrs so1, h1) ≠ (rawDefStrs so2, h2)
        ∧ HsiehHash (rawDefStrs so1) h1 = HsiehHash (rawDefStrs so2) h2)).
Proof.
  unfold hashedContent, GetHash. cbv zeta.
  split; [intros Heq; injection Heq as -> -> ->; reflexivity|].
  split; [reflexivity|].
  intros Hne Hcoll.
  set (g1 := HsiehHash (srcText so1) 127) in *.
  set (g2 := HsiehHash (srcText so2) 127) in *.
  set (h1 := HsiehHash (modDefStrs so1) g1) in *.
  set (h2 := HsiehHash (modDefStrs so2) g2) in *.
  destruct (decide ((rawDefStrs so1, h1) = (rawDefStrs so2, h2))) as [Er|Nr].
  2:{ right. right. by split. }
  destruct (decide ((modDefStrs so1, g1) = (modDefStrs so2, g2))) as [Em|Nm].
  2:{ right. left. split; [done|]. by simplify_eq. }
  left. split.
  - intros Es. simplify_eq. apply Hne. congruence.
  - by simplify_eq.
Qed.

Lemma contains_find (s pat : string) :
  Str.contains s pat = negb (Str.find s pat =? Str.npos).
Proof. reflexivity. Qed.

Lemma GetShaderSource_resolved (descriptor : string) (w : World) :
  (GetShaderSource descriptor w).1 = resolvedSource descriptor w.
Proof.
  unfold GetShaderSource, resolvedSource. rewrite contains_find.
  destruct (negb _); [reflexivity|].
  destruct (vfs w !! _); reflexivity.
Qed.

Lemma GetShaderSource_world (descriptor : string) (w : World) :
  (GetShaderSource descriptor w).2
  = if sourceMissing descriptor w then
      LOG_L L_ERROR
        ("[GetShaderSource] file " ++ Str.dquote ++ ("shaders/" ++ descriptor)
           ++ Str.dquote ++ " not found") w
    else w.
Proof.
  unfold GetShaderSource, sourceMissing. rewrite contains_find.
  destruct (negb _); [reflexivity|]. simpl.
  destruct (vfs w !! _) eqn:E; simpl.
  - reflexivity.
  - reflexivity.
Qed.

(** C9: the source is resolved as the spec words it ([resolvedSource]): the
    descriptor itself when it holds the marker, else the file under shaders/,
    else the empty string together with one error line; the call returns true
    exactly when the resolved text differs from the stored one, and the
    stored text is the resolved text afterwards. *)
Theorem ReloadFromTextOrFile_resolves (so : IShaderObject) (w : World) :
  let '(changed, so', w') := ReloadFromTextOrFile so w in
  (changed = true ↔ resolvedSource (srcData so) w ≠ srcText so)
  ∧ so' = set_srcText (resolvedSource (srcData so) w) so
  ∧ w' = (if sourceMissing (srcData so) w then
            LOG_L L_ERROR
              ("[GetShaderSource] file " ++ Str.dquote
                 ++ ("shaders/" ++ srcData so) ++ Str.dquote ++ " not found") w
          else w)
  ∧ (sourceMissing (srcData so) w = true → resolvedSource (srcData so) w = "").
Proof.
  unfold ReloadFromTextOrFile.
  pose proof (GetShaderSource_resolved (srcData so) w) as Hr.
  pose proof (GetShaderSource_world (srcData so) w) as Hw.
  destruct (GetShaderSource (srcData so) w) as [newText w1]. simpl in Hr, Hw.
  subst newText w1.
  assert (Hmiss : sourceMissing (srcData so) w = true
                  → resolvedSource (srcData so) w = "").
  { unfold sourceMissing, resolvedSource. intros Hm.
    apply andb_true_iff in Hm as [Hc Hf].
    apply negb_true_iff in Hc. rewrite Hc.
    apply bool_decide_eq_true_1 in Hf. rewrite Hf. reflexivity. }
  destruct (String.eqb (resolvedSource (srcData so) w) (srcText so)) eqn:E; simpl.
  - apply String.eqb_eq in E. split; [|split; [|split]].
    + split; [done | intros Hne; destruct (Hne E)].
    + rewrite E. destruct so; reflexivity.
    + reflexivity.
    + exact Hmiss.
  - apply String.eqb_neq in E. split; [|split; [|split]]; done.
Qed.

Import StrFacts.

Lemma ExtractVersionDirective_found (s v : string) (p : nat) :
  Str.size s < Str.npos →
  Str.index_of "#version " s = Some p →
  (p = 0%nat → is_Some (Str.index_of_char (ascii_of_nat 10) s)) →
  ExtractVersionDirective s v = (true, withoutDirective s, directiveLine s).
Proof.
  intros Hsize Hidx Hzero.
  pose proof (index_of_le _ _ _ Hidx) as Hle.
  pose proof (length_drop p s) as Hld.
  unfold ExtractVersionDirective, withoutDirective, directiveLine, Str.find.
  cbv zeta. rewrite Hidx. cbn [Str.of_offset].
  unfold Str.size in Hsize. rewrite npos_value in Hsize.
  replace (Z.of_nat p =? Str.npos) with false
    by (symmetry; rewrite npos_value; lia).
  cbn [negb].
  assert (Hn : Str.wrap (Str.wrap (Str.find_char s (ascii_of_nat 10) (Z.of_nat p) + 1)
                         - Z.of_nat p)
               = match Str.index_of_char (ascii_of_nat 10) (Str.drop p s) with
                 | Some k => Z.of_nat (S k)
                 | None => 2 ^ 64 - Z.of_nat p
                 end).
  { unfold Str.find_char, Str.size.
    replace (Z.of_nat (String.length s) <? Z.of_nat p) with false
      by (symmetry; lia).
    rewrite Nat2Z.id.
    destruct (Str.index_of_char (ascii_of_nat 10) (Str.drop p s)) as [k|] eqn:Hnl.
    - pose proof (index_of_char_lt _ _ _ Hnl) as Hk.
      cbn [fmap option_fmap option_map Str.of_offset]. unfold Str.wrap.
      rewrite (Z.mod_small (Z.of_nat (p + k) + 1)) by lia.
      rewrite Z.mod_small by lia. lia.
    - cbn [fmap option_fmap option_map Str.of_offset]. rewrite npos_value.
      unfold Str.wrap.
      change ((18446744073709551615 + 1) mod 2 ^ 64) with 0.
      destruct p as [|p'].
      { destruct (Hzero eq_refl) as [k Hk]. simpl in Hnl. congruence. }
      symmetry. apply Z.mod_unique with (q := -1); lia. }
  rewrite Hn. unfold Str.substr, Str.erase, Str.size. rewrite !Nat2Z.id.
  destruct (Str.index_of_char (ascii_of_nat 10) (Str.drop p s)) as [k|] eqn:Hnl.
  - pose proof (index_of_char_lt _ _ _ Hnl) as Hk.
    rewrite Z.min_l by lia. rewrite Nat2Z.id. reflexivity.
  - rewrite Z.min_r by lia.
    replace (Z.to_nat (Z.of_nat (String.length s) - Z.of_nat p))
      with (String.length s - p)%nat by lia.
    rewrite (take_all _ (Str.drop p s)) by (rewrite Hld; lia).
    rewrite (drop_all _ (Str.drop p s)) by (rewrite Hld; lia).
    rewrite append_empty_r. reflexivity.
Qed.


Lemma index_of_char_past_prefix c pat s k :
  String.prefix pat s = true →
  Str.index_of_char c pat = None →
  Str.index_of_char c s = Some k → (String.length pat ≤ k)%nat.
Proof.
  revert s k. induction pat as [|a pat IH]; intros s k Hp Hc Hk; simpl; [lia|].
  destruct s as [|b s]; [done|]. simpl in Hp, Hc, Hk.
  destruct (ascii_dec a b) as [->|]; [|done].
  destruct (Ascii.eqb b c); [done|].
  destruct (Str.index_of_char c pat) eqn:Ec; [done|].
  destruct (Str.index_of_char c s) as [q|] eqn:Es; simplify_eq/=.
  specialize (IH s q Hp eq_refl Es). lia.
Qed.

Lemma directiveLine_prefix (s : string) (p : nat) :
  Str.index_of "#version " s = Some p →
  String.prefix "#version " (directiveLine s) = true.
Proof.
  intros Hidx. unfold directiveLine. rewrite Hidx.
  pose proof (index_of_prefix _ _ _ Hidx) as Hp.
  destruct (Str.index_of_char _ _) as [k|] eqn:Hk; [|exact Hp].
  apply prefix_take; [|exact Hp].
  pose proof (index_of_char_past_prefix (ascii_of_nat 10) _ _ _ Hp eq_refl Hk)
    as Hlen.
  simpl in Hlen |- *. lia.
Qed.

Lemma contains_index_of (s pat : string) :
  Str.contains s pat = true → ∃ p, Str.index_of pat s = Some p.
Proof.
  unfold Str.contains, Str.find.
  destruct (Str.index_of pat s) as [p|]; [by eexists|].
  cbn [Str.of_offset]. rewrite Z.eqb_refl. done.
Qed.

Lemma CreateAndCompileShaderObject_calls so programLog w :
  calls (CreateAndCompileShaderObject so programLog w).2
  = glDeleteShader (movedFromId (drvCreateShader (calls w) (type so)))
      :: glCompileShader (drvCreateShader (calls w) (type so))
      :: glShaderSource (drvCreateShader (calls w) (type so)) (assembledSources so)
      :: glCreateShader (type so) :: calls w.
Proof.
  unfold CreateAndCompileShaderObject, glslIsValid, glslGetLog, assert.
  repeat (match goal with |- context [if ?b then _ else _] => destruct b end;
          simpl); reflexivity.
Qed.

Lemma index_of_prefix_0 pat s :
  String.prefix pat s = true → Str.index_of pat s = Some 0%nat.
Proof. intros Hp. rewrite index_of_unfold, Hp. reflexivity. Qed.

Lemma ExtractVersionDirective_no_line_end (s v : string) :
  String.prefix "#version " s = true →
  Str.index_of_char (ascii_of_nat 10) s = None →
  ExtractVersionDirective s v = (true, s, "").
Proof.
  intros Hp Hnl. unfold ExtractVersionDirective, Str.find. cbv zeta.
  rewrite (index_of_prefix_0 _ _ Hp). cbn [Str.of_offset].
  change (negb (Z.of_nat 0 =? Str.npos)) with true. cbv iota.
  unfold Str.find_char. change (Z.of_nat 0) with 0.
  change (Z.to_nat 0) with 0%nat. cbn [Str.drop].
  replace (Str.size s <? 0) with false
    by (symmetry; apply Z.ltb_ge; unfold Str.size; apply Nat2Z.is_nonneg).
  rewrite Hnl. cbn [fmap option_fmap option_map Str.of_offset].
  change (Str.wrap (Str.wrap (Str.npos + 1) - 0)) with 0.
  unfold Str.substr, Str.erase.
  rewrite Z.min_l by (unfold Str.size; rewrite Z.sub_0_r; apply Nat2Z.is_nonneg).
  cbn [Z.to_nat Str.take Str.drop]. destruct s; reflexivity.
Qed.

(** C7, as amended: when the source text and the definitions both hold a
    [#version ] directive, the version line handed to the compiler is the
    directive line of the definitions (the first one in raw definitions,
    newline, modifiable definitions); the directive of the source is
    dropped.  The sources are, in this order: the version line, the
    remaining definition lines, the line-number reset and the source, each
    group after its comment header.  The source part is the source text
    with its directive cut out, from [#version ] up to and including the
    next line end or else to the end of the text; the one exception is a
    source that begins with the directive and holds no line end, which is
    passed whole. *)
Theorem version_directive_precedence (so : IShaderObject) :
  let defs := rawDefStrs so ++ Str.newline ++ modDefStrs so in
  let src := srcText so in
  Str.size defs < Str.npos →
  Str.size src < Str.npos →
  Str.contains src "#version " = true →
  Str.contains defs "#version " = true →
  assembledSources so
  = [ "// SHADER VERSION" ++ Str.newline;
      EnsureEndsWith (directiveLine defs) Str.newline;
      "// SHADER FLAGS" ++ Str.newline;
      (if Str.empty (withoutDirective defs) then withoutDirective defs
       else EnsureEndsWith (withoutDirective defs) Str.newline);
      "// SHADER SOURCE" ++ Str.newline;
      "#line 1" ++ Str.newline;
      (if String.prefix "#version " src
       then match Str.index_of_char (ascii_of_nat 10) src with
            | Some _ => withoutDirective src
            | None => src
            end
       else withoutDirective src) ]
  ∧ String.prefix "#version " (directiveLine defs) = true
  ∧ ∀ programLog w,
      glShaderSource (drvCreateShader (calls w) (type so)) (assembledSources so)
      ∈ calls (CreateAndCompileShaderObject so programLog w).2.
Proof.
  intros defs src Hsize Hssize Hsrc Hdefs.
  destruct (contains_index_of _ _ Hdefs) as [p Hidx].
  assert (Hex : ∀ v, ExtractVersionDirective defs v
                     = (true, withoutDirective defs, directiveLine defs)).
  { intros v. apply (ExtractVersionDirective_found defs v p Hsize Hidx).
    intros _. unfold defs, Str.newline. rewrite append_cons, append_nil.
    apply index_of_char_app. }
  pose proof (directiveLine_prefix defs p Hidx) as Hpre.
  assert (Hs : ∃ vs,
    ExtractVersionDirective src ""
    = (true,
       (if String.prefix "#version " src
        then match Str.index_of_char (ascii_of_nat 10) src with
             | Some _ => withoutDirective src
             | None => src
             end
        else withoutDirective src), vs)).
  { destruct (contains_index_of _ _ Hsrc) as [q Hq].
    destruct (String.prefix "#version " src) eqn:Hp.
    - destruct (Str.index_of_char (ascii_of_nat 10) src) as [k|] eqn:Hnl.
      + exists (directiveLine src).
        apply (ExtractVersionDirective_found src "" q Hssize Hq).
        intros _. rewrite Hnl. by eexists.
      + exists "". by apply ExtractVersionDirective_no_line_end.
    - exists (directiveLine src).
      apply (ExtractVersionDirective_found src "" q Hssize Hq).
      intros ->. apply index_of_prefix in Hq. cbn [Str.drop] in Hq. congruence. }
  destruct Hs as [vs Hs].
  split; [|split; [exact Hpre|]].
  - unfold assembledSources. fold defs. fold src. rewrite Hs, Hex.
    rewrite (prefix_nonempty _ _ _ Hpre). cbn [negb fst snd].
    destruct (Str.empty (withoutDirective defs)); reflexivity.
  - intros programLog w. rewrite CreateAndCompileShaderObject_calls.
    set_solver.
Qed.

(** ** Program objects *)

Lemma ReloadState_empty reloadShaderObjs po w :
  shaderObjs po = [] →
  ReloadState reloadShaderObjs po w
  = (false,
     RecalculateShaderHash (ClearUniformLocations (set_log "" po)), w).
Proof.
  intros Hempty. unfold ReloadState, ReloadShaderObjects, SetShaderDefinitions.
  destruct po as [n g h v b us sos lt l sf ul]. simpl in Hempty. subst sos.
  destruct reloadShaderObjs; reflexivity.
Qed.

Lemma reloadEach_nil sos w : (reloadEach sos w).1 = [] → sos = [].
Proof.
  destruct sos as [|so sos]; [done|]. cbn [reloadEach].
  destruct (ReloadFromTextOrFile so w) as [[c so'] w1].
  destruct (reloadEach sos w1) as [sos' w2]. done.
Qed.

Lemma ReloadState_objs_nil b po w :
  shaderObjs (ReloadState b po w).1.2 = [] → shaderObjs po = [].
Proof.
  unfold ReloadState, ReloadShaderObjects. cbv zeta.
  destruct b.
  - pose proof (reloadEach_nil
                  (shaderObjs (SetShaderDefinitions
                     (GetString (shaderFlags (ClearUniformLocations (set_log "" po))))
                     (ClearUniformLocations (set_log "" po)))) w) as Hn.
    destruct (reloadEach _ w) as [sos w1]. cbn in Hn |- *. intros ->.
    specialize (Hn eq_refl). by apply fmap_nil_inv in Hn.
  - cbn. apply fmap_nil_inv.
Qed.

Lemma Reload_empty force validate po w :
  shaderObjs po = [] →
  Reload force validate po w
  = (set_valid false
       (RecalculateShaderHash (ClearUniformLocations (set_log "" po))), w).
Proof.
  intros Hempty. unfold Reload.
  rewrite ReloadState_empty by exact Hempty. reflexivity.
Qed.

(** C8: when no shader object is left after the reload-state step, Reload
    clears the validity flag and returns at once: the world is untouched (no
    driver call, so no compile and no link, no cache entry added, nothing
    logged), the handle is kept, and the outcome is the same whatever the
    program cache and the rest of the world hold. *)
Theorem Reload_empty_program force validate po w :
  shaderObjs
    (ReloadState (force || negb (valid po) || (glid po =? 0)) po w).1.2 = [] →
  let '(po', w') := Reload force validate po w in
  valid po' = false
  ∧ w' = w
  ∧ glid po' = glid po
  ∧ shaderObjs po' = []
  ∧ ∀ w2, (Reload force validate po w2).1 = po'.
Proof.
  intros Hempty. apply ReloadState_objs_nil in Hempty.
  rewrite Reload_empty by exact Hempty.
  repeat split; try reflexivity.
  - cbn. exact Hempty.
  - intros w2. by rewrite Reload_empty.
Qed.

Lemma MaybeReload_skip validate po w :
  HashSet (shaderFlags po) = true → Updated (shaderFlags po) = false →
  MaybeReload validate po w = (po, w).
Proof. intros Hs Hu. unfold MaybeReload. rewrite Hs, Hu. reflexivity. Qed.


Lemma keepsValues_refl m : keepsValues m m.
Proof. intros key us v Hl Hv. eauto. Qed.

Lemma keepsValues_trans m1 m2 m3 :
  keepsValues m1 m2 → keepsValues m2 m3 → keepsValues m1 m3.
Proof.
  intros H12 H23 key us v Hl Hv.
  destruct (H12 key us v Hl Hv) as (us2 & Hl2 & Hv2 & Hn2).
  destruct (H23 key us2 v Hl2 Hv2) as (us3 & Hl3 & Hv3 & Hn3).
  exists us3. split; [done|]. split; [done|]. congruence.
Qed.

Lemma keepsValues_SetLocation loc m : keepsValues m (SetLocation loc <$> m).
Proof.
  intros key us v Hl Hv. exists (SetLocation loc us).
  rewrite lookup_fmap, Hl. done.
Qed.

Lemma copyUniform_keeps tgt src m w name :
  keepsValues m (copyUniform tgt src (m, w) name).1.
Proof.
  intros key us v Hl Hv. unfold copyUniform. cbv zeta. cbn [fst].
  destruct (decide (hashString name = key)) as [<-|Hne].
  - rewrite Hl. cbn [default]. unfold SetLocation. cbn [us_value us_name us_location].
    unfold id. rewrite Hv. eexists. rewrite lookup_insert_eq. split; [reflexivity|].
    split; reflexivity.
  - exists us. rewrite lookup_insert_ne by done. done.
Qed.

Lemma GLSLCopyState_keeps tgt src m w :
  keepsValues m (GLSLCopyState tgt src m w).1.
Proof.
  unfold GLSLCopyState. generalize (drvActiveUniforms (calls w) tgt) as names.
  intros names. revert m w. induction names as [|name names IH]; intros m w.
  - apply keepsValues_refl.
  - cbn [fold_left]. pose proof (copyUniform_keeps tgt src m w name) as Hstep.
    destruct (copyUniform tgt src (m, w) name) as [m1 w1].
    eapply keepsValues_trans; [exact Hstep | apply IH].
Qed.


Lemma framed_refl po : framed po po.
Proof. split; try reflexivity. apply keepsValues_refl. Qed.

Lemma framed_trans po1 po2 po3 : framed po1 po2 → framed po2 po3 → framed po1 po3.
Proof.
  intros [] []. split; try congruence. by eapply keepsValues_trans.
Qed.

Lemma framed_set_glid g po : framed po (set_glid g po).
Proof. split; try reflexivity. apply keepsValues_refl. Qed.

Lemma framed_set_log l po : framed po (set_log l po).
Proof. split; try reflexivity. apply keepsValues_refl. Qed.

Lemma framed_set_valid v po : framed po (set_valid v po).
Proof. split; try reflexivity. apply keepsValues_refl. Qed.

Lemma CreateAndLink_framed po w : framed po (CreateAndLink po w).1.2.
Proof.
  unfold CreateAndLink. cbv zeta.
  destruct (glid (set_glid _ po) =? 0); [apply framed_set_glid|].
  destruct (compileAndAttach _ _ _ _ _) as [[sv l] w1].
  destruct (negb sv); cbn [fst snd].
  - eapply framed_trans; [apply framed_set_glid | apply framed_set_log].
  - destruct (glslGetLog _ _) as [ll w2]. destruct (glslIsValid _ _) as [ok w3].
    cbn [fst snd].
    eapply framed_trans; [apply framed_set_glid|].
    eapply framed_trans; apply framed_set_log.
Qed.

Lemma Validate_framed po w : framed po (Validate po w).1.2.
Proof.
  unfold Validate. cbv zeta. destruct (glslGetLog _ _) as [l w1].
  apply framed_set_log.
Qed.

Lemma ValidateAndCopyUniforms_framed tgt src validate po w :
  framed po (ValidateAndCopyUniforms tgt src validate po w).1.2.
Proof.
  unfold ValidateAndCopyUniforms. cbv zeta.
  assert (Hv : framed po (if validate then Validate po w
                          else (valid po, po, w)).1.2).
  { destruct validate; [apply Validate_framed | apply framed_refl]. }
  destruct (if validate then _ else _) as [[iv po1] w1]. cbn [fst snd] in Hv.
  destruct iv; cbn [fst snd]; [|exact Hv].
  pose proof (GLSLCopyState_keeps tgt src (uniformStates po1) w1) as Hk.
  destruct (GLSLCopyState _ _ _ _) as [m w2]. cbn [fst snd] in *.
  destruct Hv. split; try done. by eapply keepsValues_trans.
Qed.

Lemma Reload_framed force validate po w :
  framed
    (ReloadState (force || negb (valid po) || (glid po =? 0)) po w).1.2
    (Reload force validate po w).1.
Proof.
  unfold Reload. cbv zeta.
  destruct (ReloadState _ po w) as [[ne po1] w1]. cbn [fst snd].
  destruct ne; cbn [negb]; [|apply framed_set_valid].
  set (po2 := set_glid _ po1).
  assert (H2 : framed po1 po2) by apply framed_set_glid.
  assert (H3 : framed po2 (if negb (glid po2 =? 0) then (true, po2, w1)
                           else CreateAndLink po2 w1).1.2).
  { destruct (negb _); [apply framed_refl | apply CreateAndLink_framed]. }
  destruct (if negb (glid po2 =? 0) then _ else _) as [[updated po3] w3].
  cbn [fst snd] in H3.
  assert (H4 : framed po3
    (if updated
     then let '(_, po4, w4) :=
            ValidateAndCopyUniforms (glid po3)
              (glid po * (if valid po then 1 else 0)) validate po3 w3 in
          (po4, w4)
     else (po3, w3)).1).
  { destruct updated; [|apply framed_refl].
    pose proof (ValidateAndCopyUniforms_framed (glid po3)
                  (glid po * (if valid po then 1 else 0)) validate po3 w3) as Hf.
    destruct (ValidateAndCopyUniforms _ _ _ _ _) as [[r po4] w4]. exact Hf. }
  destruct (if updated then _ else _) as [po5 w5]. cbn [fst] in H4.
  assert (H5 : framed po1 (set_valid updated po5)).
  { eapply framed_trans; [exact H2|]. eapply framed_trans; [exact H3|].
    eapply framed_trans; [exact H4|]. apply framed_set_valid. }
  destruct (if valid po && UseShaderCache w then Push _ _ _ else _)
    as [pushed w6].
  destruct (valid po && UseShaderCache w && pushed); [exact H5|].
  destruct (hash _ =? hash po); exact H5.
Qed.


Lemma ReloadState_flags b po w :
  shaderFlags (ReloadState b po w).1.2
  = mkShaderFlags (flagText (shaderFlags po)) true false.
Proof.
  unfold ReloadState, ReloadShaderObjects. cbv zeta.
  destruct b; [destruct (reloadEach _ _) as [sos w1]|]; reflexivity.
Qed.

Lemma ReloadState_keeps b po w :
  keepsValues (uniformStates po) (uniformStates (ReloadState b po w).1.2)
  ∧ bound (ReloadState b po w).1.2 = bound po
  ∧ valid (ReloadState b po w).1.2 = valid po
  ∧ glid (ReloadState b po w).1.2 = glid po
  ∧ log (ReloadState b po w).1.2 = "".
Proof.
  unfold ReloadState, ReloadShaderObjects. cbv zeta.
  destruct b; [destruct (reloadEach _ _) as [sos w1]|]; cbn;
    (split; [apply keepsValues_SetLocation | done]).
Qed.

Lemma cachedValue_keeps key v po po' :
  keepsValues (uniformStates po) (uniformStates po') →
  cachedValue key po = Some v → cachedValue key po' = Some v.
Proof.
  unfold cachedValue. intros Hk Hc.
  destruct (uniformStates po !! key) as [us|] eqn:Hl; [|done]. simpl in Hc.
  destruct (Hk key us v Hl Hc) as (us' & Hl' & Hv' & _).
  rewrite Hl'. exact Hv'.
Qed.


Lemma Reload_flags force validate po w :
  shaderFlags (Reload force validate po w).1
  = mkShaderFlags (flagText (shaderFlags po)) true false.
Proof.
  rewrite (fr_flags _ _ (Reload_framed force validate po w)).
  apply ReloadState_flags.
Qed.

(** C5: with the flags hash set and no flag changed since, MaybeReload
    returns the program and the world as they were; and whatever the first
    MaybeReload did, a second one right after it is such a no-op, so the two
    calls together compile no more than the first one did. *)
Theorem MaybeReload_idempotent validate validate' po w :
  (HashSet (shaderFlags po) = true → Updated (shaderFlags po) = false →
   MaybeReload validate po w = (po, w))
  ∧ (let '(po1, w1) := MaybeReload validate po w in
     MaybeReload validate' po1 w1 = (po1, w1)
     ∧ compilations (MaybeReload validate' po1 w1).2 = compilations w1).
Proof.
  split; [apply MaybeReload_skip|].
  destruct (MaybeReload validate po w) as [po1 w1] eqn:E.
  assert (Hskip : MaybeReload validate' po1 w1 = (po1, w1)).
  { apply MaybeReload_skip; unfold MaybeReload in E.
    - destruct (HashSet (shaderFlags po)) eqn:Hs;
        destruct (Updated (shaderFlags po)) eqn:Hu; cbn [andb negb] in E.
      all: try (pose proof (Reload_flags (negb (HashSet (shaderFlags po)))
                              validate po w) as Hf; rewrite Hs in Hf;
                destruct (Reload _ validate po w) as [po2 w2];
                simplify_eq/=; by rewrite Hf).
      simplify_eq. exact Hs.
    - destruct (HashSet (shaderFlags po)) eqn:Hs;
        destruct (Updated (shaderFlags po)) eqn:Hu; cbn [andb negb] in E.
      all: try (pose proof (Reload_flags (negb (HashSet (shaderFlags po)))
                              validate po w) as Hf; rewrite Hs in Hf;
                destruct (Reload _ validate po w) as [po2 w2];
                simplify_eq/=; by rewrite Hf).
      simplify_eq. exact Hu. }
  split; [exact Hskip | by rewrite Hskip].
Qed.

(** C4, as amended: Enable marks the program bound whatever the reload
    decided; the validity flag after Enable is the one MaybeReload left.  In
    particular a program without shader objects whose first reload is
    pending is bound and invalid after Enable. *)
Theorem Enable_binds_regardless po w :
  let '(po', w') := Enable po w in
  bound po' = true
  ∧ valid po' = valid (MaybeReload true po w).1
  ∧ calls w' = glUseProgram (glid po') :: calls (MaybeReload true po w).2
  ∧ (HashSet (shaderFlags po) = false → shaderObjs po = [] →
     bound po' = true ∧ valid po' = false).
Proof.
  unfold Enable. destruct (MaybeReload true po w) as [po1 w1] eqn:E.
  cbn [fst snd]. split; [reflexivity|]. split; [reflexivity|].
  split; [reflexivity|].
  intros Hs Hempty. split; [reflexivity|]. cbn.
  unfold MaybeReload in E. rewrite Hs in E. cbn [andb negb] in E.
  rewrite (Reload_empty true true po w Hempty) in E.
  unfold PrintDebugInfo in E. by simplify_eq.
Qed.


Lemma SetUniformAt_found fn idx v po w key us :
  0 ≤ idx → uniformLocs po !! Z.to_nat idx = Some key →
  uniformStates po !! key = Some us →
  SetUniformAt fn idx v po w = SetUniformVia fn key v po w.
Proof.
  intros Hidx Hloc Hst. unfold SetUniformAt, SetUniformVia. cbv zeta.
  replace (idx <? 0) with false by (symmetry; lia).
  rewrite Hloc, Hst. reflexivity.
Qed.

Lemma SetUniformVia_step fn key v po w us :
  IsBound po = true → uniformStates po !! key = Some us →
  SetUniformVia fn key v po w
  = Some (set_uniformStates
            (<[key := (UniformState_Set v us).2]> (uniformStates po)) po,
          if (UniformState_Set v us).1
          then gl (glUniform fn (us_location (UniformState_Set v us).2) v) w
          else w).
Proof.
  intros Hb Hst. unfold SetUniformVia, assert. rewrite Hb, Hst. cbv zeta.
  destruct (UniformState_Set v us) as [write us1]. reflexivity.
Qed.

Lemma SetUniformVia_setIfChanged fn key v po w us :
  IsBound po = true → uniformStates po !! key = Some us →
  setIfChanged (SetUniformVia fn key) fn key us v po w.
Proof.
  intros Hb Hst. unfold setIfChanged.
  rewrite (SetUniformVia_step fn key v po w us Hb Hst).
  eexists _, _. split; [reflexivity|].
  set (us1 := (UniformState_Set v us).2).
  set (po1 := set_uniformStates _ po).
  assert (Hv1 : us_value us1 = Some v).
  { unfold us1, UniformState_Set. case_decide; done. }
  assert (Hloc1 : us_location us1 = us_location us).
  { unfold us1, UniformState_Set. case_decide; done. }
  assert (Hlv1 : IsLocationValid us1 = IsLocationValid us).
  { unfold IsLocationValid. by rewrite Hloc1. }
  assert (Hst1 : uniformStates po1 !! key = Some us1).
  { unfold po1. cbn. apply lookup_insert_eq. }
  assert (Hb1 : IsBound po1 = true) by exact Hb.
  split; [|split; [|split]].
  - unfold cachedValue. rewrite Hst1. exact Hv1.
  - rewrite Hloc1. clear. unfold UniformState_Set.
    case_bool_decide; case_decide; try done. cbn [fst].
    destruct (IsLocationValid us); reflexivity.
  - set (w1 := if (UniformState_Set v us).1 then _ else w).
    rewrite (SetUniformVia_step fn key v po1 w1 us1 Hb1 Hst1).
    assert (Hset : UniformState_Set v us1 = (false, us1)).
    { unfold UniformState_Set. by rewrite decide_True. }
    rewrite Hset. cbn [fst snd]. f_equal. f_equal. unfold po1. cbn.
    rewrite insert_insert_eq. reflexivity.
  - intros v' Hne. set (w1 := if (UniformState_Set v us).1 then _ else w).
    rewrite (SetUniformVia_step fn key v' po1 w1 us1 Hb1 Hst1).
    eexists _, _. split; [reflexivity|].
    assert (Hset : UniformState_Set v' us1
                   = (IsLocationValid us1,
                      mkUniformState (us_name us1) (us_location us1) (Some v'))).
    { unfold UniformState_Set. rewrite decide_False; [done|].
      rewrite Hv1. congruence. }
    rewrite Hset. cbn [fst snd us_location us_value]. split.
    + unfold cachedValue. cbn. rewrite lookup_insert_eq. reflexivity.
    + rewrite Hlv1, Hloc1. destruct (IsLocationValid us); reflexivity.
Qed.

(** C1, as amended: on a bound program, for the setters taking a uniform
    state and for those taking an index, the set-if-changed contract holds:
    the call records the value and writes it exactly when it differs from the
    recorded one and the location is resolved; the same call again changes
    nothing and writes nothing; a call with another value records it, and
    writes it when the location is resolved. *)
Theorem SetUniform_set_if_changed fn key idx v po w us :
  IsBound po = true →
  uniformStates po !! key = Some us →
  setIfChanged (SetUniformVia fn key) fn key us v po w
  ∧ (0 ≤ idx → uniformLocs po !! Z.to_nat idx = Some key →
     setIfChanged (SetUniformAt fn idx) fn key us v po w).
Proof.
  intros Hb Hst.
  pose proof (SetUniformVia_setIfChanged fn key v po w us Hb Hst) as Hvia.
  split; [exact Hvia|]. intros Hidx Hloc.
  destruct Hvia as (po1 & w1 & Hcall & Hc & Hw & Hagain & Hother).
  assert (Hlocs : uniformLocs po1 = uniformLocs po).
  { rewrite (SetUniformVia_step fn key v po w us Hb Hst) in Hcall.
    by simplify_eq. }
  assert (Hst1 : ∃ us1, uniformStates po1 !! key = Some us1).
  { unfold cachedValue in Hc. destruct (uniformStates po1 !! key); [eauto|done]. }
  destruct Hst1 as [us1 Hst1].
  exists po1, w1. split; [|split; [exact Hc|split; [exact Hw|split]]].
  - by rewrite (SetUniformAt_found fn idx v po w key us).
  - rewrite (SetUniformAt_found fn idx v po1 w1 key us1); try done.
    by rewrite Hlocs.
  - intros v' Hne. destruct (Hother v' Hne) as (po2 & w2 & Hc2 & Hrest).
    exists po2, w2. split; [|exact Hrest].
    rewrite (SetUniformAt_found fn idx v' po1 w1 key us1); try done.
    by rewrite Hlocs.
Qed.

(** C10: on a bound program, an index-based setter whose index names a hash
    without an entry in the uniform-state table returns the program and the
    world unchanged: no driver call, no state created or modified, nothing
    logged.  All seventeen index-based setters are instances of
    [SetUniformAt]. *)
Theorem SetUniformAt_unknown_is_noop fn idx v po w key :
  IsBound po = true →
  0 ≤ idx →
  uniformLocs po !! Z.to_nat idx = Some key →
  uniformStates po !! key = None →
  SetUniformAt fn idx v po w = Some (po, w).
Proof.
  intros Hb Hidx Hloc Hst. unfold SetUniformAt, assert. rewrite Hb. cbv zeta.
  replace (idx <? 0) with false by (symmetry; lia).
  by rewrite Hloc, Hst.
Qed.


Lemma calls_assert c expr w : calls (assert c expr w) = calls w.
Proof. by destruct c. Qed.

(** What the driver says about a shader handle right after the object [so]
    was compiled into it. *)
Lemma CreateAndCompileShaderObject_outcome so programLog w :
  let shader := drvCreateShader (calls w) (type so) in
  let tr := glCompileShader shader
              :: glShaderSource shader (assembledSources so)
              :: glCreateShader (type so) :: calls w in
  let status := if drvIsShader tr shader then drvCompileStatus tr shader
                else drvLinkStatus tr shader in
  let infoLog := if drvIsShader tr shader then drvShaderInfoLog tr shader
                 else drvProgramInfoLog tr shader in
  (CreateAndCompileShaderObject so programLog w).1
  = (mkCompiled shader (negb (status =? 0)),
     if status =? 0 then programLog ++ infoLog else programLog).
Proof.
  intros shader tr status infoLog.
  unfold CreateAndCompileShaderObject, glslIsValid, glslGetLog. cbv zeta.
  repeat first [rewrite calls_assert | progress cbn [calls gl]].
  fold shader. fold tr. fold status.
  destruct (status =? 0); cbn [negb fst snd]; [|reflexivity].
  repeat first [rewrite calls_assert | progress cbn [calls gl]].
  reflexivity.
Qed.

Lemma size_append (a b : string) : Str.size (a ++ b) = Str.size a + Str.size b.
Proof.
  unfold Str.size. induction a as [|c a IH].
  { rewrite StrFacts.append_nil. cbn [String.length]. lia. }
  rewrite StrFacts.append_cons. cbn [String.length]. lia.
Qed.

Lemma size_nonneg (a : string) : 0 ≤ Str.size a.
Proof. unfold Str.size. lia. Qed.

Lemma size_pos_nonempty (a : string) : 0 < Str.size a → a ≠ "".
Proof. intros Hs ->. unfold Str.size in Hs. simpl in Hs. lia. Qed.

Lemma CreateAndCompileShaderObject_log_grows so programLog w :
  Str.size programLog ≤ Str.size (CreateAndCompileShaderObject so programLog w).1.2.
Proof.
  unfold CreateAndCompileShaderObject. cbv zeta.
  destruct (glslIsValid _ _) as [ok w1]. destruct (negb ok); cbn [fst snd]; [|lia].
  destruct (glslGetLog _ _) as [l w2]. cbn [fst snd].
  rewrite size_append. pose proof (size_nonneg l). lia.
Qed.

Lemma compileAndAttach_log_grows sos progID shadersValid programLog w :
  Str.size programLog
  ≤ Str.size (compileAndAttach sos progID shadersValid programLog w).1.2.
Proof.
  revert shadersValid programLog w.
  induction sos as [|so sos IH]; intros sv l w; cbn [compileAndAttach].
  - cbn. lia.
  - pose proof (CreateAndCompileShaderObject_log_grows so l w) as Hg.
    destruct (CreateAndCompileShaderObject so l w) as [[cso l1] w1].
    cbn [fst snd] in Hg. cbv zeta.
    destruct (negb (cso_valid cso)); (etrans; [exact Hg | apply IH]).
Qed.

Lemma compileAndAttach_stays_invalid sos progID programLog w :
  (compileAndAttach sos progID false programLog w).1.1 = false.
Proof.
  revert programLog w.
  induction sos as [|so sos IH]; intros l w; cbn [compileAndAttach]; [done|].
  destruct (CreateAndCompileShaderObject so l w) as [[cso l1] w1]. cbv zeta.
  destruct (negb (cso_valid cso)); apply IH.
Qed.

Lemma compileAndAttach_failure sos so progID shadersValid programLog w :
  so ∈ sos → failsToCompile so →
  (compileAndAttach sos progID shadersValid programLog w).1.1 = false.
Proof.
  intros Hin Hfail. revert shadersValid programLog w.
  induction sos as [|so' sos IH]; intros sv l w; [by apply elem_of_nil in Hin|].
  cbn [compileAndAttach].
  apply elem_of_cons in Hin as [<-|Hin].
  - pose proof (Hfail l w) as Hf.
    destruct (CreateAndCompileShaderObject so l w) as [[cso l1] w1].
    cbn [fst snd] in Hf. cbv zeta. rewrite Hf. cbn [negb].
    apply compileAndAttach_stays_invalid.
  - destruct (CreateAndCompileShaderObject so' l w) as [[cso l1] w1]. cbv zeta.
    destruct (negb (cso_valid cso)); by apply IH.
Qed.

Lemma compileAndAttach_reports sos so progID shadersValid programLog w :
  so ∈ sos → reportsOnFailure so →
  Str.size programLog
  < Str.size (compileAndAttach sos progID shadersValid programLog w).1.2.
Proof.
  intros Hin Hrep. revert shadersValid programLog w.
  induction sos as [|so' sos IH]; intros sv l w; [by apply elem_of_nil in Hin|].
  cbn [compileAndAttach].
  apply elem_of_cons in Hin as [<-|Hin].
  - pose proof (Hrep l w) as Hr.
    destruct (CreateAndCompileShaderObject so l w) as [[cso l1] w1].
    cbn [fst snd] in Hr. cbv zeta.
    destruct (negb (cso_valid cso));
      (eapply Z.lt_le_trans; [exact Hr | apply compileAndAttach_log_grows]).
  - pose proof (CreateAndCompileShaderObject_log_grows so' l w) as Hg.
    destruct (CreateAndCompileShaderObject so' l w) as [[cso l1] w1].
    cbn [fst snd] in Hg. cbv zeta.
    destruct (negb (cso_valid cso));
      (eapply Z.le_lt_trans; [exact Hg | by apply IH]).
Qed.

Lemma CreateAndLink_compile_failure po w so :
  glid po = 0 →
  so ∈ shaderObjs po → failsToCompile so → reportsOnFailure so →
  drvCreateProgram (calls w) ≠ 0 →
  let '(ok, po', w') := CreateAndLink po w in
  ok = false
  ∧ glid po' = drvCreateProgram (calls w)
  ∧ Str.size (log po) < Str.size (log po')
  ∧ valid po' = valid po.
Proof.
  intros Hglid Hin Hfail Hrep Hcreate. unfold CreateAndLink, assert.
  rewrite Hglid. cbn [Z.eqb]. cbv zeta. cbn [glid set_glid].
  replace (drvCreateProgram (calls w) =? 0) with false by (symmetry; lia).
  cbn [shaderObjs log set_glid].
  pose proof (compileAndAttach_failure (shaderObjs po) so
                (drvCreateProgram (calls w)) true (log po)
                (gl glCreateProgram w) Hin Hfail) as Hf.
  pose proof (compileAndAttach_reports (shaderObjs po) so
                (drvCreateProgram (calls w)) true (log po)
                (gl glCreateProgram w) Hin Hrep) as Hr.
  destruct (compileAndAttach _ _ _ _ _) as [[sv l] w1]. cbn [fst snd] in Hf, Hr.
  subst sv. cbn. done.
Qed.

(** The program a Reload is left with when a shader object fails to
    compile and the cache holds no program for the new hash. *)
Lemma Reload_compile_failure_outcome force validate po w so :
  let reloadShaderObjs := force || negb (valid po) || (glid po =? 0) in
  let '(_, po1, w1) := ReloadState reloadShaderObjs po w in
  so ∈ shaderObjs po1 →
  failsToCompile so →
  reportsOnFailure so →
  (valid po && UseShaderCache w = true → Find (hash po1) w1 = 0) →
  drvCreateProgram (calls w1) ≠ 0 →
  let po' := (Reload force validate po w).1 in
  valid po' = false
  ∧ log po' ≠ ""
  ∧ glid po' = drvCreateProgram (calls w1)
  ∧ glid po' ≠ 0.
Proof.
  intros reloadShaderObjs.
  pose proof (ReloadState_keeps reloadShaderObjs po w) as (_ & _ & _ & _ & Hlog).
  unfold Reload. cbv zeta. fold reloadShaderObjs.
  destruct (ReloadState reloadShaderObjs po w) as [[ne po1] w1] eqn:ERS.
  cbn [fst snd] in Hlog.
  intros Hin Hfail Hrep Hcache Hcreate.
  assert (Hne : ne = true).
  { unfold ReloadState in ERS. cbv zeta in ERS.
    destruct (if reloadShaderObjs then _ else _) as [po2 w2]. simplify_eq.
    apply negb_true_iff, bool_decide_eq_false_2. intros Hnil.
    rewrite Hnil in Hin. by apply elem_of_nil in Hin. }
  subst ne. cbn [negb].
  assert (Hmiss : (if valid po && UseShaderCache w then Find (hash po1) w1 else 0) = 0).
  { destruct (valid po && UseShaderCache w); [by apply Hcache | done]. }
  rewrite Hmiss. cbn [glid set_glid Z.eqb negb].
  pose proof (CreateAndLink_compile_failure (set_glid 0 po1) w1 so eq_refl
                Hin Hfail Hrep Hcreate) as Hcl.
  destruct (CreateAndLink (set_glid 0 po1) w1) as [[ok po3] w3].
  destruct Hcl as (-> & Hg & Hl & Hv).
  assert (Hres : let po4 := set_valid false po3 in
                 valid po4 = false ∧ log po4 ≠ ""
                 ∧ glid po4 = drvCreateProgram (calls w1) ∧ glid po4 ≠ 0).
  { cbn. split; [done|]. split; [|split; [done | by rewrite Hg]].
    apply size_pos_nonempty. cbn [log set_glid] in Hl. rewrite Hlog in Hl.
    pose proof (size_nonneg ""). unfold Str.size in *. simpl in *. lia. }
  destruct (if valid po && UseShaderCache w then Push _ _ _ else _)
    as [pushed w6].
  destruct (valid po && UseShaderCache w && pushed); [exact Hres|].
  destruct (hash _ =? hash po); exact Hres.
Qed.

End Properties.

(** * The theorems at work on the concrete platform *)

Module DemoFacts.
Import Demo.

Lemma badShader_outcome (programLog : string) (w : World) :
  (CreateAndCompileShaderObject badShader programLog w).1
  = (mkCompiled (drvCreateShader (calls w) (type badShader)) false,
     programLog ++ "0:1: #error").
Proof.
  rewrite CreateAndCompileShaderObject_outcome. cbv zeta.
  set (shader := drvCreateShader (calls w) (type badShader)).
  set (srcs := assembledSources badShader).
  assert (Hsrc : ∀ tr, sourceOf shader
            (glCompileShader shader :: glShaderSource shader srcs :: tr)
            = Some srcs).
  { intros tr. cbn [sourceOf]. by rewrite Z.eqb_refl. }
  assert (Hc : ∀ tr, compiles shader
            (glCompileShader shader :: glShaderSource shader srcs :: tr)
            = false).
  { intros tr. unfold compiles. rewrite Hsrc. reflexivity. }
  cbn [drvIsShader drvCompileStatus drvShaderInfoLog platform].
  rewrite !Hsrc, !Hc. rewrite bool_decide_eq_true_2 by done. reflexivity.
Qed.

Lemma badShader_fails : failsToCompile badShader.
Proof. intros l w. by rewrite badShader_outcome. Qed.

Lemma badShader_reports : reportsOnFailure badShader.
Proof.
  intros l w. rewrite badShader_outcome. cbn [fst snd].
  rewrite size_append. unfold Str.size at 3. simpl. lia.
Qed.


(** The theorems applied to the programs of [Demo]. *)

Lemma GetHash_content_only_witness :
  type goodShader ≠ type otherShader
  ∧ srcData goodShader ≠ srcData otherShader
  ∧ GetHash goodShader = GetHash otherShader.
Proof.
  split; [vm_compute; discriminate|]. split; [vm_compute; discriminate|].
  exact (proj1 (GetHash_content_only goodShader otherShader) eq_refl).
Defined.

(** C7 does not hold as stated: the assembled source is not the version
    line, the definition lines, the line-number reset and the original source
    put together.  Comment headers stand between the parts, and the source
    part is the source text without its own version directive. *)
Lemma assembled_source_is_more_than_four_parts :
  let so := versionedShader in
  let srcs := assembledSources so in
  Str.contains (srcText so) "#version " = true
  ∧ Str.contains (rawDefStrs so ++ Str.newline ++ modDefStrs so) "#version " = true
  ∧ Str.concat srcs
    ≠ nth 1 srcs "" ++ nth 3 srcs "" ++ ("#line 1" ++ Str.newline) ++ srcText so
  ∧ nth 6 srcs "" ≠ srcText so
  ∧ nth 6 srcs "" = goodSource.
Proof.
  cbv zeta.
  split; [vm_compute; reflexivity|]. split; [vm_compute; reflexivity|].
  split; [vm_compute; discriminate|]. split; [vm_compute; discriminate|].
  vm_compute; reflexivity.
Qed.

Lemma version_directive_precedence_witness :
  nth 1 (assembledSources versionedShader) "" = "#version 130" ++ Str.newline
  ∧ nth 6 (assembledSources versionedShader) "" = goodSource.
Proof.
  destruct (version_directive_precedence versionedShader) as [-> _];
    try (vm_compute; reflexivity).
  split; vm_compute; reflexivity.
Defined.

Lemma Reload_empty_program_witness :
  valid (Reload true true (newProgram []) world).1 = false
  ∧ (Reload true true (newProgram []) world).2 = world.
Proof.
  pose proof (Reload_empty_program true true (newProgram []) world eq_refl) as Hw.
  destruct (Reload true true (newProgram []) world) as [po' w'].
  destruct Hw as (Hv & Hw & _). split; [exact Hv | exact Hw].
Defined.


Lemma ReloadFromTextOrFile_resolves_witness :
  let so := mkShaderObject 35633 "GLSL/TreeVertProg.glsl" "" "" "" in
  let '(changed, so', w') := ReloadFromTextOrFile so world in
  (changed = true ↔ resolvedSource (srcData so) world ≠ srcText so)
  ∧ so' = set_srcText (resolvedSource (srcData so) world) so
  ∧ w' = (if sourceMissing (srcData so) world then
            LOG_L L_ERROR
              ("[GetShaderSource] file " ++ Str.dquote
                 ++ ("shaders/" ++ srcData so) ++ Str.dquote ++ " not found")
              world
          else world)
  ∧ (sourceMissing (srcData so) world = true
     → resolvedSource (srcData so) world = "").
Proof.
  exact (ReloadFromTextOrFile_resolves
           (mkShaderObject 35633 "GLSL/TreeVertProg.glsl" "" "" "") world).
Defined.

Lemma SetUniformAt_unknown_is_noop_witness :
  SetUniform3fv 2 [one; one; one] boundProgram world
  = Some (boundProgram, world).
Proof.
  apply (SetUniformAt_unknown_is_noop Uniform3fv 2 (FltVec [one; one; one])
           boundProgram world 12345); [reflexivity | lia | reflexivity..].
Defined.

Lemma SetUniform_set_if_changed_witness :
  setIfChanged (SetUniformVia Uniform3f (hashString "color")) Uniform3f
    (hashString "color") color (FltVec [0; one; 0]) boundProgram world
  ∧ setIfChanged (SetUniformAt Uniform3f 0) Uniform3f
      (hashString "color") color (FltVec [0; one; 0]) boundProgram world.
Proof.
  destruct (SetUniform_set_if_changed Uniform3f (hashString "color") 0
              (FltVec [0; one; 0]) boundProgram world color)
    as [Hvia Hat]; [reflexivity | reflexivity |].
  split; [exact Hvia | apply Hat; [lia | reflexivity]].
Defined.

(** C1 does not hold as stated.  For a uniform whose location is not
    resolved, two calls with the same value issue no write at all, and a call
    with another value records it but issues none either.  For a uniform that
    already holds the value, two calls with it issue no write. *)
Lemma SetUniform_unresolved_location_writes_nothing :
  let key := hashString "$UNUSED$" in
  IsBound boundProgram = true
  ∧ (∃ po1 w1 po2 w2 po3 w3,
       SetUniform_1i key 5 boundProgram world = Some (po1, w1)
       ∧ SetUniform_1i key 5 po1 w1 = Some (po2, w2)
       ∧ uniformWrites w2 ≠ S (uniformWrites world)
       ∧ SetUniform_1i key 6 po2 w2 = Some (po3, w3)
       ∧ cachedValue key po3 = Some (IntVec [6])
       ∧ uniformWrites w3 = uniformWrites world)
  ∧ (∃ po1 w1 po2 w2,
       SetUniform_3f (hashString "color") one 0 0 boundProgram world
       = Some (po1, w1)
       ∧ SetUniform_3f (hashString "color") one 0 0 po1 w1 = Some (po2, w2)
       ∧ uniformWrites w2 ≠ S (uniformWrites world)).
Proof.
  split; [reflexivity|]. split.
  - eexists _, _, _, _, _, _.
    split; [vm_compute; reflexivity|].
    split; [vm_compute; reflexivity|].
    split; [vm_compute; lia|].
    split; [vm_compute; reflexivity|].
    split; vm_compute; reflexivity.
  - eexists _, _, _, _.
    split; [vm_compute; reflexivity|].
    split; [vm_compute; reflexivity|].
    vm_compute; lia.
Qed.


Lemma MaybeReload_idempotent_witness :
  MaybeReload true boundProgram world = (boundProgram, world)
  ∧ (let '(po1, w1) := MaybeReload false (newProgram [goodShader]) world in
     MaybeReload true po1 w1 = (po1, w1)).
Proof.
  split.
  - apply (MaybeReload_idempotent true true boundProgram world); reflexivity.
  - pose proof (MaybeReload_idempotent false true (newProgram [goodShader]) world)
      as [_ Hw].
    destruct (MaybeReload false (newProgram [goodShader]) world) as [po1 w1].
    exact (proj1 Hw).
Defined.

Lemma Enable_binds_regardless_witness :
  bound (Enable (newProgram []) world).1 = true
  ∧ valid (Enable (newProgram []) world).1 = false.
Proof.
  pose proof (Enable_binds_regardless (newProgram []) world) as Hw.
  destruct (Enable (newProgram []) world) as [po' w'].
  destruct Hw as (_ & _ & _ & Hw). apply Hw; reflexivity.
Defined.

(** C4 does not hold as stated: Enable on a program whose only shader
    fails to compile leaves it bound although its reload failed. *)
Lemma Enable_binds_invalid_program :
  let po' := (Enable (newProgram [badShader]) world).1 in
  failsToCompile badShader ∧ bound po' = true ∧ valid po' = false.
Proof.
  split; [exact badShader_fails|]. split; vm_compute; reflexivity.
Qed.

(** C3 does not hold as stated: after the failed Reload the program holds
    the handle that CreateAndLink created. *)
Lemma Reload_compile_failure_keeps_handle :
  let po' := (Reload true true (newProgram [badShader]) world).1 in
  failsToCompile badShader
  ∧ valid po' = false
  ∧ glid po' = 2
  ∧ ¬ (valid po' = false ∧ log po' ≠ "" ∧ glid po' = 0).
Proof.
  split; [exact badShader_fails|].
  split; [vm_compute; reflexivity|].
  split; [vm_compute; reflexivity|].
  intros (_ & _ & Hg). vm_compute in Hg. discriminate Hg.
Qed.


End DemoFacts.

(** * More of Shader.cpp and of its caller *)

Section Extras.
Context `{Platform}.
Import StrFacts.

Lemma append_assoc (a b c : string) : (a ++ b) ++ c = a ++ (b ++ c).
Proof.
  induction a as [|x a IH]; [reflexivity|].
  rewrite !append_cons. by rewrite IH.
Qed.

(** X1: [ExtractVersionDirective] reports a directive exactly when the
    text holds [#version ]; without one it leaves both strings alone; with
    one, the extracted piece is a contiguous part of the text and what is
    left is the text around it, in order. *)
Theorem ExtractVersionDirective_splits (src version src' version' : string)
    (found : bool) :
  ExtractVersionDirective src version = (found, src', version') →
  (found = Str.contains src "#version ")
  ∧ (found = false → src' = src ∧ version' = version)
  ∧ (found = true →
     ∃ pre post, src = pre ++ version' ++ post ∧ src' = pre ++ post).
Proof.
  unfold ExtractVersionDirective, Str.contains. cbv zeta.
  destruct (negb (Str.find src "#version " =? Str.npos)); intros Heq;
    simplify_eq; (split; [reflexivity|]); (split; [done|]); [|done].
  intros _. unfold Str.substr, Str.erase.
  set (pos := Z.to_nat (Str.find src "#version ")).
  set (n := Z.to_nat _).
  exists (Str.take pos src), (Str.drop n (Str.drop pos src)).
  split; [|reflexivity].
  by rewrite (take_drop n), (take_drop pos).
Qed.

Lemma not_contains_extract (s v : string) :
  Str.contains s "#version " = false →
  ExtractVersionDirective s v = (false, s, v).
Proof.
  unfold ExtractVersionDirective, Str.contains. cbv zeta.
  intros ->. reflexivity.
Qed.

(** X2: a source that is a [#version ] directive and nothing else, with no
    line end, loses nothing: the search for the line end fails, the length
    wraps to zero, and the call still reports a directive.  The version slot
    of the assembled source is then empty and the directive stays in the
    source part, after the [#line 1] reset. *)
Theorem ExtractVersionDirective_single_line (so : IShaderObject) (version : string) :
  String.prefix "#version " (srcText so) = true →
  Str.index_of_char (ascii_of_nat 10) (srcText so) = None →
  ExtractVersionDirective (srcText so) version = (true, srcText so, "")
  ∧ (Str.contains (rawDefStrs so ++ Str.newline ++ modDefStrs so) "#version "
     = false →
     assembledSources so
     = [ "// SHADER VERSION" ++ Str.newline;
         "";
         "// SHADER FLAGS" ++ Str.newline;
         EnsureEndsWith (rawDefStrs so ++ Str.newline ++ modDefStrs so) Str.newline;
         "// SHADER SOURCE" ++ Str.newline;
         "#line 1" ++ Str.newline;
         srcText so ]).
Proof.
  intros Hp Hnl.
  assert (Hex : ∀ v, ExtractVersionDirective (srcText so) v
                     = (true, srcText so, "")).
  { intros v. unfold ExtractVersionDirective, Str.find. cbv zeta.
    rewrite (index_of_prefix_0 _ _ Hp). cbn [Str.of_offset].
    change (negb (Z.of_nat 0 =? Str.npos)) with true. cbv iota.
    unfold Str.find_char. change (Z.of_nat 0) with 0.
    change (Z.to_nat 0) with 0%nat. cbn [Str.drop].
    replace (Str.size (srcText so) <? 0) with false
      by (symmetry; apply Z.ltb_ge; unfold Str.size; apply Nat2Z.is_nonneg).
    rewrite Hnl. cbn [fmap option_fmap option_map Str.of_offset].
    change (Str.wrap (Str.wrap (Str.npos + 1) - 0)) with 0.
    unfold Str.substr, Str.erase.
    rewrite Z.min_l by (unfold Str.size; rewrite Z.sub_0_r; apply Nat2Z.is_nonneg).
    cbn [Z.to_nat Str.take Str.drop]. destruct (srcText so); reflexivity. }
  split; [apply Hex|].
  intros Hdefs. unfold assembledSources. cbv zeta.
  rewrite Hex. rewrite (not_contains_extract _ _ Hdefs).
  cbn [Str.empty negb].
  assert (Hne : Str.empty (rawDefStrs so ++ Str.newline ++ modDefStrs so) = false).
  { destruct (rawDefStrs so); reflexivity. }
  rewrite Hne. reflexivity.
Qed.

(** X3: when only the source text carries a version directive, the
    assembled source has that line in the version slot and the source
    without it in the last slot; the definitions follow the directive. *)
Theorem version_directive_from_source (so : IShaderObject) (p : nat) :
  let defs := rawDefStrs so ++ Str.newline ++ modDefStrs so in
  Str.size (srcText so) < Str.npos →
  Str.index_of "#version " (srcText so) = Some p →
  (p = 0%nat → is_Some (Str.index_of_char (ascii_of_nat 10) (srcText so))) →
  Str.contains defs "#version " = false →
  assembledSources so
  = [ "// SHADER VERSION" ++ Str.newline;
      EnsureEndsWith (directiveLine (srcText so)) Str.newline;
      "// SHADER FLAGS" ++ Str.newline;
      EnsureEndsWith defs Str.newline;
      "// SHADER SOURCE" ++ Str.newline;
      "#line 1" ++ Str.newline;
      withoutDirective (srcText so) ]
  ∧ String.prefix "#version " (directiveLine (srcText so)) = true.
Proof.
  intros defs Hsize Hidx Hzero Hdefs.
  pose proof (directiveLine_prefix _ _ Hidx) as Hpre.
  split; [|exact Hpre].
  unfold assembledSources. cbv zeta. fold defs.
  rewrite (ExtractVersionDirective_found _ "" p Hsize Hidx Hzero).
  rewrite (not_contains_extract _ _ Hdefs).
  rewrite (prefix_nonempty _ _ _ Hpre). cbn [negb].
  assert (Hne : Str.empty defs = false).
  { unfold defs. destruct (rawDefStrs so); reflexivity. }
  rewrite Hne. reflexivity.
Qed.


Lemma resolvedSource_same_files d w w' :
  vfs w' = vfs w → resolvedSource d w' = resolvedSource d w.
Proof. unfold resolvedSource. by intros ->. Qed.

Lemma GetShaderSource_files d w : vfs (GetShaderSource d w).2 = vfs w.
Proof.
  rewrite GetShaderSource_world. by destruct (sourceMissing d w).
Qed.

Lemma GetShaderSource_calls d w : calls (GetShaderSource d w).2 = calls w.
Proof.
  rewrite GetShaderSource_world. by destruct (sourceMissing d w).
Qed.

Lemma ReloadFromTextOrFile_result so w :
  (ReloadFromTextOrFile so w).1.2 = set_srcText (resolvedSource (srcData so) w) so
  ∧ (ReloadFromTextOrFile so w).1.1
    = negb (String.eqb (resolvedSource (srcData so) w) (srcText so))
  ∧ (ReloadFromTextOrFile so w).2 = (GetShaderSource (srcData so) w).2.
Proof.
  unfold ReloadFromTextOrFile.
  pose proof (GetShaderSource_resolved (srcData so) w) as Hr.
  destruct (GetShaderSource (srcData so) w) as [newText w1]. simpl in Hr.
  subst newText.
  destruct (String.eqb _ _) eqn:E; cbn; [|done].
  apply String.eqb_eq in E. rewrite E. by destruct so.
Qed.

Lemma sourceMissing_same_files d w w' :
  vfs w' = vfs w → sourceMissing d w' = sourceMissing d w.
Proof. unfold sourceMissing. by intros ->. Qed.

(** X4: reloading a shader object a second time, right after a reload,
    reports no change and leaves the object as it is.  The world is left as
    it is too, unless the file is missing: then the call logs the not-found
    error once more.  The first reload sets the text to what the descriptor
    resolves to and touches no other member. *)
Theorem ReloadFromTextOrFile_twice (so : IShaderObject) (w : World) :
  let '(changed, so1, w1) := ReloadFromTextOrFile so w in
  ReloadFromTextOrFile so1 w1
  = (false, so1,
     if sourceMissing (srcData so) w then
       LOG_L L_ERROR
         ("[GetShaderSource] file " ++ Str.dquote ++ ("shaders/" ++ srcData so)
            ++ Str.dquote ++ " not found") w1
     else w1)
  ∧ srcText so1 = resolvedSource (srcData so) w
  ∧ srcData so1 = srcData so
  ∧ rawDefStrs so1 = rawDefStrs so
  ∧ modDefStrs so1 = modDefStrs so
  ∧ type so1 = type so.
Proof.
  destruct (ReloadFromTextOrFile_result so w) as (Hso & Hc & Hw).
  destruct (ReloadFromTextOrFile so w) as [[changed so1] w1].
  cbn [fst snd] in *. subst so1 w1.
  split; [|done].
  destruct (ReloadFromTextOrFile_result
              (set_srcText (resolvedSource (srcData so) w) so)
              (GetShaderSource (srcData so) w).2) as (Hso2 & Hc2 & Hw2).
  destruct (ReloadFromTextOrFile _ (GetShaderSource (srcData so) w).2)
    as [[c2 so2] w2]. cbn [fst snd] in *.
  cbn [srcData set_srcText srcText] in Hso2, Hc2, Hw2.
  rewrite (resolvedSource_same_files _ _ _ (GetShaderSource_files _ _))
    in Hso2, Hc2.
  rewrite String.eqb_refl in Hc2.
  rewrite GetShaderSource_world in Hw2.
  rewrite (sourceMissing_same_files _ _ _ (GetShaderSource_files _ _)) in Hw2.
  subst. reflexivity.
Qed.

Lemma reloadEach_result sos w :
  (reloadEach sos w).1
  = (λ so, set_srcText (resolvedSource (srcData so) w) so) <$> sos
  ∧ vfs (reloadEach sos w).2 = vfs w
  ∧ UseShaderCache (reloadEach sos w).2 = UseShaderCache w
  ∧ shaderCache (reloadEach sos w).2 = shaderCache w
  ∧ calls (reloadEach sos w).2 = calls w.
Proof.
  revert w. induction sos as [|so sos IH]; intros w; [done|].
  cbn [reloadEach].
  destruct (ReloadFromTextOrFile_result so w) as (Hso & _ & Hw).
  destruct (ReloadFromTextOrFile so w) as [[c so1] w1]. cbn [fst snd] in *.
  specialize (IH w1).
  destruct (reloadEach sos w1) as [sos1 w2]. cbn [fst snd] in *.
  destruct IH as (Hs & Hv & Hu & Hc & Hk). subst so1 w1.
  rewrite GetShaderSource_world in *.
  split.
  - rewrite fmap_cons. f_equal. rewrite Hs. apply list_fmap_ext.
    intros i x _. cbn. f_equal. apply resolvedSource_same_files.
    by destruct (sourceMissing _ _).
  - rewrite Hv, Hu, Hc, Hk. by destruct (sourceMissing _ _).
Qed.

(** X5: [ReloadShaderObjects] sets the text of every shader object to
    what its descriptor resolves to in the files as they were before the
    call, keeps their number and order, makes no driver call and leaves the
    cache alone. *)
Theorem ReloadShaderObjects_resolves_each (po : ProgramObject) (w : World) :
  let '(po', w') := ReloadShaderObjects po w in
  shaderObjs po'
  = (λ so, set_srcText (resolvedSource (srcData so) w) so) <$> shaderObjs po
  ∧ length (shaderObjs po') = length (shaderObjs po)
  ∧ uniformStates po' = uniformStates po
  ∧ glid po' = glid po ∧ valid po' = valid po
  ∧ vfs w' = vfs w ∧ shaderCache w' = shaderCache w ∧ calls w' = calls w.
Proof.
  unfold ReloadShaderObjects.
  destruct (reloadEach_result (shaderObjs po) w) as (Hs & Hv & _ & Hc & Hk).
  destruct (reloadEach (shaderObjs po) w) as [sos w1]. cbn [fst snd] in *.
  cbn. rewrite Hs, length_fmap. done.
Qed.


Lemma combinedHash_flags flags sos :
  combinedHash flags sos = Z.lxor flags (combinedHash 0 sos).
Proof.
  unfold combinedHash. revert flags.
  induction sos as [|so sos IH]; intros flags; cbn [fold_left].
  - by rewrite Z.lxor_0_r.
  - rewrite (IH (Z.lxor flags _)), (IH (Z.lxor 0 _)).
    rewrite Z.lxor_0_l. by rewrite Z.lxor_assoc.
Qed.

Lemma combinedHash_cons flags so sos :
  combinedHash flags (so :: sos) = Z.lxor (GetHash so) (combinedHash flags sos).
Proof.
  unfold combinedHash at 1. cbn [fold_left]. fold (combinedHash (Z.lxor flags (GetHash so)) sos).
  rewrite combinedHash_flags, (combinedHash_flags flags sos).
  rewrite (Z.lxor_comm flags (GetHash so)). by rewrite Z.lxor_assoc.
Qed.

Lemma RecalculateShaderHash_hash po :
  hash (RecalculateShaderHash po)
  = combinedHash (flagsHash (flagText (shaderFlags po))) (shaderObjs po).
Proof. reflexivity. Qed.

(** X6: the program hash does not depend on the order of the shader
    objects, and attaching the same shader object twice cancels out: the
    hash is that of the program without the pair. *)
Theorem program_hash_ignores_order (po : ProgramObject)
    (sos sos' : list IShaderObject) (so : IShaderObject) :
  (sos ≡ₚ sos' →
   hash (RecalculateShaderHash (set_shaderObjs sos po))
   = hash (RecalculateShaderHash (set_shaderObjs sos' po)))
  ∧ hash (RecalculateShaderHash (set_shaderObjs (so :: so :: sos) po))
    = hash (RecalculateShaderHash (set_shaderObjs sos po)).
Proof.
  rewrite !RecalculateShaderHash_hash. cbn [shaderObjs shaderFlags set_shaderObjs].
  generalize (flagsHash (flagText (shaderFlags po))) as flags. intros flags.
  split.
  - intros Hperm. induction Hperm as [|x l l' _ IH|x y l|l1 l2 l3 _ IH1 _ IH2].
    + reflexivity.
    + by rewrite !combinedHash_cons, IH.
    + rewrite !combinedHash_cons. rewrite <- !Z.lxor_assoc.
      by rewrite (Z.lxor_comm (GetHash y)).
    + by rewrite IH1.
  - rewrite !combinedHash_cons. rewrite <- Z.lxor_assoc.
    by rewrite Z.lxor_nilpotent, Z.lxor_0_l.
Qed.

(** X7: after any [Reload] the stored hash is the hash of the flag text
    combined with the hashes of the shader objects the program then holds,
    the flag text is unchanged, every shader object carries it as its
    modifiable definitions, and no shader object was added or dropped. *)
Theorem Reload_hash_invariant force validate (po : ProgramObject) (w : World) :
  let po' := (Reload force validate po w).1 in
  hash po'
  = combinedHash (flagsHash (flagText (shaderFlags po'))) (shaderObjs po')
  ∧ flagText (shaderFlags po') = flagText (shaderFlags po)
  ∧ Forall (λ so, modDefStrs so = flagText (shaderFlags po)) (shaderObjs po')
  ∧ length (shaderObjs po') = length (shaderObjs po).
Proof.
  intros po'.
  pose proof (Reload_framed force validate po w) as Hf.
  fold po' in Hf.
  set (b := force || negb (valid po) || (glid po =? 0)) in *.
  rewrite (fr_hash _ _ Hf), (fr_objs _ _ Hf), (fr_flags _ _ Hf).
  rewrite ReloadState_flags. cbn [flagText].
  unfold ReloadState, ReloadShaderObjects. cbv zeta.
  destruct b.
  - destruct (reloadEach_result
                (shaderObjs (SetShaderDefinitions
                   (GetString (shaderFlags (ClearUniformLocations (set_log "" po))))
                   (ClearUniformLocations (set_log "" po)))) w) as (Hs & _).
    destruct (reloadEach _ w) as [sos w1]. cbn [fst snd] in *.
    cbn in Hs |- *. subst sos. split; [reflexivity|]. split; [reflexivity|].
    split; [|by rewrite !length_fmap].
    apply Forall_fmap, Forall_fmap, Forall_true. done.
  - cbn. split; [reflexivity|]. split; [reflexivity|].
    split; [|by rewrite length_fmap]. apply Forall_fmap, Forall_true. done.
Qed.

(** X8: [Reload] reads the sources again only when forced, or when the
    program was invalid or had no handle; otherwise the texts stay as they
    were, whatever the files hold by now. *)
Theorem Reload_rereads_sources_only_when_forced force validate
    (po : ProgramObject) (w : World) :
  let flags := flagText (shaderFlags po) in
  shaderObjs (Reload force validate po w).1
  = (if force || negb (valid po) || (glid po =? 0)
     then (λ so, set_srcText (resolvedSource (srcData so) w)
                   (SetDefinitions flags so)) <$> shaderObjs po
     else SetDefinitions flags <$> shaderObjs po)
  ∧ (force = false → valid po = true → glid po ≠ 0 →
     srcText <$> shaderObjs (Reload force validate po w).1
     = srcText <$> shaderObjs po).
Proof.
  intros flags.
  pose proof (Reload_framed force validate po w) as Hf.
  assert (Hobjs : shaderObjs (Reload force validate po w).1
    = (if force || negb (valid po) || (glid po =? 0)
       then (λ so, set_srcText (resolvedSource (srcData so) w)
                     (SetDefinitions flags so)) <$> shaderObjs po
       else SetDefinitions flags <$> shaderObjs po)).
  { rewrite (fr_objs _ _ Hf).
    unfold ReloadState, ReloadShaderObjects. cbv zeta.
    destruct (force || negb (valid po) || (glid po =? 0)); [|reflexivity].
    destruct (reloadEach_result
                (shaderObjs (SetShaderDefinitions
                   (GetString (shaderFlags (ClearUniformLocations (set_log "" po))))
                   (ClearUniformLocations (set_log "" po)))) w) as (Hs & _).
    destruct (reloadEach _ w) as [sos w1]. cbn [fst snd] in *.
    cbn in Hs |- *. subst sos. rewrite <- list_fmap_compose. reflexivity. }
  split; [exact Hobjs|].
  intros -> Hv Hg. rewrite Hobjs, Hv.
  replace (glid po =? 0) with false by (symmetry; lia). cbn [orb negb].
  rewrite <- list_fmap_compose. reflexivity.
Qed.

(** *** Calls into the driver *)

Lemma extendsBy_refl p w : extendsBy p w w.
Proof. repeat split. by exists []. Qed.

Lemma extendsBy_trans p w1 w2 w3 :
  extendsBy p w1 w2 → extendsBy p w2 w3 → extendsBy p w1 w3.
Proof.
  intros (Hv1 & Hu1 & Hc1 & a1 & Ha1 & Hp1) (Hv2 & Hu2 & Hc2 & a2 & Ha2 & Hp2).
  split; [congruence|]. split; [congruence|]. split; [congruence|].
  exists (a2 ++ a1)%list. split.
  - rewrite Ha2, Ha1. by rewrite app_assoc.
  - rewrite forallb_app. by rewrite Hp1, Hp2.
Qed.

Lemma extendsBy_weaken (p q : GLCall → bool) w w' :
  (∀ c, p c = true → q c = true) → extendsBy p w w' → extendsBy q w w'.
Proof.
  intros Hpq (Hv & Hu & Hc & a & Ha & Hp).
  repeat (split; [done|]). exists a. split; [done|].
  apply forallb_forall. intros c Hin. apply Hpq.
  by apply (proj1 (forallb_forall p a) Hp).
Qed.

Lemma extendsBy_gl (p : GLCall → bool) c w :
  p c = true → extendsBy p w (gl c w).
Proof.
  intros Hp. repeat (split; [done|]). exists [c]. split; [done|].
  cbn. by rewrite Hp.
Qed.

Lemma extendsBy_then_gl (p : GLCall → bool) c w w1 :
  p c = true → extendsBy p w w1 → extendsBy p w (gl c w1).
Proof.
  intros Hp Hw. eapply extendsBy_trans; [exact Hw | by apply extendsBy_gl].
Qed.

Lemma extendsBy_emit p d w : extendsBy p w (emit d w).
Proof. repeat (split; [done|]). by exists []. Qed.

Lemma extendsBy_assert p c e w : extendsBy p w (assert c e w).
Proof. destruct c; [apply extendsBy_refl | apply extendsBy_emit]. Qed.

Lemma extendsBy_glslIsValid p obj w : extendsBy p w (glslIsValid obj w).2.
Proof. apply extendsBy_assert. Qed.

Lemma extendsBy_glslGetLog p obj w : extendsBy p w (glslGetLog obj w).2.
Proof. apply extendsBy_assert. Qed.

Lemma countCalls_extendsBy (p q : GLCall → bool) w w' :
  (∀ c, p c = true → q c = false) →
  extendsBy p w w' → countCalls q w' = countCalls q w.
Proof.
  intros Hpq (_ & _ & _ & a & Ha & Hp). unfold countCalls. rewrite Ha.
  rewrite List.filter_app, length_app.
  assert (Hnil : List.filter q a = []).
  { clear Ha. induction a as [|c a IH]; [done|]. cbn in Hp |- *.
    apply andb_true_iff in Hp as [Hc Hp]. rewrite (Hpq c Hc). by apply IH. }
  by rewrite Hnil.
Qed.

Lemma countCalls_gl q c w :
  countCalls q (gl c w) = ((if q c then 1 else 0) + countCalls q w)%nat.
Proof. unfold countCalls. cbn. by destruct (q c). Qed.

Lemma countCalls_same_calls q w w' :
  calls w' = calls w → countCalls q w' = countCalls q w.
Proof. unfold countCalls. by intros ->. Qed.

Lemma extendsBy_CreateAndCompileShaderObject so programLog w :
  extendsBy (λ c, isBuildCall c || isDeleteShader c) w
    (CreateAndCompileShaderObject so programLog w).2.
Proof.
  set (p := λ c, isBuildCall c || isDeleteShader c).
  unfold CreateAndCompileShaderObject. cbv zeta.
  set (w0 := assert _ _ w).
  set (w3 := gl (glCompileShader _) _).
  assert (H03 : extendsBy p w w3).
  { unfold w3. do 3 (apply extendsBy_then_gl; [reflexivity|]).
    apply extendsBy_assert. }
  pose proof (extendsBy_glslIsValid p
                (drvCreateShader (calls w0) (type so)) w3) as H4.
  destruct (glslIsValid _ w3) as [ok w4]. cbn [snd] in H4.
  destruct (negb ok); cbn [snd].
  - pose proof (extendsBy_glslGetLog p
                  (drvCreateShader (calls w0) (type so)) w4) as H5.
    destruct (glslGetLog _ w4) as [l w5]. cbn [snd] in *.
    apply extendsBy_then_gl; [reflexivity|].
    eapply extendsBy_trans; [exact H03|]. eapply extendsBy_trans; [exact H4|].
    eapply extendsBy_trans; [exact H5|].
    eapply extendsBy_trans; apply extendsBy_emit.
  - apply extendsBy_then_gl; [reflexivity|].
    eapply extendsBy_trans; [exact H03 | exact H4].
Qed.


Lemma countCalls_CreateAndCompileShaderObject q so programLog w :
  countCalls q (CreateAndCompileShaderObject so programLog w).2
  = ((if q (glDeleteShader (movedFromId (drvCreateShader (calls w) (type so))))
      then 1 else 0)
     + ((if q (glCompileShader (drvCreateShader (calls w) (type so)))
         then 1 else 0)
        + ((if q (glShaderSource (drvCreateShader (calls w) (type so))
                    (assembledSources so)) then 1 else 0)
           + ((if q (glCreateShader (type so)) then 1 else 0)
              + countCalls q w))))%nat.
Proof.
  unfold countCalls. rewrite CreateAndCompileShaderObject_calls. cbn.
  repeat match goal with |- context [if ?b then _ else _] => destruct b end;
    cbn; lia.
Qed.

Lemma compileAndAttach_counts sos progID shadersValid programLog w :
  let r := compileAndAttach sos progID shadersValid programLog w in
  countCalls isCompile r.2 = (countCalls isCompile w + length sos)%nat
  ∧ countCalls isCreateShader r.2 = (countCalls isCreateShader w + length sos)%nat
  ∧ countCalls isDeleteShader r.2
    = (countCalls isDeleteShader w + 3 * length sos)%nat
  ∧ countCalls isLink r.2 = countCalls isLink w
  ∧ countCalls isCreateProgram r.2 = countCalls isCreateProgram w
  ∧ (countCalls isAttach r.2 ≤ countCalls isAttach w + length sos)%nat
  ∧ (r.1.1 = true →
     shadersValid = true
     ∧ countCalls isAttach r.2 = (countCalls isAttach w + length sos)%nat).
Proof.
  revert shadersValid programLog w.
  induction sos as [|so sos IH]; intros sv l w.
  { cbn. do 6 (split; [lia|]). intros ->. split; [done | lia]. }
  cbn [compileAndAttach].
  pose proof (λ q, countCalls_CreateAndCompileShaderObject q so l w) as Hq.
  destruct (CreateAndCompileShaderObject so l w) as [[cso l1] w1].
  cbn [snd] in Hq. cbv zeta.
  destruct (negb (cso_valid cso)).
  - specialize (IH false l1
                  (gl (glDeleteShader (cso_id cso))
                     (gl (glDeleteShader (movedFromId (cso_id cso))) w1))).
    cbv zeta in IH. destruct IH as (I1 & I2 & I3 & I4 & I5 & I6 & I7).
    rewrite !countCalls_gl, !Hq in *. cbn [isCompile isCreateShader isDeleteShader
      isLink isCreateProgram isAttach length] in *.
    do 6 (split; [lia|]). intros Ht. by destruct (I7 Ht).
  - specialize (IH sv l1
                  (gl (glDeleteShader (cso_id cso))
                     (gl (glAttachShader progID (cso_id cso))
                        (gl (glDeleteShader (movedFromId (cso_id cso))) w1)))).
    cbv zeta in IH. destruct IH as (I1 & I2 & I3 & I4 & I5 & I6 & I7).
    rewrite !countCalls_gl, !Hq in *. cbn [isCompile isCreateShader isDeleteShader
      isLink isCreateProgram isAttach length] in *.
    do 6 (split; [lia|]). intros Ht. destruct (I7 Ht). split; [done | lia].
Qed.


Lemma glslGetLog_calls obj w : calls (glslGetLog obj w).2 = calls w.
Proof. apply calls_assert. Qed.

Lemma glslIsValid_calls obj w : calls (glslIsValid obj w).2 = calls w.
Proof. apply calls_assert. Qed.

Lemma CreateAndLink_counts (po : ProgramObject) (w : World) :
  drvCreateProgram (calls w) ≠ 0 →
  let r := CreateAndLink po w in
  countCalls isCompile r.2
  = (countCalls isCompile w + length (shaderObjs po))%nat
  ∧ countCalls isCreateShader r.2
    = (countCalls isCreateShader w + length (shaderObjs po))%nat
  ∧ countCalls isDeleteShader r.2
    = (countCalls isDeleteShader w + 3 * length (shaderObjs po))%nat
  ∧ countCalls isCreateProgram r.2 = S (countCalls isCreateProgram w)
  ∧ glid r.1.2 = drvCreateProgram (calls w)
  ∧ (countCalls isLink r.2 ≤ S (countCalls isLink w))%nat
  ∧ (r.1.1 = true →
     countCalls isLink r.2 = S (countCalls isLink w)
     ∧ countCalls isAttach r.2
       = (countCalls isAttach w + length (shaderObjs po))%nat)
  ∧ (∀ so, so ∈ shaderObjs po → failsToCompile so →
     r.1.1 = false ∧ countCalls isLink r.2 = countCalls isLink w).
Proof.
  intros Hcreate. unfold CreateAndLink. cbv zeta. rewrite calls_assert.
  cbn [glid set_glid shaderObjs log].
  replace (drvCreateProgram (calls w) =? 0) with false by (symmetry; lia).
  set (w0 := gl glCreateProgram _).
  assert (H0 : ∀ q, countCalls q w0
                    = ((if q glCreateProgram then 1 else 0) + countCalls q w)%nat).
  { intros q. unfold w0. rewrite countCalls_gl. f_equal.
    apply countCalls_same_calls, calls_assert. }
  pose proof (compileAndAttach_counts (shaderObjs po)
                (drvCreateProgram (calls w)) true (log po) w0) as Hc.
  pose proof (λ so Hin Hf, compileAndAttach_failure (shaderObjs po) so
                (drvCreateProgram (calls w)) true (log po) w0 Hin Hf) as Hfail.
  destruct (compileAndAttach _ _ _ _ w0) as [[sv l] w1]. cbn [fst snd] in Hc, Hfail.
  cbv zeta in Hc. destruct Hc as (C1 & C2 & C3 & C4 & C5 & C6 & C7).
  rewrite !H0 in *. cbn [isCompile isCreateShader isDeleteShader isLink
    isCreateProgram isAttach] in *.
  destruct sv; cbn [negb fst snd glid set_log set_glid].
  - set (w2 := gl (glLinkProgram _) w1).
    pose proof (glslGetLog_calls (drvCreateProgram (calls w)) w2) as Ha1.
    destruct (glslGetLog _ w2) as [ll w3]. cbn [snd] in *.
    pose proof (glslIsValid_calls (drvCreateProgram (calls w)) w3) as Ha2.
    destruct (glslIsValid _ w3) as [ok w4]. cbn [fst snd] in *.
    assert (Hq : ∀ q, countCalls q w4
              = ((if q (glLinkProgram (drvCreateProgram (calls w))) then 1 else 0)
                 + countCalls q w1)%nat).
    { intros q. etrans; [apply (countCalls_same_calls q w2); congruence|].
      apply countCalls_gl. }
    rewrite !Hq. cbn [isCompile isCreateShader isDeleteShader isLink
      isCreateProgram isAttach glid set_log set_glid].
    destruct (C7 eq_refl) as [_ C8].
    do 5 (split; [lia || reflexivity|]). split; [lia|]. split.
    + intros _. split; lia.
    + intros so Hin Hf. by specialize (Hfail so Hin Hf).
  - do 5 (split; [lia || reflexivity|]). split; [lia|]. split; [done|].
    intros so Hin Hf. split; [reflexivity | lia].
Qed.

(** X9: when the driver hands out a program handle, [CreateAndLink]
    creates one program and, for each shader object, creates and compiles
    exactly one shader and calls [glDeleteShader] exactly three times, also
    for those that fail to compile: once for the local object and once for
    the temporary that [std::move] leaves behind, and once for the loop
    variable. *)
Theorem CreateAndLink_compiles_each_once (po : ProgramObject) (w : World) :
  drvCreateProgram (calls w) ≠ 0 →
  let '(ok, po', w') := CreateAndLink po w in
  countCalls isCompile w'
  = (countCalls isCompile w + length (shaderObjs po))%nat
  ∧ countCalls isCreateShader w'
    = (countCalls isCreateShader w + length (shaderObjs po))%nat
  ∧ countCalls isDeleteShader w'
    = (countCalls isDeleteShader w + 3 * length (shaderObjs po))%nat
  ∧ countCalls isCreateProgram w' = S (countCalls isCreateProgram w)
  ∧ glid po' = drvCreateProgram (calls w).
Proof.
  intros Hcreate. pose proof (CreateAndLink_counts po w Hcreate) as Hc.
  destruct (CreateAndLink po w) as [[ok po'] w']. cbv zeta in Hc.
  cbn [fst snd] in Hc. destruct Hc as (C1 & C2 & C3 & C4 & C5 & _). done.
Qed.

(** X10: [CreateAndLink] links only complete programs: on success it
    linked once and attached every shader; if any shader object fails to
    compile it reports failure and never calls the linker. *)
Theorem CreateAndLink_links_only_complete_programs (po : ProgramObject)
    (w : World) :
  drvCreateProgram (calls w) ≠ 0 →
  let '(ok, po', w') := CreateAndLink po w in
  (ok = true →
   countCalls isLink w' = S (countCalls isLink w)
   ∧ countCalls isAttach w'
     = (countCalls isAttach w + length (shaderObjs po))%nat)
  ∧ (∀ so, so ∈ shaderObjs po → failsToCompile so →
     ok = false ∧ countCalls isLink w' = countCalls isLink w).
Proof.
  intros Hcreate. pose proof (CreateAndLink_counts po w Hcreate) as Hc.
  destruct (CreateAndLink po w) as [[ok po'] w']. cbv zeta in Hc.
  cbn [fst snd] in Hc. destruct Hc as (_ & _ & _ & _ & _ & _ & C7 & C8). done.
Qed.


Lemma extendsBy_compileAndAttach sos progID shadersValid programLog w :
  extendsBy (λ c, isBuildCall c || isDeleteShader c) w
    (compileAndAttach sos progID shadersValid programLog w).2.
Proof.
  revert shadersValid programLog w.
  induction sos as [|so sos IH]; intros sv l w; [apply extendsBy_refl|].
  cbn [compileAndAttach].
  pose proof (extendsBy_CreateAndCompileShaderObject so l w) as Hc.
  destruct (CreateAndCompileShaderObject so l w) as [[cso l1] w1].
  cbn [snd] in Hc. cbv zeta.
  destruct (negb (cso_valid cso)).
  - eapply extendsBy_trans; [|apply IH].
    do 2 (apply extendsBy_then_gl; [done|]). exact Hc.
  - eapply extendsBy_trans; [|apply IH].
    do 3 (apply extendsBy_then_gl; [done|]). exact Hc.
Qed.

Lemma extendsBy_CreateAndLink po w :
  extendsBy (λ c, isBuildCall c || isDeleteShader c) w (CreateAndLink po w).2.
Proof.
  unfold CreateAndLink. cbv zeta.
  set (w0 := gl glCreateProgram _).
  assert (H0 : extendsBy (λ c, isBuildCall c || isDeleteShader c) w w0).
  { unfold w0. apply extendsBy_then_gl; [done|]. apply extendsBy_assert. }
  destruct (glid (set_glid _ po) =? 0); [exact H0|].
  pose proof (extendsBy_compileAndAttach (shaderObjs (set_glid (drvCreateProgram
                (calls (assert (glid po =? 0) "glid == 0" w))) po))
                (glid (set_glid (drvCreateProgram
                (calls (assert (glid po =? 0) "glid == 0" w))) po)) true
                (log (set_glid (drvCreateProgram
                (calls (assert (glid po =? 0) "glid == 0" w))) po)) w0) as H1.
  destruct (compileAndAttach _ _ _ _ w0) as [[sv l] w1]. cbn [snd] in H1.
  destruct (negb sv); cbn [snd]; [by eapply extendsBy_trans|].
  set (w2 := gl (glLinkProgram _) w1).
  pose proof (extendsBy_glslGetLog (λ c, isBuildCall c || isDeleteShader c)
                (glid (set_log l (set_glid (drvCreateProgram
                   (calls (assert (glid po =? 0) "glid == 0" w))) po))) w2) as H3.
  destruct (glslGetLog _ w2) as [ll w3]. cbn [snd] in H3.
  match goal with
  | |- context [glslIsValid ?g w3] =>
      pose proof (extendsBy_glslIsValid
                    (λ c, isBuildCall c || isDeleteShader c) g w3) as H4;
      destruct (glslIsValid g w3) as [ok w4]
  end.
  cbn [snd] in *.
  eapply extendsBy_trans; [exact H0|]. eapply extendsBy_trans; [exact H1|].
  eapply extendsBy_trans; [|exact H4]. eapply extendsBy_trans; [|exact H3].
  by apply extendsBy_gl.
Qed.

Lemma CreateAndLink_keeps po w :
  uniformStates (CreateAndLink po w).1.2 = uniformStates po
  ∧ valid (CreateAndLink po w).1.2 = valid po.
Proof.
  unfold CreateAndLink. cbv zeta.
  destruct (glid (set_glid _ po) =? 0); [done|].
  destruct (compileAndAttach _ _ _ _ _) as [[sv l] w1].
  destruct (negb sv); [done|].
  destruct (glslGetLog _ _) as [ll w3]. destruct (glslIsValid _ _) as [ok w4].
  done.
Qed.

Lemma Validate_result po w :
  (Validate po w).1.1
  = negb (drvValidateStatus (glValidateProgram (glid po) :: calls w) (glid po) =? 0)
  ∧ uniformStates (Validate po w).1.2 = uniformStates po
  ∧ glid (Validate po w).1.2 = glid po
  ∧ valid (Validate po w).1.2 = valid po
  ∧ extendsBy isValidateCall w (Validate po w).2.
Proof.
  unfold Validate. cbv zeta.
  set (w1 := gl (glValidateProgram (glid po)) w).
  pose proof (extendsBy_glslGetLog isValidateCall (glid po) w1) as Hl.
  destruct (glslGetLog (glid po) w1) as [l w2]. cbn [fst snd] in *.
  repeat (split; [done|]).
  eapply extendsBy_trans; [|exact Hl]. by apply extendsBy_gl.
Qed.

Lemma extendsBy_copyUniform tgt src m w name :
  extendsBy isUniformWrite w (copyUniform tgt src (m, w) name).2.
Proof.
  unfold copyUniform. cbv zeta. cbn [snd].
  match goal with
  | |- extendsBy _ _ (match ?v with Some _ => _ | None => _ end) => destruct v
  end; [|apply extendsBy_refl].
  match goal with
  | |- extendsBy _ _ (if ?b then _ else _) => destruct b
  end; [by apply extendsBy_gl | apply extendsBy_refl].
Qed.

Lemma extendsBy_fold_copyUniform tgt src names m w :
  extendsBy isUniformWrite w (fold_left (copyUniform tgt src) names (m, w)).2.
Proof.
  revert m w. induction names as [|name names IH]; intros m w;
    [apply extendsBy_refl|].
  cbn [fold_left]. pose proof (extendsBy_copyUniform tgt src m w name) as Hs.
  destruct (copyUniform tgt src (m, w) name) as [m1 w1]. cbn [snd] in Hs.
  eapply extendsBy_trans; [exact Hs | apply IH].
Qed.

Lemma extendsBy_GLSLCopyState tgt src m w :
  extendsBy isUniformWrite w (GLSLCopyState tgt src m w).2.
Proof. apply extendsBy_fold_copyUniform. Qed.

Lemma ValidateAndCopyUniforms_result tgt src validate po w :
  let r := ValidateAndCopyUniforms tgt src validate po w in
  glid r.1.2 = glid po
  ∧ valid r.1.2 = valid po
  ∧ extendsBy (λ c, isValidateCall c || isUniformWrite c) w r.2
  ∧ (r.1.1 = false → uniformStates r.1.2 = uniformStates po)
  ∧ r.1.1
    = (if validate
       then negb (drvValidateStatus (glValidateProgram (glid po) :: calls w)
                    (glid po) =? 0)
       else valid po).
Proof.
  unfold ValidateAndCopyUniforms. cbv zeta.
  assert (Hv : let r := (if validate then Validate po w else (valid po, po, w)) in
               r.1.1 = (if validate
                        then negb (drvValidateStatus
                                     (glValidateProgram (glid po) :: calls w)
                                     (glid po) =? 0)
                        else valid po)
               ∧ uniformStates r.1.2 = uniformStates po
               ∧ glid r.1.2 = glid po ∧ valid r.1.2 = valid po
               ∧ extendsBy (λ c, isValidateCall c || isUniformWrite c) w r.2).
  { destruct validate; cbv zeta; cbn [fst snd].
    - destruct (Validate_result po w) as (V1 & V2 & V3 & V4 & V5).
      repeat (split; [done|]).
      eapply extendsBy_weaken; [|exact V5]. by intros c ->.
    - repeat (split; [done|]). apply extendsBy_refl. }
  destruct (if validate then _ else _) as [[iv po1] w1].
  cbv zeta in Hv. cbn [fst snd] in Hv. destruct Hv as (V1 & V2 & V3 & V4 & V5).
  destruct iv; cbn [fst snd].
  - pose proof (extendsBy_GLSLCopyState tgt src (uniformStates po1) w1) as Hc.
    destruct (GLSLCopyState _ _ _ _) as [m w2]. cbn [fst snd glid valid
      set_uniformStates] in *.
    repeat (split; [done|]). split; [|split; [done|exact V1]].
    eapply extendsBy_trans; [exact V5|].
    eapply extendsBy_weaken; [|exact Hc]. intros c ->. apply orb_true_r.
  - repeat (split; [done|]). split; [|split; [done|exact V1]].
    eapply extendsBy_trans; [exact V5|].
    destruct (negb (Str.empty (log po1)));
      [apply extendsBy_emit | apply extendsBy_refl].
Qed.

Lemma ReloadState_world b po w :
  extendsBy (λ _, false) w (ReloadState b po w).2
  ∧ uniformStates (ReloadState b po w).1.2
    = SetLocation GL_INVALID_INDEX <$> uniformStates po.
Proof.
  unfold ReloadState, ReloadShaderObjects. cbv zeta.
  destruct b; [|split; [apply extendsBy_refl | reflexivity]].
  match goal with
  | |- context [reloadEach ?l w] =>
      destruct (reloadEach_result l w) as (_ & Hv & Hu & Hc & Hk);
      destruct (reloadEach l w) as [sos w1]
  end.
  cbn [fst snd] in *. split; [|reflexivity].
  repeat (split; [done|]). exists []. by rewrite Hk.
Qed.


(** [Reload] with its intermediate results named. *)
Lemma Reload_eq force validate po w :
  let rs := ReloadState (force || negb (valid po) || (glid po =? 0)) po w in
  let useCache := valid po && UseShaderCache w in
  let cached := if useCache then Find (hash rs.1.2) rs.2 else 0 in
  let link := if negb (cached =? 0) then (true, set_glid cached rs.1.2, rs.2)
              else CreateAndLink (set_glid cached rs.1.2) rs.2 in
  let vc := if link.1.1
            then ValidateAndCopyUniforms (glid link.1.2)
                   (glid po * (if valid po then 1 else 0)) validate
                   link.1.2 link.2
            else (false, link.1.2, link.2) in
  let po5 := set_valid link.1.1 vc.1.2 in
  let push := if useCache then Push (hash po) (glid po) vc.2 else (false, vc.2) in
  Reload force validate po w
  = if negb rs.1.1 then (set_valid false rs.1.2, rs.2)
    else if useCache && push.1 then (po5, push.2)
    else if hash po5 =? hash po then (po5, push.2)
    else (po5, gl (glDeleteProgram (glid po)) push.2).
Proof.
  unfold Reload. cbv zeta.
  destruct (ReloadState _ po w) as [[ne po1] w1]. cbn [fst snd].
  destruct (negb ne); [reflexivity|].
  cbn [glid set_glid].
  destruct (if negb ((if valid po && UseShaderCache w then Find (hash po1) w1
                      else 0) =? 0) then _ else _) as [[updated po3] w3].
  cbn [fst snd]. destruct updated; cbn [fst snd].
  - destruct (ValidateAndCopyUniforms _ _ _ _ _) as [[r po4] w4]. cbn [fst snd].
    destruct (if valid po && UseShaderCache w then Push _ _ _ else _)
      as [pushed w6]. reflexivity.
  - destruct (if valid po && UseShaderCache w then Push _ _ _ else _)
      as [pushed w6]. reflexivity.
Qed.


Lemma Reload_program force validate po w :
  let rs := ReloadState (force || negb (valid po) || (glid po =? 0)) po w in
  let useCache := valid po && UseShaderCache w in
  let cached := if useCache then Find (hash rs.1.2) rs.2 else 0 in
  let link := if negb (cached =? 0) then (true, set_glid cached rs.1.2, rs.2)
              else CreateAndLink (set_glid cached rs.1.2) rs.2 in
  let vc := if link.1.1
            then ValidateAndCopyUniforms (glid link.1.2)
                   (glid po * (if valid po then 1 else 0)) validate
                   link.1.2 link.2
            else (false, link.1.2, link.2) in
  (Reload force validate po w).1
  = if negb rs.1.1 then set_valid false rs.1.2
    else set_valid link.1.1 vc.1.2.
Proof.
  cbv zeta. rewrite Reload_eq. cbv zeta.
  destruct (negb _); [reflexivity|].
  destruct (_ && _); [reflexivity|]. destruct (_ =? _); reflexivity.
Qed.

Lemma vc_facts (validate : bool) (link : bool * ProgramObject * World) src :
  let vc := if link.1.1
            then ValidateAndCopyUniforms (glid link.1.2) src validate
                   link.1.2 link.2
            else (false, link.1.2, link.2) in
  glid vc.1.2 = glid link.1.2
  ∧ extendsBy (λ c, isValidateCall c || isUniformWrite c) link.2 vc.2
  ∧ (vc.1.1 = false → uniformStates vc.1.2 = uniformStates link.1.2)
  ∧ (link.1.1 = true →
     vc.1.1 = (if validate
               then negb (drvValidateStatus
                            (glValidateProgram (glid link.1.2) :: calls link.2)
                            (glid link.1.2) =? 0)
               else valid link.1.2)).
Proof.
  cbv zeta. destruct link as [[ok po3] w3]. cbn [fst snd].
  destruct ok.
  - destruct (ValidateAndCopyUniforms_result (glid po3) src validate po3 w3)
      as (R1 & R2 & R3 & R4 & R5). cbv zeta in *. done.
  - cbn [fst snd]. repeat split; try done. apply extendsBy_refl.
Qed.

(** X11: validation does not decide validity.  The [valid] flag and the
    handle after [Reload] are the same whether or not validation was asked
    for. *)
Theorem Reload_validity_ignores_validation force (po : ProgramObject) (w : World) :
  valid (Reload force true po w).1 = valid (Reload force false po w).1
  ∧ glid (Reload force true po w).1 = glid (Reload force false po w).1.
Proof.
  rewrite !Reload_program. cbv zeta.
  set (rs := ReloadState _ po w).
  destruct (negb rs.1.1); [done|].
  set (link := if negb _ then _ else _).
  destruct (vc_facts true link (glid po * (if valid po then 1 else 0)))
    as (G1 & _).
  destruct (vc_facts false link (glid po * (if valid po then 1 else 0)))
    as (G2 & _).
  cbv zeta in G1, G2. cbn [valid glid set_valid].
  split; [reflexivity | congruence].
Qed.


Lemma SetLocation_invalid us :
  IsLocationValid (SetLocation GL_INVALID_INDEX us) = false.
Proof.
  unfold IsLocationValid, SetLocation. cbn [us_location].
  by rewrite Z.eqb_refl.
Qed.

Lemma allUnresolved_cleared (m : gmap Z UniformState) :
  allUnresolved (SetLocation GL_INVALID_INDEX <$> m).
Proof.
  intros key us Hl. rewrite lookup_fmap in Hl.
  destruct (m !! key) as [us0|]; simplify_eq/=. apply SetLocation_invalid.
Qed.

Lemma UniformState_Set_unresolved v us :
  IsLocationValid us = false → (UniformState_Set v us).1 = false.
Proof. intros Hl. unfold UniformState_Set. case_decide; [done | exact Hl]. Qed.

Lemma setters_write_nothing_when_unresolved po :
  allUnresolved (uniformStates po) →
  ∀ fn v w po2 w2,
    (∀ key, SetUniformVia fn key v po w = Some (po2, w2) → calls w2 = calls w)
    ∧ (∀ idx, SetUniformAt fn idx v po w = Some (po2, w2) → calls w2 = calls w).
Proof.
  intros Hall fn v w po2 w2. split.
  - intros key. unfold SetUniformVia. cbv zeta.
    destruct (uniformStates po !! key) as [us|] eqn:Hl; [|done].
    pose proof (UniformState_Set_unresolved v us (Hall _ _ Hl)) as Hs.
    destruct (UniformState_Set v us) as [write us1]. cbn [fst] in Hs. subst write.
    intros ?; simplify_eq. apply calls_assert.
  - intros idx. unfold SetUniformAt. cbv zeta.
    destruct (idx <? 0); [done|].
    destruct (uniformLocs po !! Z.to_nat idx) as [key|]; [|done].
    destruct (uniformStates po !! key) as [us|] eqn:Hl.
    + pose proof (UniformState_Set_unresolved v us (Hall _ _ Hl)) as Hs.
      destruct (UniformState_Set v us) as [write us1]. cbn [fst] in Hs.
      subst write. intros ?; simplify_eq. apply calls_assert.
    + intros ?; simplify_eq. apply calls_assert.
Qed.

Lemma ReloadState_valid b po w : valid (ReloadState b po w).1.2 = valid po.
Proof. by destruct (ReloadState_keeps b po w) as (_ & _ & Hv & _). Qed.

(** X12: when validation fails, or when none is asked for on a program
    that was invalid, [Reload] skips the copy of the uniforms: every uniform
    state keeps its value but has the not-found location, so no setter
    reaches the driver until a location is resolved again. *)
Theorem Reload_without_copy_leaves_uniforms_unresolved force validate
    (po : ProgramObject) (w : World) :
  (validate = true ∧ (∀ tr prog, drvValidateStatus tr prog = 0))
  ∨ (validate = false ∧ valid po = false) →
  let '(po', w') := Reload force validate po w in
  uniformStates po' = SetLocation GL_INVALID_INDEX <$> uniformStates po
  ∧ allUnresolved (uniformStates po')
  ∧ ∀ fn v w1 po2 w2,
      (∀ key, SetUniformVia fn key v po' w1 = Some (po2, w2) → calls w2 = calls w1)
      ∧ (∀ idx, SetUniformAt fn idx v po' w1 = Some (po2, w2) → calls w2 = calls w1).
Proof.
  intros Hskip.
  assert (Hst : uniformStates (Reload force validate po w).1
                = SetLocation GL_INVALID_INDEX <$> uniformStates po).
  { rewrite Reload_program. cbv zeta.
    set (rs := ReloadState _ po w).
    destruct (ReloadState_world (force || negb (valid po) || (glid po =? 0)) po w)
      as [_ Hcl]. fold rs in Hcl.
    destruct (negb rs.1.1); [exact Hcl|].
    set (link := if negb _ then _ else _).
    assert (Hlink : uniformStates link.1.2 = uniformStates rs.1.2
                    ∧ valid link.1.2 = valid po).
    { unfold link. destruct (negb (_ =? 0)); cbn [fst snd].
      - split; [reflexivity|]. apply ReloadState_valid.
      - match goal with
        | |- context [CreateAndLink ?p ?x] =>
            destruct (CreateAndLink_keeps p x) as [K1 K2]
        end.
        split; [exact K1|]. rewrite K2. apply ReloadState_valid. }
    destruct Hlink as [L1 L2].
    destruct (vc_facts validate link (glid po * (if valid po then 1 else 0)))
      as (_ & _ & V3 & V4). cbv zeta in V3, V4.
    cbn [uniformStates set_valid].
    rewrite V3; [by rewrite L1|].
    destruct (link.1.1) eqn:El; [|reflexivity].
    rewrite (V4 eq_refl).
    destruct Hskip as [[-> Hdrv]|[-> Hv]].
    - by rewrite Hdrv.
    - by rewrite L2. }
  destruct (Reload force validate po w) as [po' w']. cbn [fst] in Hst.
  split; [exact Hst|].
  assert (Hall : allUnresolved (uniformStates po')).
  { rewrite Hst. apply allUnresolved_cleared. }
  split; [exact Hall|]. by apply setters_write_nothing_when_unresolved.
Qed.


Lemma Reload_world force validate po w :
  let rs := ReloadState (force || negb (valid po) || (glid po =? 0)) po w in
  let useCache := valid po && UseShaderCache w in
  let cached := if useCache then Find (hash rs.1.2) rs.2 else 0 in
  let link := if negb (cached =? 0) then (true, set_glid cached rs.1.2, rs.2)
              else CreateAndLink (set_glid cached rs.1.2) rs.2 in
  let vc := if link.1.1
            then ValidateAndCopyUniforms (glid link.1.2)
                   (glid po * (if valid po then 1 else 0)) validate
                   link.1.2 link.2
            else (false, link.1.2, link.2) in
  let push := if useCache then Push (hash po) (glid po) vc.2 else (false, vc.2) in
  let w' := (Reload force validate po w).2 in
  if negb rs.1.1 then w' = rs.2
  else w' = push.2 ∨ w' = gl (glDeleteProgram (glid po)) push.2.
Proof.
  cbv zeta. rewrite Reload_eq. cbv zeta.
  destruct (negb (ReloadState _ po w).1.1); [reflexivity|].
  destruct (_ && (if valid po && UseShaderCache w then Push _ _ _ else _).1);
    [by left|].
  destruct (hash _ =? hash po); [by left | by right].
Qed.

Lemma Push_calls hc g w : calls (Push hc g w).2 = calls w.
Proof. unfold Push. by destruct (shaderCache w !! hc). Qed.

Lemma Push_cache hc g w :
  vfs (Push hc g w).2 = vfs w
  ∧ UseShaderCache (Push hc g w).2 = UseShaderCache w
  ∧ (shaderCache (Push hc g w).2 = shaderCache w
     ∨ (shaderCache w !! hc = None
        ∧ shaderCache (Push hc g w).2 = <[hc := g]> (shaderCache w))).
Proof.
  unfold Push. destruct (shaderCache w !! hc) eqn:E; cbn; [by auto|].
  split; [done|]. split; [done|]. by right.
Qed.

Lemma ReloadState_nonempty b po w :
  shaderObjs po ≠ [] → (ReloadState b po w).1.1 = true.
Proof.
  intros Hne.
  assert (Hr : (ReloadState b po w).1.1
               = negb (bool_decide (shaderObjs (ReloadState b po w).1.2 = []))).
  { unfold ReloadState. cbv zeta. by destruct (if b then _ else _). }
  rewrite Hr. apply negb_true_iff, bool_decide_eq_false_2.
  intros Hnil. by apply ReloadState_objs_nil in Hnil.
Qed.

(** X13: a valid program whose post-reload hash is in the cache takes the
    cached handle and becomes valid without creating a program, creating or
    compiling a shader, or linking. *)
Theorem Reload_reuses_cached_program force validate (po : ProgramObject)
    (w : World) (cachedProg : Z) :
  valid po = true →
  UseShaderCache w = true →
  shaderObjs po ≠ [] →
  shaderCache w
    !! hash (ReloadState (force || negb (valid po) || (glid po =? 0)) po w).1.2
  = Some cachedProg →
  cachedProg ≠ 0 →
  let '(po', w') := Reload force validate po w in
  glid po' = cachedProg
  ∧ valid po' = true
  ∧ countCalls isCreateProgram w' = countCalls isCreateProgram w
  ∧ countCalls isCreateShader w' = countCalls isCreateShader w
  ∧ countCalls isCompile w' = countCalls isCompile w
  ∧ countCalls isLink w' = countCalls isLink w.
Proof.
  pose proof (Reload_program force validate po w) as Hp.
  pose proof (Reload_world force validate po w) as Hw.
  pose proof (ReloadState_world (force || negb (valid po) || (glid po =? 0)) po w)
    as [Hrs _].
  pose proof (ReloadState_nonempty (force || negb (valid po) || (glid po =? 0)) po w)
    as Hne.
  cbv zeta in Hp, Hw. intros Hv Hu Hobjs Hcache Hnz.
  destruct (ReloadState _ po w) as [[ne po1] w1]. cbn [fst snd] in *.
  rewrite (Hne Hobjs) in *. cbn [negb] in *.
  rewrite Hv, Hu in *. cbn [andb] in *.
  assert (Hfind : Find (hash po1) w1 = cachedProg).
  { unfold Find. destruct Hrs as (_ & _ & -> & _). by rewrite Hcache. }
  rewrite Hfind in *.
  replace (cachedProg =? 0) with false in * by (symmetry; lia).
  cbn [negb fst snd] in *.
  destruct (ValidateAndCopyUniforms_result cachedProg (glid po * 1) validate
              (set_glid cachedProg po1) w1) as (R1 & _ & R3 & _).
  cbv zeta in R1, R3. cbn [glid set_glid] in *.
  destruct (Reload force validate po w) as [po' w']. cbn [fst snd] in *.
  subst po'. cbn [glid valid set_valid]. split; [exact R1|]. split; [done|].
  assert (Hcount : ∀ q, (∀ c, isBuildCall c = false → q c = false) →
            countCalls q w' = countCalls q w).
  { intros q Hq.
    assert (Hq1 : countCalls q
        (ValidateAndCopyUniforms cachedProg (glid po * 1) validate
           (set_glid cachedProg po1) w1).2 = countCalls q w).
    { etrans; [eapply countCalls_extendsBy; [|exact R3]|].
      - intros c Hc. apply Hq. by destruct c.
      - apply (countCalls_extendsBy (λ _, false)); [done | exact Hrs]. }
    destruct Hw as [->| ->].
    - etrans; [|exact Hq1]. apply countCalls_same_calls, Push_calls.
    - rewrite countCalls_gl. rewrite (Hq (glDeleteProgram (glid po)) eq_refl).
      etrans; [|exact Hq1]. apply countCalls_same_calls, Push_calls. }
  repeat split; apply Hcount; by intros [].
Qed.

(** X14: [Reload] never touches the files or the configuration and never
    changes or removes a cache entry; at most it adds the pair of the hash
    and handle the program had before, and only for a valid program with
    the cache in use. *)
Theorem Reload_only_adds_to_cache force validate (po : ProgramObject) (w : World) :
  let w' := (Reload force validate po w).2 in
  vfs w' = vfs w
  ∧ UseShaderCache w' = UseShaderCache w
  ∧ (shaderCache w' = shaderCache w
     ∨ (valid po = true ∧ UseShaderCache w = true
        ∧ shaderCache w !! hash po = None
        ∧ shaderCache w' = <[hash po := glid po]> (shaderCache w)))
  ∧ (∀ hc prog, shaderCache w !! hc = Some prog → shaderCache w' !! hc = Some prog).
Proof.
  intros w'.
  assert (Hmain : vfs w' = vfs w ∧ UseShaderCache w' = UseShaderCache w
    ∧ (shaderCache w' = shaderCache w
       ∨ (valid po = true ∧ UseShaderCache w = true
          ∧ shaderCache w !! hash po = None
          ∧ shaderCache w' = <[hash po := glid po]> (shaderCache w)))).
  { pose proof (Reload_world force validate po w) as Hw. cbv zeta in Hw.
    fold w' in Hw.
    pose proof (ReloadState_world (force || negb (valid po) || (glid po =? 0)) po w)
      as [(S1 & S2 & S3 & _) _].
    set (rs := ReloadState _ po w) in *.
    destruct (negb rs.1.1); [rewrite Hw; auto|].
    set (link := if negb _ then _ else _) in *.
    assert (Hl : vfs link.2 = vfs w ∧ UseShaderCache link.2 = UseShaderCache w
                 ∧ shaderCache link.2 = shaderCache w).
    { unfold link. destruct (negb (_ =? 0)); cbn [snd]; [done|].
      match goal with
      | |- context [CreateAndLink ?p ?x] =>
          destruct (extendsBy_CreateAndLink p x) as (L1 & L2 & L3 & _)
      end.
      rewrite L1, L2, L3. done. }
    destruct Hl as (L1 & L2 & L3).
    destruct (vc_facts validate link (glid po * (if valid po then 1 else 0)))
      as (_ & (V1 & V2 & V3 & _) & _). cbv zeta in V1, V2, V3.
    set (vc := if link.1.1 then _ else _) in *.
    assert (Hpush : let push := if valid po && UseShaderCache w
                                then Push (hash po) (glid po) vc.2
                                else (false, vc.2) in
              vfs push.2 = vfs w ∧ UseShaderCache push.2 = UseShaderCache w
              ∧ (shaderCache push.2 = shaderCache w
                 ∨ (valid po = true ∧ UseShaderCache w = true
                    ∧ shaderCache w !! hash po = None
                    ∧ shaderCache push.2 = <[hash po := glid po]> (shaderCache w)))).
    { cbv zeta. destruct (valid po && UseShaderCache w) eqn:Euse; cbn [snd].
      - apply andb_true_iff in Euse as [Ev Eu].
        destruct (Push_cache (hash po) (glid po) vc.2) as (P1 & P2 & P3).
        split; [congruence|]. split; [congruence|].
        destruct P3 as [P3|[P3 P4]]; [left; congruence|].
        right. rewrite P4. rewrite V3, L3 in *. done.
      - split; [congruence|]. split; [congruence|]. left. congruence. }
    cbv zeta in Hpush. destruct Hw as [->| ->]; exact Hpush. }
  destruct Hmain as (M1 & M2 & M3). do 3 (split; [done|]).
  intros hc prog Hl. destruct M3 as [->|(_ & _ & Hnone & ->)]; [done|].
  rewrite lookup_insert_ne; [done|]. intros <-. congruence.
Qed.


Lemma extendsBy_none_calls w w' : extendsBy (λ _, false) w w' → calls w' = calls w.
Proof.
  intros (_ & _ & _ & added & -> & Hall).
  destruct added as [|c added]; [reflexivity | discriminate].
Qed.

Lemma CreateAndLink_no_handle po w :
  drvCreateProgram (calls w) = 0 →
  CreateAndLink po w
  = (false, set_glid 0 po, gl glCreateProgram (assert (glid po =? 0) "glid == 0" w)).
Proof.
  intros Hc. unfold CreateAndLink. cbv zeta.
  rewrite calls_assert, Hc. reflexivity.
Qed.

(** X15: when no cached handle applies and the driver hands out no
    program handle, [Reload] leaves the program invalid with handle 0, its
    uniform locations cleared; it asked for one program and compiled,
    linked and validated nothing. *)
Theorem Reload_without_program_handle force validate (po : ProgramObject)
    (w : World) :
  shaderObjs po ≠ [] →
  valid po && UseShaderCache w = false →
  drvCreateProgram (calls w) = 0 →
  let '(po', w') := Reload force validate po w in
  valid po' = false
  ∧ glid po' = 0
  ∧ uniformStates po' = SetLocation GL_INVALID_INDEX <$> uniformStates po
  ∧ countCalls isCreateProgram w' = S (countCalls isCreateProgram w)
  ∧ countCalls isCreateShader w' = countCalls isCreateShader w
  ∧ countCalls isCompile w' = countCalls isCompile w
  ∧ countCalls isLink w' = countCalls isLink w
  ∧ countCalls isValidateCall w' = countCalls isValidateCall w.
Proof.
  intros Hobjs Huse Hcreate.
  pose proof (Reload_program force validate po w) as Hp.
  pose proof (Reload_world force validate po w) as Hw.
  pose proof (ReloadState_world (force || negb (valid po) || (glid po =? 0)) po w)
    as [Hrs Hus].
  pose proof (ReloadState_nonempty (force || negb (valid po) || (glid po =? 0)) po w
                Hobjs) as Hne.
  cbv zeta in Hp, Hw. rewrite Huse, Hne in Hp, Hw.
  cbn [negb Z.eqb fst snd] in Hp, Hw.
  pose proof (extendsBy_none_calls _ _ Hrs) as Hcalls.
  rewrite CreateAndLink_no_handle in Hp, Hw by (by rewrite Hcalls).
  cbn [fst snd] in Hp, Hw.
  destruct (Reload force validate po w) as [po' w']. cbn [fst snd] in Hp, Hw.
  subst po'. cbn [valid glid uniformStates set_valid set_glid].
  split; [done|]. split; [done|]. split; [exact Hus|].
  assert (Hcount : ∀ q, q (glDeleteProgram (glid po)) = false →
            countCalls q w'
            = ((if q glCreateProgram then 1 else 0) + countCalls q w)%nat).
  { intros q Hq.
    assert (Hq1 : countCalls q
              (gl glCreateProgram
                 (assert (glid (set_glid 0 (ReloadState
                    (force || negb (valid po) || (glid po =? 0)) po w).1.2) =? 0)
                    "glid == 0"
                    (ReloadState (force || negb (valid po) || (glid po =? 0)) po w).2))
            = ((if q glCreateProgram then 1 else 0) + countCalls q w)%nat).
    { rewrite countCalls_gl. f_equal.
      apply countCalls_same_calls. by rewrite calls_assert. }
    destruct Hw as [->| ->]; [exact Hq1|].
    rewrite countCalls_gl, Hq. exact Hq1. }
  repeat split; by rewrite Hcount.
Qed.

(** X16: [Release] deletes the program handle and empties the program but
    keeps the registered uniform indices.  A [Reload] afterwards makes no
    driver call and leaves the program invalid, and every index setter on a
    registered index is then a no-op, apart from the failed bound check. *)
Theorem Release_then_Reload (Clear : ShaderFlags → ShaderFlags)
    (deleteShaderObjs force validate : bool) (po : ProgramObject) (w : World) :
  let '(po1, w1) := Release Clear deleteShaderObjs po w in
  let '(po2, w2) := Reload force validate po1 w1 in
  calls w1 = glDeleteProgram (glid po) :: calls w
  ∧ w2 = w1
  ∧ valid po2 = false ∧ glid po2 = 0 ∧ bound po2 = false
  ∧ uniformStates po2 = ∅ ∧ shaderObjs po2 = []
  ∧ uniformLocs po2 = uniformLocs po
  ∧ ∀ fn idx v,
      0 ≤ idx < Z.of_nat (length (uniformLocs po)) →
      SetUniformAt fn idx v po2 w2 = Some (po2, assert false "IsBound()" w2).
Proof.
  unfold Release. cbv zeta.
  rewrite Reload_empty by reflexivity.
  split; [reflexivity|]. split; [reflexivity|].
  do 6 (split; [reflexivity|]).
  intros fn idx v [Hlo Hhi]. unfold SetUniformAt. cbv zeta.
  replace (idx <? 0) with false by (symmetry; lia).
  change (uniformLocs (set_valid false _)) with (uniformLocs po).
  destruct (uniformLocs po !! Z.to_nat idx) as [key|] eqn:Hl.
  - reflexivity.
  - apply lookup_ge_None in Hl. lia.
Qed.

Lemma set_uniformStates_id po : set_uniformStates (uniformStates po) po = po.
Proof. by destruct po. Qed.

Lemma set_uniformStates_back m po :
  set_uniformStates (uniformStates po) (set_uniformStates m po) = po.
Proof. by destruct po. Qed.

Lemma SetUniformVia_frame fn key v po w po' w' :
  SetUniformVia fn key v po w = Some (po', w') →
  set_uniformStates (uniformStates po) po' = po
  ∧ (∀ k, k ≠ key → uniformStates po' !! k = uniformStates po !! k)
  ∧ (∃ us us', uniformStates po !! key = Some us
       ∧ uniformStates po' !! key = Some us'
       ∧ us_name us' = us_name us ∧ us_location us' = us_location us
       ∧ us_value us' = Some v
       ∧ (calls w' = calls w
          ∨ (IsLocationValid us = true ∧ us_value us ≠ Some v
             ∧ calls w' = glUniform fn (us_location us) v :: calls w))).
Proof.
  unfold SetUniformVia. cbv zeta.
  destruct (uniformStates po !! key) as [us|] eqn:Hl; [|done].
  unfold UniformState_Set. case_decide as Hv; intros ?; simplify_eq.
  - split; [apply set_uniformStates_back|]. split.
    + intros k Hk. cbn. by rewrite lookup_insert_ne.
    + exists us, us. cbn. rewrite lookup_insert_eq. repeat split; try done.
      left. apply calls_assert.
  - split; [apply set_uniformStates_back|]. split.
    + intros k Hk. cbn. by rewrite lookup_insert_ne.
    + eexists us, _. cbn [uniformStates set_uniformStates].
      rewrite lookup_insert_eq. split; [done|]. split; [reflexivity|].
      cbn [us_name us_location us_value]. do 3 (split; [done|]).
      destruct (IsLocationValid us) eqn:Hloc.
      * right. do 2 (split; [done|]). cbn. by rewrite calls_assert.
      * left. apply calls_assert.
Qed.

(** X17: an index setter touches one uniform.  Every member of the
    program but the uniform states is unchanged, every other state is
    unchanged, the addressed state keeps name and location and records the
    value, and the driver sees at most one call: the write of that value to
    that location, made only if the location is resolved and the value
    differs from the recorded one. *)
Theorem setter_touches_one_uniform fn idx v (po po' : ProgramObject)
    (w w' : World) :
  SetUniformAt fn idx v po w = Some (po', w') →
  ∃ key,
    uniformLocs po !! Z.to_nat idx = Some key
    ∧ set_uniformStates (uniformStates po) po' = po
    ∧ (∀ k, k ≠ key → uniformStates po' !! k = uniformStates po !! k)
    ∧ match uniformStates po !! key with
      | None => uniformStates po' !! key = None ∧ calls w' = calls w
      | Some us =>
          ∃ us', uniformStates po' !! key = Some us'
            ∧ us_name us' = us_name us ∧ us_location us' = us_location us
            ∧ us_value us' = Some v
            ∧ (calls w' = calls w
               ∨ (IsLocationValid us = true ∧ us_value us ≠ Some v
                  ∧ calls w' = glUniform fn (us_location us) v :: calls w))
      end.
Proof.
  intros Hset.
  assert (Hidx : (idx <? 0) = false).
  { unfold SetUniformAt in Hset. cbv zeta in Hset.
    by destruct (idx <? 0). }
  destruct (uniformLocs po !! Z.to_nat idx) as [key|] eqn:Hk.
  2:{ unfold SetUniformAt in Hset. cbv zeta in Hset.
      by rewrite Hidx, Hk in Hset. }
  exists key. split; [reflexivity|].
  destruct (uniformStates po !! key) as [us|] eqn:Hl.
  - rewrite (SetUniformAt_found fn idx v po w key us) in Hset by (done || lia).
    destruct (SetUniformVia_frame _ _ _ _ _ _ _ Hset)
      as (F1 & F2 & us0 & us' & F3 & F4 & F5 & F6 & F7 & F8).
    rewrite Hl in F3. simplify_eq.
    split; [done|]. split; [done|]. by exists us'.
  - unfold SetUniformAt in Hset. cbv zeta in Hset.
    rewrite Hidx, Hk, Hl in Hset. simplify_eq.
    split; [apply set_uniformStates_id|]. split; [done|]. split; [done|].
    apply calls_assert.
Qed.

Lemma GetUniformState_result uname po w :
  let r := GetUniformState uname po w in
  r.1 = hashString uname
  ∧ set_uniformStates (uniformStates po) r.2 = po
  ∧ match uniformStates po !! hashString uname with
    | Some _ => r.2 = po
    | None =>
        uniformStates r.2
        = <[hashString uname :=
              SetLocation (GetUniformLoc uname po w) (newUniformState uname)]>
            (uniformStates po)
    end.
Proof.
  unfold GetUniformState, GetNewUniformState. cbv zeta.
  destruct (uniformStates po !! hashString uname) eqn:Hl; cbn [fst snd].
  - split; [done|]. split; [apply set_uniformStates_id | done].
  - split; [done|]. split; [apply set_uniformStates_back|].
    cbn. reflexivity.
Qed.

Lemma SetUniformLocation_result uname po w :
  let po' := SetUniformLocation uname po w in
  uniformLocs po' = (uniformLocs po ++ [hashString uname])%list
  ∧ uniformStates po ⊆ uniformStates po'
  ∧ is_Some (uniformStates po' !! hashString uname)
  ∧ (∀ k, k ≠ hashString uname → uniformStates po' !! k = uniformStates po !! k)
  ∧ set_uniformLocs (uniformLocs po) (set_uniformStates (uniformStates po) po') = po.
Proof.
  unfold SetUniformLocation, GetUniformLocation. cbv zeta.
  set (po0 := set_uniformLocs _ po).
  destruct (GetUniformState_result uname po0 w) as (R1 & R2 & R3).
  cbv zeta in R1, R2, R3.
  destruct (GetUniformState uname po0 w) as [key po1]. cbn [fst snd] in *.
  change (uniformStates po0) with (uniformStates po) in *.
  assert (Hlocs : uniformLocs po1 = (uniformLocs po ++ [hashString uname])%list).
  { exact (f_equal uniformLocs R2). }
  split; [exact Hlocs|].
  assert (Hback : set_uniformLocs (uniformLocs po)
                    (set_uniformStates (uniformStates po) po1) = po).
  { rewrite R2. subst po0. by destruct po. }
  destruct (uniformStates po !! hashString uname) as [us|] eqn:Hl.
  - subst po1. change (uniformStates po0) with (uniformStates po).
    split; [done|]. split; [by rewrite Hl|]. split; [done|]. exact Hback.
  - rewrite R3. split; [by apply insert_subseteq|].
    split; [rewrite lookup_insert_eq; by eexists|].
    split; [|exact Hback]. intros k Hk. by rewrite lookup_insert_ne.
Qed.

Lemma registerUniforms_result names po w :
  let po' := registerUniforms names po w in
  uniformLocs po' = (uniformLocs po ++ (hashString <$> names))%list
  ∧ uniformStates po ⊆ uniformStates po'
  ∧ (∀ uname, uname ∈ names → is_Some (uniformStates po' !! hashString uname))
  ∧ (∀ k, (∀ uname, uname ∈ names → k ≠ hashString uname) →
       uniformStates po' !! k = uniformStates po !! k).
Proof.
  revert po. induction names as [|uname names IH]; intros po.
  - cbn. rewrite app_nil_r. split; [done|]. split; [done|].
    split; [|done]. intros ? Hin. by apply elem_of_nil in Hin.
  - cbn [registerUniforms fold_left].
    destruct (SetUniformLocation_result uname po w) as (S1 & S2 & S3 & S4 & _).
    destruct (IH (SetUniformLocation uname po w)) as (I1 & I2 & I3 & I4).
    cbv zeta in *. unfold registerUniforms in *.
    split. { rewrite I1, S1. rewrite <- app_assoc. reflexivity. }
    split. { by etrans. }
    split.
    + intros u Hin. apply elem_of_cons in Hin as [->|Hin]; [|by apply I3].
      destruct S3 as [us Hus]. exists us.
      by apply (lookup_weaken _ _ _ _ Hus I2).
    + intros k Hk. rewrite I4.
      * apply S4. apply Hk. by left.
      * intros u Hin. apply Hk. by right.
Qed.

(** X18: names registered with [SetUniformLocation] are appended to the
    index table in the order given, every one of them has a state
    afterwards, states that existed are kept as they were, and the index
    setter at a registered index is the pointer setter on the state of that
    name. *)
Theorem registered_uniforms_are_addressable (names : list string)
    (po : ProgramObject) (w : World) :
  let po' := registerUniforms names po w in
  uniformLocs po' = (uniformLocs po ++ (hashString <$> names))%list
  ∧ uniformStates po ⊆ uniformStates po'
  ∧ (∀ k, (∀ uname, uname ∈ names → k ≠ hashString uname) →
       uniformStates po' !! k = uniformStates po !! k)
  ∧ ∀ (i : nat) uname, names !! i = Some uname →
      ∃ us,
        uniformLocs po' !! (length (uniformLocs po) + i)%nat
        = Some (hashString uname)
        ∧ uniformStates po' !! hashString uname = Some us
        ∧ ∀ fn v w0,
            SetUniformAt fn (Z.of_nat (length (uniformLocs po) + i)) v po' w0
            = SetUniformVia fn (hashString uname) v po' w0.
Proof.
  destruct (registerUniforms_result names po w) as (R1 & R2 & R3 & R4).
  cbv zeta in *. split; [done|]. split; [done|]. split; [done|].
  intros i uname Hi.
  destruct (R3 uname (list_elem_of_lookup_2 _ _ _ Hi)) as [us Hus].
  assert (Hloc : uniformLocs (registerUniforms names po w)
                   !! (length (uniformLocs po) + i)%nat
                 = Some (hashString uname)).
  { rewrite R1, lookup_app_r by lia.
    replace (length (uniformLocs po) + i - length (uniformLocs po))%nat with i
      by lia.
    by rewrite list_lookup_fmap, Hi. }
  exists us. split; [done|]. split; [done|].
  intros fn v w0. apply (SetUniformAt_found _ _ _ _ _ _ us); [lia| |done].
  by rewrite Nat2Z.id.
Qed.

Lemma registerTreeUniforms_eq tpb tps w :
  registerTreeUniforms tpb tps w
  = (registerUniforms
       (uniformNamesNDNA ++ ["invMapSizePO2"] ++ replicate 5 "$UNUSED$") tpb w,
     registerUniforms (uniformNamesNDNA ++ ["$UNUSED$"] ++ uniformNamesNADA) tps w).
Proof.
  unfold registerTreeUniforms, registerUniforms, uniformNamesNDNA,
    uniformNamesNADA.
  cbn [fold_left app replicate]. reflexivity.
Qed.

(** X19: the registration in [LoadTreeShaders] gives both tree programs
    twelve indices, and the indices the function sets afterwards address
    the uniforms it means: 3, 4 and 6 on the basic program, and 3, 4, 9, 10
    and 11 on the shadow program. *)
Theorem tree_shader_uniform_indices (tpb tps : ProgramObject) (w : World) :
  uniformLocs tpb = [] → uniformLocs tps = [] →
  let '(tpb', tps') := registerTreeUniforms tpb tps w in
  length (uniformLocs tpb') = 12%nat
  ∧ length (uniformLocs tps') = 12%nat
  ∧ (∀ idx uname,
       (idx, uname) ∈ [(3, "groundAmbientColor"); (4, "groundDiffuseColor");
                       (6, "invMapSizePO2")] →
       ∃ us, uniformStates tpb' !! hashString uname = Some us
         ∧ ∀ fn v w0, SetUniformAt fn idx v tpb' w0
                      = SetUniformVia fn (hashString uname) v tpb' w0)
  ∧ (∀ idx uname,
       (idx, uname) ∈ [(3, "groundAmbientColor"); (4, "groundDiffuseColor");
                       (9, "groundShadowDensity"); (10, "shadowTex");
                       (11, "diffuseTex")] →
       ∃ us, uniformStates tps' !! hashString uname = Some us
         ∧ ∀ fn v w0, SetUniformAt fn idx v tps' w0
                      = SetUniformVia fn (hashString uname) v tps' w0).
Proof.
  intros Hb Hs. rewrite registerTreeUniforms_eq.
  set (nb := (uniformNamesNDNA ++ ["invMapSizePO2"] ++ replicate 5 "$UNUSED$")%list).
  set (ns := (uniformNamesNDNA ++ ["$UNUSED$"] ++ uniformNamesNADA)%list).
  destruct (registerUniforms_result nb tpb w) as (B1 & _ & B3 & _).
  destruct (registerUniforms_result ns tps w) as (S1 & _ & S3 & _).
  cbv zeta in *. rewrite Hb in B1. rewrite Hs in S1.
  split; [by rewrite B1|]. split; [by rewrite S1|].
  split.
  - intros idx uname Hin.
    assert (Hi : nb !! Z.to_nat idx = Some uname ∧ 0 ≤ idx).
    { repeat (apply elem_of_cons in Hin as [Hin|Hin];
                [simplify_eq; by split|]).
      by apply elem_of_nil in Hin. }
    destruct Hi as [Hi Hpos].
    destruct (B3 uname (list_elem_of_lookup_2 _ _ _ Hi)) as [us Hus].
    exists us. split; [done|]. intros fn v w0.
    apply (SetUniformAt_found _ _ _ _ _ _ us); [done| |done].
    rewrite B1. cbn [app]. by rewrite list_lookup_fmap, Hi.
  - intros idx uname Hin.
    assert (Hi : ns !! Z.to_nat idx = Some uname ∧ 0 ≤ idx).
    { repeat (apply elem_of_cons in Hin as [Hin|Hin];
                [simplify_eq; by split|]).
      by apply elem_of_nil in Hin. }
    destruct Hi as [Hi Hpos].
    destruct (S3 uname (list_elem_of_lookup_2 _ _ _ Hi)) as [us Hus].
    exists us. split; [done|]. intros fn v w0.
    apply (SetUniformAt_found _ _ _ _ _ _ us); [done| |done].
    rewrite S1. cbn [app]. by rewrite list_lookup_fmap, Hi.
Qed.


Lemma ValidateAndCopyUniforms_validations tgt src validate po w :
  countCalls isValidateCall (ValidateAndCopyUniforms tgt src validate po w).2
  = ((if validate then 1 else 0) + countCalls isValidateCall w)%nat.
Proof.
  unfold ValidateAndCopyUniforms. cbv zeta.
  assert (Hv : countCalls isValidateCall
                 (if validate then Validate po w else (valid po, po, w)).2
               = ((if validate then 1 else 0) + countCalls isValidateCall w)%nat).
  { destruct validate; [|reflexivity]. unfold Validate. cbv zeta.
    set (w1 := gl (glValidateProgram (glid po)) w).
    pose proof (glslGetLog_calls (glid po) w1) as Hl.
    destruct (glslGetLog (glid po) w1) as [l w2]. cbn [fst snd] in *.
    rewrite (countCalls_same_calls _ _ _ Hl). apply countCalls_gl. }
  destruct (if validate then _ else _) as [[iv po1] w1]. cbn [fst snd] in Hv.
  destruct iv; cbn [fst snd].
  - pose proof (extendsBy_GLSLCopyState tgt src (uniformStates po1) w1) as Hc.
    destruct (GLSLCopyState _ _ _ _) as [m w2]. cbn [fst snd] in *.
    rewrite <- Hv. eapply countCalls_extendsBy; [|exact Hc]. by intros [].
  - rewrite <- Hv. apply countCalls_same_calls.
    by destruct (negb (Str.empty (log po1))).
Qed.

Lemma Reload_validations force validate po w :
  (countCalls isValidateCall (Reload force validate po w).2
   ≤ (if validate then 1 else 0) + countCalls isValidateCall w)%nat
  ∧ (countCalls isValidateCall w
     ≤ countCalls isValidateCall (Reload force validate po w).2)%nat.
Proof.
  pose proof (Reload_world force validate po w) as Hw. cbv zeta in Hw.
  pose proof (ReloadState_world (force || negb (valid po) || (glid po =? 0)) po w)
    as [Hrs _].
  set (rs := ReloadState _ po w) in *.
  assert (Hr : countCalls isValidateCall rs.2 = countCalls isValidateCall w).
  { apply (countCalls_extendsBy (λ _, false)); [done | exact Hrs]. }
  destruct (negb rs.1.1); [rewrite Hw, Hr; lia|].
  set (link := if negb _ then _ else _) in *.
  assert (Hl : countCalls isValidateCall link.2 = countCalls isValidateCall w).
  { unfold link. destruct (negb (_ =? 0)); cbn [snd]; [exact Hr|].
    rewrite <- Hr. eapply countCalls_extendsBy; [|apply extendsBy_CreateAndLink].
    by intros []. }
  set (vc := if link.1.1 then _ else _) in *.
  assert (Hvc : (countCalls isValidateCall vc.2
                 ≤ (if validate then 1 else 0) + countCalls isValidateCall w)%nat
                ∧ (countCalls isValidateCall w
                   ≤ countCalls isValidateCall vc.2)%nat).
  { unfold vc. destruct link.1.1; cbn [snd].
    - rewrite ValidateAndCopyUniforms_validations, Hl. lia.
    - rewrite Hl. lia. }
  assert (Hpush : countCalls isValidateCall
                    (if valid po && UseShaderCache w
                     then Push (hash po) (glid po) vc.2 else (false, vc.2)).2
                  = countCalls isValidateCall vc.2).
  { destruct (valid po && UseShaderCache w); [|reflexivity].
    apply countCalls_same_calls, Push_calls. }
  destruct Hw as [->| ->].
  - rewrite Hpush. exact Hvc.
  - rewrite countCalls_gl, Hpush. cbn. exact Hvc.
Qed.

(** X20: [glValidateProgram] is called only on request: never by a
    [Reload] without validation, by [Link] or by [Disable], and at most once
    by a [Reload] with validation or by [Enable]. *)
Theorem validation_only_on_request force (po : ProgramObject) (w : World) :
  countCalls isValidateCall (Reload force false po w).2
  = countCalls isValidateCall w
  ∧ countCalls isValidateCall (Link po w).2 = countCalls isValidateCall w
  ∧ (countCalls isValidateCall (Reload force true po w).2
     ≤ S (countCalls isValidateCall w))%nat
  ∧ (countCalls isValidateCall (Enable po w).2
     ≤ S (countCalls isValidateCall w))%nat
  ∧ countCalls isValidateCall (Disable po w).2 = countCalls isValidateCall w.
Proof.
  split; [|split; [|split; [|split]]].
  - pose proof (Reload_validations force false po w). cbn in *. lia.
  - unfold Link, MaybeReload.
    destruct (HashSet (shaderFlags po) && negb (Updated (shaderFlags po))).
    + apply countCalls_same_calls, calls_assert.
    + pose proof (Reload_validations (negb (HashSet (shaderFlags po))) false po w)
        as Hr.
      destruct (Reload _ false po w) as [po1 w1]. cbn [fst snd] in *.
      unfold PrintDebugInfo.
      rewrite (countCalls_same_calls _ _ _ (calls_assert _ _ w1)). lia.
  - pose proof (Reload_validations force true po w). cbn in *. lia.
  - unfold Enable, MaybeReload.
    destruct (HashSet (shaderFlags po) && negb (Updated (shaderFlags po))).
    + cbn [snd]. rewrite countCalls_gl. cbn. lia.
    + pose proof (Reload_validations (negb (HashSet (shaderFlags po))) true po w)
        as Hr.
      destruct (Reload _ true po w) as [po1 w1]. cbn [fst snd] in *.
      unfold PrintDebugInfo. rewrite countCalls_gl. cbn. lia.
  - unfold Disable. cbn [snd]. by rewrite countCalls_gl.
Qed.

Lemma extendsBy_calls p w w' :
  extendsBy p w w' →
  ∃ added, calls w' = (added ++ calls w)%list ∧ forallb p added = true.
Proof. by intros (_ & _ & _ & Hc). Qed.

Lemma Reload_steps force validate po w :
  let rs := ReloadState (force || negb (valid po) || (glid po =? 0)) po w in
  let useCache := valid po && UseShaderCache w in
  let cached := if useCache then Find (hash rs.1.2) rs.2 else 0 in
  let link := if negb (cached =? 0) then (true, set_glid cached rs.1.2, rs.2)
              else CreateAndLink (set_glid cached rs.1.2) rs.2 in
  let vc := if link.1.1
            then ValidateAndCopyUniforms (glid link.1.2)
                   (glid po * (if valid po then 1 else 0)) validate
                   link.1.2 link.2
            else (false, link.1.2, link.2) in
  let w' := (Reload force validate po w).2 in
  extendsBy (λ _, false) w rs.2
  ∧ extendsBy (λ c, isBuildCall c || isDeleteShader c) rs.2 link.2
  ∧ extendsBy (λ c, isValidateCall c || isUniformWrite c) link.2 vc.2
  ∧ (if negb rs.1.1 then calls w' = calls rs.2
     else calls w' = calls vc.2
          ∨ calls w' = glDeleteProgram (glid po) :: calls vc.2).
Proof.
  cbv zeta.
  pose proof (Reload_world force validate po w) as Hw. cbv zeta in Hw.
  destruct (ReloadState_world (force || negb (valid po) || (glid po =? 0)) po w)
    as [Hrs _].
  set (rs := ReloadState _ po w) in *.
  split; [exact Hrs|].
  set (link := if negb (_ =? 0) then _ else _) in *.
  assert (Hl : extendsBy (λ c, isBuildCall c || isDeleteShader c) rs.2 link.2).
  { unfold link. destruct (negb (_ =? 0)); cbn [snd];
      [apply extendsBy_refl | apply extendsBy_CreateAndLink]. }
  split; [exact Hl|].
  destruct (vc_facts validate link (glid po * (if valid po then 1 else 0)))
    as (_ & Hvc & _). cbv zeta in Hvc.
  split; [exact Hvc|].
  set (vc := if link.1.1 then _ else _) in *.
  destruct (negb rs.1.1); [by rewrite Hw|].
  assert (Hp : calls (if valid po && UseShaderCache w
                      then Push (hash po) (glid po) vc.2 else (false, vc.2)).2
               = calls vc.2).
  { destruct (valid po && UseShaderCache w); [apply Push_calls | reflexivity]. }
  destruct Hw as [->| ->]; [left | right]; cbn [calls gl]; by rewrite Hp.
Qed.

Lemma Reload_calls force validate po w :
  ∃ added,
    calls (Reload force validate po w).2 = (added ++ calls w)%list
    ∧ ∀ prog, glDeleteProgram prog ∈ added → prog = glid po.
Proof.
  destruct (Reload_steps force validate po w) as (S1 & S2 & S3 & S4).
  cbv zeta in *.
  set (rs := ReloadState _ po w) in *.
  set (link := if negb (_ =? 0) then _ else _) in *.
  set (vc := if link.1.1 then _ else _) in *.
  set (q := λ c, negb (isDeleteProgram c)).
  assert (Hq : ∀ added prog, forallb q added = true →
                 glDeleteProgram prog ∈ added → False).
  { intros added prog Hall Hin. apply list_elem_of_In in Hin.
    pose proof (proj1 (forallb_forall q added) Hall _ Hin) as Hc. done. }
  assert (E1 : extendsBy q w rs.2).
  { eapply extendsBy_weaken; [|exact S1]. done. }
  assert (E2 : extendsBy q w vc.2).
  { eapply extendsBy_trans; [exact E1|].
    eapply extendsBy_trans.
    - eapply extendsBy_weaken; [|exact S2]. by intros [].
    - eapply extendsBy_weaken; [|exact S3]. by intros []. }
  destruct (negb rs.1.1).
  - destruct (extendsBy_calls _ _ _ E1) as (added & Ha & Hall).
    exists added. split; [by rewrite S4|]. intros prog Hin.
    by destruct (Hq _ _ Hall Hin).
  - destruct (extendsBy_calls _ _ _ E2) as (added & Ha & Hall).
    destruct S4 as [S4|S4].
    + exists added. split; [by rewrite S4|]. intros prog Hin.
      by destruct (Hq _ _ Hall Hin).
    + exists (glDeleteProgram (glid po) :: added). split.
      * rewrite S4, Ha. reflexivity.
      * intros prog Hin. apply elem_of_cons in Hin as [Hin|Hin];
          [by simplify_eq|]. by destruct (Hq _ _ Hall Hin).
Qed.

(** C3, as amended: when a shader object fails to compile and the program
    is not taken from the cache, Reload leaves the validity flag false, the
    log non-empty if the driver reports on the failure, and the handle is
    the program handle that CreateAndLink created, which is not zero when
    glCreateProgram succeeded: it is not reset to 0.  Reload issues no
    glDeleteProgram except possibly one on the handle the program had
    before, so the new handle is not released unless it is the number of
    the old one. *)
Theorem Reload_compile_failure force validate po w so :
  let reloadShaderObjs := force || negb (valid po) || (glid po =? 0) in
  let '(_, po1, w1) := ReloadState reloadShaderObjs po w in
  so ∈ shaderObjs po1 →
  failsToCompile so →
  reportsOnFailure so →
  (valid po && UseShaderCache w = true → Find (hash po1) w1 = 0) →
  drvCreateProgram (calls w1) ≠ 0 →
  let '(po', w') := Reload force validate po w in
  valid po' = false
  ∧ log po' ≠ ""
  ∧ glid po' = drvCreateProgram (calls w1)
  ∧ glid po' ≠ 0
  ∧ ∃ added,
      calls w' = (added ++ calls w)%list
      ∧ (∀ prog, glDeleteProgram prog ∈ added → prog = glid po)
      ∧ (glid po' ≠ glid po → glDeleteProgram (glid po') ∉ added).
Proof.
  intros reloadShaderObjs.
  pose proof (Reload_compile_failure_outcome force validate po w so) as Hold.
  cbv zeta in Hold. fold reloadShaderObjs in Hold.
  destruct (ReloadState reloadShaderObjs po w) as [[ne po1] w1].
  intros Hin Hfail Hrep Hcache Hcreate.
  specialize (Hold Hin Hfail Hrep Hcache Hcreate).
  destruct (Reload_calls force validate po w) as (added & Ha & Hdel).
  destruct (Reload force validate po w) as [po' w']. cbn [fst snd] in *.
  destruct Hold as (O1 & O2 & O3 & O4).
  do 4 (split; [done|]). exists added. split; [exact Ha|].
  split; [exact Hdel|]. intros Hne Hin'. apply Hne. by apply Hdel.
Qed.











End Extras.

(** The theorems above applied to concrete programs. *)

Module ExtraFacts.
Import Demo DemoMore.

Lemma ExtractVersionDirective_splits_witness :
  ExtractVersionDirective (srcText sourceVersionShader) ""
  = (true, goodSource, "#version 120" ++ Str.newline)
  ∧ ∃ pre post,
      srcText sourceVersionShader = pre ++ ("#version 120" ++ Str.newline) ++ post
      ∧ goodSource = pre ++ post.
Proof.
  split; [vm_compute; reflexivity|].
  exact (proj2 (proj2 (ExtractVersionDirective_splits
                         (srcText sourceVersionShader) "" goodSource
                         ("#version 120" ++ Str.newline) true eq_refl))
           eq_refl).
Defined.

Lemma version_directive_from_source_witness :
  nth 1 (assembledSources sourceVersionShader) "" = "#version 120" ++ Str.newline
  ∧ nth 6 (assembledSources sourceVersionShader) "" = goodSource.
Proof.
  destruct (version_directive_from_source sourceVersionShader 0) as [-> _].
  - reflexivity.
  - reflexivity.
  - intros _. vm_compute. by eexists.
  - reflexivity.
  - split; vm_compute; reflexivity.
Defined.

Lemma ExtractVersionDirective_single_line_witness :
  ExtractVersionDirective (srcText directiveOnlyShader) "#version 100"
  = (true, "#version 120", "")
  ∧ nth 1 (assembledSources directiveOnlyShader) "x" = ""
  ∧ nth 6 (assembledSources directiveOnlyShader) "" = "#version 120".
Proof.
  destruct (ExtractVersionDirective_single_line directiveOnlyShader "#version 100")
    as [He Ha]; [reflexivity | reflexivity |].
  split; [exact He|]. rewrite Ha by reflexivity. split; reflexivity.
Defined.

Lemma program_hash_ignores_order_witness :
  hash (RecalculateShaderHash
          (set_shaderObjs [goodShader; otherShader] boundProgram))
  = hash (RecalculateShaderHash
            (set_shaderObjs [otherShader; goodShader] boundProgram)).
Proof.
  apply (proj1 (program_hash_ignores_order boundProgram
                  [goodShader; otherShader] [otherShader; goodShader] goodShader)).
  apply perm_swap.
Defined.

Lemma Reload_rereads_sources_only_when_forced_witness :
  srcText <$> shaderObjs (Reload false true linkedProgram diskWorld).1 = [""]
  ∧ srcText <$> shaderObjs (Reload true true linkedProgram diskWorld).1
    = [goodSource].
Proof.
  split.
  - apply (proj2 (Reload_rereads_sources_only_when_forced false true
                    linkedProgram diskWorld)); [reflexivity | reflexivity |].
    vm_compute. discriminate.
  - vm_compute. reflexivity.
Defined.

Lemma CreateAndLink_compiles_each_once_witness :
  let r := CreateAndLink (freshProgram [goodShader; badShader; otherShader])
             world in
  countCalls isCompile r.2 = 3%nat
  ∧ countCalls isCreateShader r.2 = 3%nat
  ∧ countCalls isDeleteShader r.2 = 9%nat
  ∧ countCalls isCreateProgram r.2 = 2%nat
  ∧ glid r.1.2 = 2.
Proof.
  cbv zeta.
  pose proof (CreateAndLink_compiles_each_once
                (freshProgram [goodShader; badShader; otherShader]) world) as Hw.
  destruct (CreateAndLink _ world) as [[ok po'] w']. cbn [fst snd].
  destruct Hw as (-> & -> & -> & -> & ->); [vm_compute; discriminate|].
  repeat split; vm_compute; reflexivity.
Defined.

Lemma CreateAndLink_links_only_complete_programs_witness :
  (CreateAndLink (freshProgram [goodShader; badShader; otherShader]) world).1.1
  = false
  ∧ countCalls isLink
      (CreateAndLink (freshProgram [goodShader; badShader; otherShader]) world).2
    = 0%nat.
Proof.
  pose proof (CreateAndLink_links_only_complete_programs
                (freshProgram [goodShader; badShader; otherShader]) world) as Hw.
  destruct (CreateAndLink _ world) as [[ok po'] w'].
  apply Hw with badShader.
  - vm_compute. discriminate.
  - vm_compute. apply list_elem_of_further, list_elem_of_here.
  - exact DemoFacts.badShader_fails.
Defined.

Lemma Reload_reuses_cached_program_witness :
  let r := Reload false true boundProgram cachedWorld in
  glid r.1 = 7
  ∧ valid r.1 = true
  ∧ countCalls isCreateProgram r.2 = 1%nat
  ∧ countCalls isCreateShader r.2 = 0%nat
  ∧ countCalls isCompile r.2 = 0%nat
  ∧ countCalls isLink r.2 = 0%nat.
Proof.
  cbv zeta.
  pose proof (Reload_reuses_cached_program false true boundProgram cachedWorld 7)
    as Hw.
  destruct (Reload false true boundProgram cachedWorld) as [po' w'].
  cbn [fst snd].
  destruct Hw as (-> & -> & -> & -> & -> & ->).
  - reflexivity.
  - reflexivity.
  - vm_compute. discriminate.
  - vm_compute. reflexivity.
  - lia.
  - repeat split; reflexivity.
Defined.

Lemma Release_then_Reload_witness :
  let '(po1, w1) := Release (λ _, mkShaderFlags "" false false) true
                      boundProgram world in
  let '(po2, w2) := Reload true true po1 w1 in
  valid po2 = false
  ∧ uniformLocs po2 = uniformLocs boundProgram
  ∧ SetUniform3f 2 one one one po2 w2
    = Some (po2, assert false "IsBound()" w2).
Proof.
  pose proof (Release_then_Reload (λ _, mkShaderFlags "" false false) true
                true true boundProgram world) as Hw.
  destruct (Release _ true boundProgram world) as [po1 w1].
  destruct (Reload true true po1 w1) as [po2 w2].
  destruct Hw as (_ & _ & Hv & _ & _ & _ & _ & Hl & Hs).
  split; [exact Hv|]. split; [exact Hl|].
  apply (Hs Uniform3f 2 (FltVec [one; one; one])). vm_compute. split; discriminate || reflexivity.
Defined.

Lemma setter_touches_one_uniform_witness :
  let r := default (boundProgram, world)
             (SetUniform3f 0 0 one 0 boundProgram world) in
  SetUniform3f 0 0 one 0 boundProgram world = Some r
  ∧ uniformStates r.1 !! hashString "$UNUSED$" = Some unusedUniform
  ∧ set_uniformStates (uniformStates boundProgram) r.1 = boundProgram.
Proof.
  cbv zeta. split; [vm_compute; reflexivity|].
  destruct (setter_touches_one_uniform Uniform3f 0 (FltVec [0; one; 0])
              boundProgram
              (default (boundProgram, world)
                 (SetUniform3f 0 0 one 0 boundProgram world)).1
              world
              (default (boundProgram, world)
                 (SetUniform3f 0 0 one 0 boundProgram world)).2)
    as (key & Hk & Hframe & Hother & _); [vm_compute; reflexivity|].
  split; [|exact Hframe].
  rewrite Hother; [vm_compute; reflexivity|].
  vm_compute in Hk. intros <-. discriminate Hk.
Defined.

Lemma registered_uniforms_are_addressable_witness :
  let po' := registerUniforms ["color"; "invMapSizePO2"] boundProgram world in
  uniformLocs po' !! 4%nat = Some (hashString "invMapSizePO2")
  ∧ is_Some (uniformStates po' !! hashString "invMapSizePO2")
  ∧ uniformStates po' !! hashString "color" = Some color.
Proof.
  cbv zeta.
  destruct (registered_uniforms_are_addressable ["color"; "invMapSizePO2"]
              boundProgram world) as (_ & Hsub & _ & Hidx).
  destruct (Hidx 1%nat "invMapSizePO2" eq_refl) as (us & Hl & Hs & _).
  split; [exact Hl|]. split; [by exists us|].
  refine (lookup_weaken _ _ _ _ _ Hsub). vm_compute. reflexivity.
Defined.

Lemma tree_shader_uniform_indices_witness :
  let '(tpb', tps') :=
    registerTreeUniforms (freshProgram [goodShader])
      (freshProgram [goodShader; otherShader]) world in
  length (uniformLocs tpb') = 12%nat
  ∧ length (uniformLocs tps') = 12%nat
  ∧ (∃ us, uniformStates tps' !! hashString "shadowTex" = Some us
       ∧ ∀ fn v w0, SetUniformAt fn 10 v tps' w0
                    = SetUniformVia fn (hashString "shadowTex") v tps' w0).
Proof.
  pose proof (tree_shader_uniform_indices (freshProgram [goodShader])
                (freshProgram [goodShader; otherShader]) world eq_refl eq_refl)
    as Hw.
  destruct (registerTreeUniforms _ _ world) as [tpb' tps'].
  destruct Hw as (Hb & Hs & _ & Hps).
  split; [exact Hb|]. split; [exact Hs|].
  apply (Hps 10 "shadowTex").
  do 3 apply list_elem_of_further. apply list_elem_of_here.
Defined.

Lemma Reload_compile_failure_witness :
  let r := Reload true true (newProgram [badShader]) world in
  valid r.1 = false ∧ log r.1 ≠ "" ∧ glid r.1 = 2
  ∧ ∃ added, calls r.2 = (added ++ calls world)%list
             ∧ glDeleteProgram 2 ∉ added.
Proof.
  cbv zeta.
  pose proof (Reload_compile_failure true true (newProgram [badShader]) world
                badShader) as Hw.
  assert (E : ReloadState true (newProgram [badShader]) world
              = (true, (ReloadState true (newProgram [badShader]) world).1.2,
                 world)) by (vm_compute; reflexivity).
  cbv zeta in Hw.
  change (true || negb (valid (newProgram [badShader]))
          || (glid (newProgram [badShader]) =? 0)) with true in Hw.
  rewrite E in Hw.
  destruct (Reload true true (newProgram [badShader]) world) as [po' w'].
  cbn [fst snd].
  destruct Hw as (Hv & Hl & Hg & _ & added & Ha & _ & Hnot).
  - vm_compute. apply list_elem_of_here.
  - exact DemoFacts.badShader_fails.
  - exact DemoFacts.badShader_reports.
  - intros Hc. vm_compute in Hc. discriminate Hc.
  - vm_compute. discriminate.
  - split; [exact Hv|]. split; [exact Hl|].
    assert (Hg2 : glid po' = 2) by (rewrite Hg; vm_compute; reflexivity).
    split; [exact Hg2|]. exists added. split; [exact Ha|].
    rewrite <- Hg2. apply Hnot. rewrite Hg2. vm_compute. discriminate.
Defined.



End ExtraFacts.

Module NoValidateFacts.
Import DemoNoValidate.

Lemma Reload_without_copy_leaves_uniforms_unresolved_witness :
  let po' := (Reload true true program Demo.world).1 in
  valid po' = true
  ∧ allUnresolved (uniformStates po')
  ∧ uniformStates po' = SetLocation GL_INVALID_INDEX <$> uniformStates program.
Proof.
  cbv zeta. split; [vm_compute; reflexivity|].
  pose proof (Reload_without_copy_leaves_uniforms_unresolved true true program
                Demo.world) as Hw.
  destruct (Reload true true program Demo.world) as [po' w'].
  destruct Hw as (Hu & Ha & _).
  - left. split; [reflexivity | intros tr prog; reflexivity].
  - split; [exact Ha | exact Hu].
Defined.

End NoValidateFacts.

Module NoContextFacts.
Import DemoNoContext.

Lemma Reload_without_program_handle_witness :
  let '(po', w') :=
    Reload true true (DemoMore.freshProgram [Demo.goodShader]) Demo.world in
  valid po' = false
  ∧ glid po' = 0
  ∧ countCalls isCreateProgram w' = 2%nat
  ∧ countCalls isCompile w' = 0%nat.
Proof.
  pose proof (Reload_without_program_handle true true
                (DemoMore.freshProgram [Demo.goodShader]) Demo.world) as Hw.
  destruct (Reload true true _ Demo.world) as [po' w'].
  destruct Hw as (Hv & Hg & _ & Hc & _ & Hk & _).
  - vm_compute. discriminate.
  - reflexivity.
  - reflexivity.
  - split; [exact Hv|]. split; [exact Hg|]. split; [exact Hc | exact Hk].
Defined.

End NoContextFacts.
